(** * AICashAdvisor: the deterministic finance core, embedded and verified

    The development follows the layout of the Python sources:

    - [Dec]        : the part of Python's [decimal] module the services use
                     (finite values, the default context of 28 digits);
    - [Money]      : [backend/money.py];
    - [PlansDebt]  : [backend/plans_debt.py], over an explicit object store;
    - [Analytics]  : [backend/analytics.py];
    - [Normalizer] : [backend/normalizer.py], with [datetime.strptime] for
                     the three formats the normalizer tries.

    Exceptions are values of [exn]; a computation that may raise returns a
    [result]. *)

From stdpp Require Import gmap strings list fin_maps.
From Stdlib Require Import ZArith NArith Lia Ascii String Bool DecimalString DecimalN.

Local Open Scope Z_scope.

(** ** Exceptions and the error monad *)

Inductive exn : Type :=
| InvalidOperation            (* decimal.InvalidOperation *)
| DivisionByZero              (* decimal.DivisionByZero *)
| ValueError (msg : string)
| TypeError
| AttributeError
| IndexError.

Inductive result (A : Type) : Type :=
| Ok (a : A)
| Raise (e : exn).
Arguments Ok {A} a.
Arguments Raise {A} e.

Definition rbind {A B} (m : result A) (k : A -> result B) : result B :=
  match m with
  | Ok a => k a
  | Raise e => Raise e
  end.

#[global] Instance result_ret : MRet result := @Ok.
#[global] Instance result_bind : MBind result := fun A B k m => rbind m k.

Fixpoint rmapM {A B} (f : A -> result B) (l : list A) : result (list B) :=
  match l with
  | [] => Ok []
  | x :: xs => y ← f x; ys ← rmapM f xs; Ok (y :: ys)
  end.

Fixpoint rfoldM {A B} (f : A -> B -> result A) (a : A) (l : list B) : result A :=
  match l with
  | [] => Ok a
  | x :: xs => a' ← f a x; rfoldM f a' xs
  end.

(** ** Python's [decimal.Decimal], finite values

    A finite [Decimal] is a sign, a coefficient and an exponent, its value
    being [(-1)^sign * coefficient * 10^exponent].  Distinct
    representations of one value ([1.0] and [1.00], [0.00] and [-0.00]) are
    distinct objects, as in Python.

    The arithmetic is that of the default context, which the repository
    never changes: precision 28, rounding [ROUND_HALF_EVEN], with
    [InvalidOperation] and [DivisionByZero] trapped (raised as exceptions).
    Every operation computes the exact result and then rounds it to the
    context ([fix_ctx], Python's [_fix]).  The exponent is an unbounded integer here: the
    context's exponent range (Emax = 999999, Emin = -999999) is not
    modelled, nor are NaN and the infinities. *)

Module Dec.

Record Decimal : Type := mkDecimal {
  d_sign : bool;   (* true for a negative sign *)
  d_int  : N;      (* coefficient *)
  d_exp  : Z       (* exponent *)
}.

#[global] Instance Decimal_eq_dec : EqDecision Decimal.
Proof. solve_decision. Defined.

Definition prec : Z := 28.

Inductive rounding : Type := ROUND_HALF_UP | ROUND_HALF_EVEN.

(** Number of decimal digits of the coefficient; [len(self._int)], which is
    1 for a zero coefficient. *)
Fixpoint ndigits_aux (fuel : nat) (n : N) : Z :=
  match fuel with
  | O => 1
  | S f => if (n <? 10)%N then 1 else 1 + ndigits_aux f (n / 10)%N
  end.

Definition ndigits (n : N) : Z := ndigits_aux (N.to_nat (N.size n)) n.

(** [round_coeff r c k] drops the last [k] digits of [c] ([k > 0]) and
    rounds what is left by the mode [r]. *)
Definition round_coeff (r : rounding) (c : N) (k : Z) : N :=
  let p := (10 ^ Z.to_N k)%N in
  let q := (c / p)%N in
  let rem := (c mod p)%N in
  match r with
  | ROUND_HALF_UP => if (p <=? 2 * rem)%N then (q + 1)%N else q
  | ROUND_HALF_EVEN =>
      match (2 * rem ?= p)%N with
      | Lt => q
      | Gt => (q + 1)%N
      | Eq => if N.even q then q else (q + 1)%N
      end
  end.

(** [Decimal._fix]: round to the context's precision. *)
Definition fix_ctx (d : Decimal) : Decimal :=
  let nd := ndigits (d_int d) in
  if nd <=? prec then d
  else
    let k := nd - prec in
    let c := round_coeff ROUND_HALF_EVEN (d_int d) k in
    if prec <? ndigits c
    then mkDecimal (d_sign d) (c / 10)%N (d_exp d + k + 1)
    else mkDecimal (d_sign d) c (d_exp d + k).

(** The signed coefficient, and the coefficient an operand has once its
    exponent is lowered to [e] (for [e <= d_exp d]). *)
Definition signed (d : Decimal) : Z :=
  if d_sign d then - Z.of_N (d_int d) else Z.of_N (d_int d).

Definition aligned (d : Decimal) (e : Z) : Z := signed d * 10 ^ (d_exp d - e).

Definition is_zero (d : Decimal) : bool := (d_int d =? 0)%N.

Definition copy_negate (d : Decimal) : Decimal :=
  mkDecimal (negb (d_sign d)) (d_int d) (d_exp d).

Definition copy_abs (d : Decimal) : Decimal :=
  mkDecimal false (d_int d) (d_exp d).

(** [__neg__], [__pos__], [__abs__]: all three round to the context, and
    the first two turn a negative zero into a positive one. *)
Definition neg (d : Decimal) : Decimal :=
  if is_zero d then fix_ctx (copy_abs d) else fix_ctx (copy_negate d).

Definition pos (d : Decimal) : Decimal :=
  if is_zero d then fix_ctx (copy_abs d) else fix_ctx d.

Definition abs (d : Decimal) : Decimal :=
  if d_sign d then neg d else pos d.

(** [__add__]: the exact sum at the smaller exponent, then [fix_ctx].  An exact
    zero sum is negative only when both operands are. *)
Definition add (a b : Decimal) : Decimal :=
  let e := Z.min (d_exp a) (d_exp b) in
  let z := aligned a e + aligned b e in
  if z =? 0 then fix_ctx (mkDecimal (d_sign a && d_sign b) 0 e)
  else fix_ctx (mkDecimal (z <? 0) (Z.to_N (Z.abs z)) e).

(** [__sub__] is [self + other.copy_negate()]. *)
Definition sub (a b : Decimal) : Decimal := add a (copy_negate b).

Definition mul (a b : Decimal) : Decimal :=
  fix_ctx (mkDecimal (xorb (d_sign a) (d_sign b)) (d_int a * d_int b)%N (d_exp a + d_exp b)).

(** [__truediv__].  The quotient is computed to [prec + 1] digits with a
    sticky last digit when it is inexact, and brought as close to the ideal
    exponent as its trailing zeros allow when it is exact. *)
Fixpoint strip_zeros (fuel : nat) (c : N) (e : Z) : N * Z :=
  match fuel with
  | O => (c, e)
  | S f => if (c mod 10 =? 0)%N then strip_zeros f (c / 10)%N (e + 1) else (c, e)
  end.

Definition div (a b : Decimal) : result Decimal :=
  let s := xorb (d_sign a) (d_sign b) in
  if is_zero b then
    (if is_zero a then Raise InvalidOperation else Raise DivisionByZero)
  else if is_zero a then Ok (fix_ctx (mkDecimal s 0 (d_exp a - d_exp b)))
  else
    let shift := ndigits (d_int b) - ndigits (d_int a) + prec + 1 in
    let e := d_exp a - d_exp b - shift in
    let num := if 0 <=? shift then (d_int a * 10 ^ Z.to_N shift)%N else d_int a in
    let den := if 0 <=? shift then d_int b else (d_int b * 10 ^ Z.to_N (- shift))%N in
    let q := (num / den)%N in
    let r := (num mod den)%N in
    if (r =? 0)%N then
      let '(q', e') := strip_zeros (Z.to_nat (d_exp a - d_exp b - e)) q e in
      Ok (fix_ctx (mkDecimal s q' e'))
    else
      let q' := if (q mod 5 =? 0)%N then (q + 1)%N else q in
      Ok (fix_ctx (mkDecimal s q' e)).

(** Comparison is by value. *)
Definition cmp (a b : Decimal) : comparison :=
  let e := Z.min (d_exp a) (d_exp b) in
  aligned a e ?= aligned b e.

Definition ltb (a b : Decimal) : bool := match cmp a b with Lt => true | _ => false end.
Definition leb (a b : Decimal) : bool := match cmp a b with Gt => false | _ => true end.
Definition gtb (a b : Decimal) : bool := ltb b a.
Definition eqb (a b : Decimal) : bool := match cmp a b with Eq => true | _ => false end.

(** Python integers met by a [Decimal] operator are converted exactly. *)
Definition of_Z (z : Z) : Decimal := mkDecimal (z <? 0) (Z.to_N (Z.abs z)) 0.

(** The builtin [min(a, b)]: [b] if [b < a], else [a]. *)
Definition min (a b : Decimal) : Decimal := if ltb b a then b else a.

(** [Decimal._rescale(exp, rounding)]. *)
Definition rescale (r : rounding) (d : Decimal) (e : Z) : Decimal :=
  if is_zero d then mkDecimal (d_sign d) 0 e
  else if e <=? d_exp d
  then mkDecimal (d_sign d) (d_int d * 10 ^ Z.to_N (d_exp d - e))%N e
  else mkDecimal (d_sign d) (round_coeff r (d_int d) (e - d_exp d)) e.

(** [Decimal.quantize(exp, rounding)] for a target exponent [e]:
    [InvalidOperation] when the result would need more than [prec]
    digits. *)
Definition quantize (r : rounding) (d : Decimal) (e : Z) : result Decimal :=
  if is_zero d then Ok (mkDecimal (d_sign d) 0 e)
  else if prec <? (d_exp d + ndigits (d_int d) - 1) - e + 1 then Raise InvalidOperation
  else
    let ans := rescale r d e in
    if prec <? ndigits (d_int ans) then Raise InvalidOperation
    else Ok ans.

(** [Decimal.__str__]: scientific notation only for a positive exponent or
    more than six leading fractional zeros. *)
Definition digits_of_N (n : N) : list ascii :=
  list_ascii_of_string (NilZero.string_of_uint (N.to_uint n)).

Definition to_str (d : Decimal) : string :=
  let digs := digits_of_N (d_int d) in
  let len := Z.of_nat (List.length digs) in
  let sign := if d_sign d then ["-"%char] else [] in
  let leftdigits := d_exp d + len in
  let dotplace := if (d_exp d <=? 0) && (-6 <? leftdigits) then leftdigits else 1 in
  let intpart :=
    if dotplace <=? 0 then ["0"%char]
    else if len <=? dotplace then digs ++ replicate (Z.to_nat (dotplace - len)) "0"%char
    else take (Z.to_nat dotplace) digs in
  let fracpart :=
    if dotplace <=? 0 then "."%char :: replicate (Z.to_nat (- dotplace)) "0"%char ++ digs
    else if len <=? dotplace then []
    else "."%char :: drop (Z.to_nat dotplace) digs in
  let expo :=
    if leftdigits =? dotplace then []
    else
      let x := leftdigits - dotplace in
      "E"%char :: (if x <? 0 then "-"%char else "+"%char)
        :: digits_of_N (Z.to_N (Z.abs x)) in
  string_of_list_ascii (sign ++ intpart ++ fracpart ++ expo).

(** A string of the shape [-?[0-9]+\.[0-9][0-9]]: an optional sign, then
    digits, of which the third from the end is replaced by the point. *)
Definition is_digit (c : ascii) : bool :=
  let n := nat_of_ascii c in (48 <=? n)%nat && (n <=? 57)%nat.

Definition two_decimal_chars (cs : list ascii) : bool :=
  let body :=
    match cs with
    | c :: rest => if Ascii.eqb c "-" then rest else cs
    | [] => cs
    end in
  let n := List.length body in
  (4 <=? n)%nat
  && forallb is_digit (take (n - 3) body)
  && match body !! (n - 3)%nat with Some c => Ascii.eqb c "." | None => false end
  && forallb is_digit (drop (n - 2) body).

Definition two_decimal_string (s : string) : bool :=
  two_decimal_chars (list_ascii_of_string s).

(** Reading such a string back: the number of cents it denotes. *)
Fixpoint digits_value (acc : N) (cs : list ascii) : N :=
  match cs with
  | [] => acc
  | c :: rest => digits_value (10 * acc + (N_of_ascii c - 48))%N rest
  end.

Definition cents_of_string (s : string) : option Z :=
  let cs := list_ascii_of_string s in
  if two_decimal_chars cs then
    let negative := match cs with c :: _ => Ascii.eqb c "-" | [] => false end in
    let body := if negative then tail cs else cs in
    let n := List.length body in
    let v := Z.of_N (digits_value 0 (take (n - 3) body ++ drop (n - 2) body)) in
    Some (if negative then - v else v)
  else None.

(** The value of a numeral of the standard library, most significant
    digit first (an auxiliary of the proof that [cents_of_string] reads
    [to_str] back). *)
Fixpoint uint_value (acc : N) (u : Decimal.uint) : N :=
  match u with
  | Decimal.Nil => acc
  | Decimal.D0 l => uint_value (10 * acc + 0) l
  | Decimal.D1 l => uint_value (10 * acc + 1) l
  | Decimal.D2 l => uint_value (10 * acc + 2) l
  | Decimal.D3 l => uint_value (10 * acc + 3) l
  | Decimal.D4 l => uint_value (10 * acc + 4) l
  | Decimal.D5 l => uint_value (10 * acc + 5) l
  | Decimal.D6 l => uint_value (10 * acc + 6) l
  | Decimal.D7 l => uint_value (10 * acc + 7) l
  | Decimal.D8 l => uint_value (10 * acc + 8) l
  | Decimal.D9 l => uint_value (10 * acc + 9) l
  end%N.

(** The sign of a value, read off its representation. *)
Definition nonneg (d : Decimal) : Prop := d_sign d = false \/ d_int d = 0%N.
Definition nonpos (d : Decimal) : Prop := d_sign d = true \/ d_int d = 0%N.
Definition gt_zero (d : Decimal) : Prop := d_sign d = false /\ d_int d <> 0%N.

(** What a running total of amounts in cents can be: an exact number of
    cents that is not negative, or a value the context has rounded to 28
    digits above the cent ([oversized]), which [quantize] refuses. *)
Definition oversized (d : Decimal) : Prop :=
  -2 < d_exp d /\ 10 ^ (prec - 1) <= Z.of_N (d_int d) /\ d_sign d = false.

Definition cents_total (d : Decimal) : Prop :=
  (d_exp d = -2 /\ 0 <= signed d) \/ oversized d.

End Dec.

(** ** [backend/money.py] *)

Module Money.
Import Dec.

(** [to_decimal]: a [Decimal] is passed through.  (The other branch,
    [Decimal(str(amount))], is met in this development only through the
    normalizer, see [Normalizer._to_decimal].) *)
Definition to_decimal (amount : Decimal) : Decimal := amount.

(** [value.quantize(Decimal("0.01"), rounding=ROUND_HALF_UP)] *)
Definition quantize_cents (value : Decimal) : result Decimal :=
  quantize ROUND_HALF_UP value (-2).

Definition add (a b : Decimal) : result Decimal :=
  quantize_cents (Dec.add (to_decimal a) (to_decimal b)).

End Money.

(** ** Python values

    The services are dynamically typed.  Where a claim is about how a value
    is represented (a string, a [Decimal], a float, ...), and in the raw
    records the normalizer reads, values are kept in this universe. *)

Inductive pyval : Type :=
| VNone
| VBool (b : bool)
| VInt (z : Z)
| VFloat (repr : string)     (* a binary float, named by its [repr], which determines it *)
| VStr (s : string)
| VDec (d : Dec.Decimal).

Definition is_str (v : pyval) : bool :=
  match v with VStr _ => true | _ => false end.

(** A money value as the services report it at their boundary: a string
    with two decimal places, which reads back as a whole number of
    cents. *)
Definition exact_decimal_string (v : pyval) : Prop :=
  exists s, v = VStr s /\ Dec.two_decimal_string s = true /\
            exists c, Dec.cents_of_string s = Some c.

(** A [Decimal] object of two places, as [quantize_cents] returns it. *)
Definition cents_object (v : pyval) : Prop :=
  exists q, v = VDec q /\ Dec.d_exp q = -2.

(** The cents a reported money string denotes. *)
Definition cents_of (v : pyval) : option Z :=
  match v with VStr s => Dec.cents_of_string s | _ => None end.

(** Python's truth value, as [or], [if] and [not] test it. *)
Definition truthy (v : pyval) : bool :=
  match v with
  | VNone => false
  | VBool b => b
  | VInt z => negb (z =? 0)
  | VFloat r => negb (String.eqb r "0.0" || String.eqb r "-0.0")
  | VStr s => negb (String.eqb s "")
  | VDec d => negb (Dec.is_zero d)
  end.

(** ** Sorting

    [list.sort(key=...)] is stable and compares keys with [<] only.  For a
    [<] that is a strict weak order, as the ones below are, a stable
    sort has one possible result, which insertion from the right computes. *)

Section Sort.
Context {A : Type} (lt : A -> A -> bool).

Fixpoint insert_sorted (x : A) (l : list A) : list A :=
  match l with
  | [] => [x]
  | y :: ys => if lt y x then y :: insert_sorted x ys else x :: y :: ys
  end.

Definition stable_sort (l : list A) : list A := foldr insert_sorted [] l.
End Sort.

(** ** [backend/plans_debt.py] *)

Module PlansDebt.
Import Dec Money.

Record Debt : Type := mkDebt {
  name : string;
  balance : Decimal;
  apr : Decimal;
  min_payment : Decimal
}.

Definition with_balance (d : Debt) (b : Decimal) : Debt :=
  mkDebt (name d) b (apr d) (min_payment d).

(** *** The object store

    [Debt] instances and Python lists are mutable objects reached through
    references.  The store maps the references in use to the objects they
    denote; a list holds references to its elements. *)

Abbreviation loc := positive.

Inductive object : Type :=
| ODebt (d : Debt)
| OList (l : list loc).

Abbreviation heap := (gmap loc object).

(** Computations that read and write the store and may raise.  The store
    is kept when an exception is raised: what was written stays written. *)
Definition M (A : Type) : Type := heap -> heap * result A.

#[global] Instance M_ret : MRet M := fun A a h => (h, Ok a).
#[global] Instance M_bind : MBind M := fun A B k m h =>
  match m h with
  | (h', Ok a) => k a h'
  | (h', Raise e) => (h', Raise e)
  end.

Definition lift {A} (r : result A) : M A := fun h => (h, r).

Definition alloc (o : object) : M loc := fun h =>
  let l := fresh (dom h) in (<[l := o]> h, Ok l).

Definition get_debt (l : loc) : M Debt := fun h =>
  match h !! l with
  | Some (ODebt d) => (h, Ok d)
  | _ => (h, Raise AttributeError)
  end.

Definition set_balance (l : loc) (b : Decimal) : M unit := fun h =>
  match h !! l with
  | Some (ODebt d) => (<[l := ODebt (with_balance d b)]> h, Ok tt)
  | _ => (h, Raise AttributeError)
  end.

Definition get_list (l : loc) : M (list loc) := fun h =>
  match h !! l with
  | Some (OList ls) => (h, Ok ls)
  | _ => (h, Raise TypeError)
  end.

Definition set_list (l : loc) (ls : list loc) : M unit := fun h =>
  match h !! l with
  | Some (OList _) => (<[l := OList ls]> h, Ok tt)
  | _ => (h, Raise TypeError)
  end.

(** [for x in xs: body(x)] and [[f(x) for x in xs]] *)
Fixpoint for_each {A} (xs : list A) (body : A -> M unit) : M unit :=
  match xs with
  | [] => mret tt
  | x :: rest => body x ≫= fun _ => for_each rest body
  end.

Fixpoint comprehension {A B} (xs : list A) (f : A -> M B) : M (list B) :=
  match xs with
  | [] => mret []
  | x :: rest => y ← f x; ys ← comprehension rest f; mret (y :: ys)
  end.

(** *** The source, statement by statement *)

Definition zero : Decimal := of_Z 0.

Definition _monthly_rate (apr : Decimal) : result Decimal :=
  div apr (mkDecimal false 12 0).

(** [sort_key]: the tuple [(-d.apr, d.balance)] for "avalanche", and
    [(d.balance, -d.apr)] for any other method. *)
Definition sort_key (method : string) (d : Debt) : Decimal * Decimal :=
  if String.eqb method "avalanche" then (neg (apr d), balance d)
  else (balance d, neg (apr d)).

(** [<] on the key tuples: the first components decide unless they are
    equal. *)
Definition key_lt (k1 k2 : Decimal * Decimal) : bool :=
  if negb (eqb (fst k1) (fst k2)) then ltb (fst k1) (fst k2)
  else ltb (snd k1) (snd k2).

(** [debts.sort(key=sort_key)]: the keys are computed first, then the list
    object is rearranged in place. *)
Definition sort_debts (debts : loc) (method : string) : M unit :=
  ls ← get_list debts;
  keyed ← comprehension ls (fun l => d ← get_debt l; mret (sort_key method d, l));
  set_list debts (snd <$> stable_sort (fun x y => key_lt (fst x) (fst y)) keyed).

(** The three passes of one month over the list [ls] of references. *)
Definition apply_interest (ls : list loc) : M unit :=
  for_each ls (fun l =>
    d ← get_debt l;
    if leb (balance d) zero then mret tt
    else
      rate ← lift (_monthly_rate (apr d));
      interest ← lift (quantize_cents (mul (balance d) rate));
      b ← lift (quantize_cents (Dec.add (balance d) interest));
      set_balance l b).

Definition pay_minimums (ls : list loc) : M unit :=
  for_each ls (fun l =>
    d ← get_debt l;
    if leb (balance d) zero then mret tt
    else
      let payment := Dec.min (min_payment d) (balance d) in
      b ← lift (quantize_cents (sub (balance d) payment));
      set_balance l b).

(** The extra-payment pass carries [remaining_extra] and leaves the loop
    at the first element met with nothing left ([break]). *)
Fixpoint apply_extra (ls : list loc) (remaining_extra : Decimal) : M unit :=
  match ls with
  | [] => mret tt
  | l :: rest =>
      if leb remaining_extra zero then mret tt
      else
        d ← get_debt l;
        if leb (balance d) zero then apply_extra rest remaining_extra
        else
          let pay := Dec.min remaining_extra (balance d) in
          b ← lift (quantize_cents (sub (balance d) pay));
          _ ← set_balance l b;
          remaining_extra' ← lift (quantize_cents (sub remaining_extra pay));
          apply_extra rest remaining_extra'
  end.

(** One entry of the schedule. *)
Record Snapshot : Type := mkSnapshot {
  snap_month : Z;
  snap_debts : list (string * pyval)     (* name, balance *)
}.

Definition snapshot (month : Z) (ls : list loc) : M Snapshot :=
  entries ← comprehension ls (fun l =>
    d ← get_debt l; mret (name d, VStr (to_str (balance d))));
  mret (mkSnapshot month entries).

(** [any(p(x) for x in xs)] and [all(p(x) for x in xs)] stop at the first
    element that decides them. *)
Fixpoint any_of {A} (xs : list A) (p : A -> M bool) : M bool :=
  match xs with
  | [] => mret false
  | x :: rest => p x ≫= fun b : bool => if b then mret true else any_of rest p
  end.

Fixpoint all_of {A} (xs : list A) (p : A -> M bool) : M bool :=
  match xs with
  | [] => mret true
  | x :: rest => p x ≫= fun b : bool => if b then all_of rest p else mret false
  end.

(** [any(d.balance > 0 for d in debts)] *)
Definition any_positive (debts : loc) : M bool :=
  ls ← get_list debts;
  any_of ls (fun l => d ← get_debt l; mret (gtb (balance d) zero)).

(** The body of the [while] loop: one simulated month. *)
Definition month_body (debts : loc) (extra_payment : Decimal) (method : string)
    (month : Z) : M Snapshot :=
  _ ← sort_debts debts method;
  ls ← get_list debts;
  _ ← apply_interest ls;
  _ ← pay_minimums ls;
  _ ← apply_extra ls extra_payment;
  snapshot month ls.

Definition max_months : Z := 600.

(** [while month < max_months and any(...)].  The loop is unrolled [fuel]
    times; [None] reports that the fuel ran out with the condition still
    true.  [payoff_plan] supplies more fuel than the cap allows months. *)
Fixpoint while_loop (fuel : nat) (debts : loc) (extra_payment : Decimal)
    (method : string) (month : Z) (schedule : list Snapshot)
    : M (option (Z * list Snapshot)) :=
  if negb (month <? max_months) then mret (Some (month, schedule))
  else
    go ← any_positive debts;
    if negb go then mret (Some (month, schedule))
    else
      match fuel with
      | O => mret None
      | S fuel' =>
          let month := month + 1 in
          snap ← month_body debts extra_payment method month;
          while_loop fuel' debts extra_payment method month (schedule ++ [snap])
      end.

Record PayoffResult : Type := mkPayoffResult {
  r_method : string;
  r_months : Z;
  r_schedule : list Snapshot;
  r_done : bool
}.

(** The defensive copy: a new [Debt] object per input debt, in a new list. *)
Definition copy_debt (l : loc) : M loc :=
  d ← get_debt l;
  b ← lift (quantize_cents (to_decimal (balance d)));
  let a := to_decimal (apr d) in
  m ← lift (quantize_cents (to_decimal (min_payment d)));
  alloc (ODebt (mkDebt (name d) b a m)).

(** [all(d.balance <= 0 for d in debts)] *)
Definition all_paid (debts : loc) : M bool :=
  ls ← get_list debts;
  all_of ls (fun l => d ← get_debt l; mret (leb (balance d) zero)).

Definition payoff_plan_fuel (fuel : nat) (debts : loc) (extra_payment : Decimal)
    (method : string) : M (option PayoffResult) :=
  ls ← get_list debts;
  copies ← comprehension ls copy_debt;
  debts ← alloc (OList copies);
  extra_payment ← lift (quantize_cents (to_decimal extra_payment));
  out ← while_loop fuel debts extra_payment method 0 [];
  match out with
  | None => mret None
  | Some (month, schedule) =>
      done ← all_paid debts;
      mret (Some (mkPayoffResult method month schedule done))
  end.

(** [max_months] iterations is all the loop condition allows, so this much
    fuel is never used up ([payoff_plan_returns]). *)
Definition payoff_plan (debts : loc) (extra_payment : Decimal) (method : string)
    : M (option PayoffResult) :=
  payoff_plan_fuel (Z.to_nat max_months) debts extra_payment method.

End PlansDebt.

(** ** [datetime.datetime], naive

    A point of the proleptic Gregorian calendar at microsecond resolution.
    Python only ever holds valid ones ([valid_datetime]). *)

Module Datetime.

Record datetime : Type := mkDatetime {
  year : Z; month : Z; day : Z;
  hour : Z; minute : Z; second : Z; microsecond : Z
}.

Definition is_leap (y : Z) : bool :=
  (y mod 4 =? 0) && (negb (y mod 100 =? 0) || (y mod 400 =? 0)).

Definition days_in_month (y m : Z) : Z :=
  if m =? 2 then (if is_leap y then 29 else 28)
  else if (m =? 4) || (m =? 6) || (m =? 9) || (m =? 11) then 30
  else 31.

Definition valid_date (y m d : Z) : bool :=
  (1 <=? y) && (y <=? 9999) && (1 <=? m) && (m <=? 12)
  && (1 <=? d) && (d <=? days_in_month y m).

Definition valid_datetime (t : datetime) : bool :=
  valid_date (year t) (month t) (day t)
  && (0 <=? hour t) && (hour t <? 24) && (0 <=? minute t) && (minute t <? 60)
  && (0 <=? second t) && (second t <? 60)
  && (0 <=? microsecond t) && (microsecond t <? 1000000).

(** [date.toordinal]: day 1 is 0001-01-01. *)
Definition days_before_year (y : Z) : Z :=
  let y' := y - 1 in y' * 365 + y' / 4 - y' / 100 + y' / 400.

Fixpoint days_before_month_aux (y : Z) (k : nat) : Z :=
  match k with
  | O => 0
  | S k' => days_before_month_aux y k' + days_in_month y (Z.of_nat k)
  end.

Definition days_before_month (y m : Z) : Z :=
  days_before_month_aux y (Z.to_nat (m - 1)).

Definition toordinal (t : datetime) : Z :=
  days_before_year (year t) + days_before_month (year t) (month t) + day t.

(** Microseconds since the start of day 0. *)
Definition to_micro (t : datetime) : Z :=
  ((toordinal t * 24 + hour t) * 60 + minute t) * 60 * 1000000
  + second t * 1000000 + microsecond t.

(** [a < b] on datetimes, and [(a - b).days]: a [timedelta] is normalized
    with [0 <= seconds < 86400], so its days are the floor. *)
Definition ltb (a b : datetime) : bool := to_micro a <? to_micro b.

Definition days_between (a b : datetime) : Z :=
  (to_micro a - to_micro b) / 86400000000.

End Datetime.

(** ** Dictionaries in insertion order

    A Python [dict] keeps its keys in the order they were first inserted.
    [dict_update default f k d] is [d[k] = f(d[k])] on a
    [defaultdict(default)]: a key not yet there is appended with
    [f default]. *)

Section OrderedDict.
Context {V : Type}.

Fixpoint dict_update (default : V) (f : V -> V) (k : string)
    (d : list (string * V)) : list (string * V) :=
  match d with
  | [] => [(k, f default)]
  | (k', v) :: rest =>
      if String.eqb k' k then (k', f v) :: rest
      else (k', v) :: dict_update default f k rest
  end.
End OrderedDict.

(** Grouping a sequence by key with such a dictionary: [dstep] is the loop
    body [d[key x] = op(d[key x], x)], and [pick k] the items of key [k]. *)
Section Grouping.
Context {A V : Type} (key : A -> string) (op : V -> A -> V) (default : V).

Definition dstep (d : list (string * V)) (x : A) : list (string * V) :=
  dict_update default (fun v => op v x) (key x) d.

Definition pick (k : string) (items : list A) : list A :=
  List.filter (fun x => String.eqb (key x) k) items.
End Grouping.

(** The keys of a sequence in the order they are first seen. *)
Fixpoint first_seen (ks : list string) : list string :=
  match ks with
  | [] => []
  | k :: rest => k :: filter (fun k' => k' <> k) (first_seen rest)
  end.

(** ** [backend/analytics.py] *)

Module Analytics.
Import Dec Money Datetime.

(** The columns of [models.Transaction] the functions read.  [merchant]
    and [category] are nullable. *)
Record Transaction : Type := mkTransaction {
  date : datetime;
  merchant : option string;
  amount : Decimal;
  category : option string
}.

Definition zero : Decimal := of_Z 0.
Definition zero_cents : Decimal := mkDecimal false 0 (-2).   (* Decimal("0.00") *)

(** [txn.category or "Uncategorized"]: [None] and the empty string are
    both falsy. *)
Definition category_key (t : Transaction) : string :=
  match category t with
  | Some c => if String.eqb c "" then "Uncategorized" else c
  | None => "Uncategorized"
  end.

(** *** [summarize_transactions] *)

Record totals : Type := mkTotals {
  acc_income : Decimal;
  acc_expense : Decimal;
  acc_categories : list (string * Decimal)
}.

(** The body of the [for] loop. *)
Definition summarize_step (acc : totals) (txn : Transaction) : totals :=
  let amount := amount txn in
  let income := if gtb amount zero then Dec.add (acc_income acc) amount
                else acc_income acc in
  let expense := if gtb amount zero then acc_expense acc
                 else Dec.add (acc_expense acc) (Dec.abs amount) in
  let cat := category_key txn in
  mkTotals income expense
    (dict_update zero_cents (fun v => Dec.add v (Dec.abs amount)) cat (acc_categories acc)).

Record Summary : Type := mkSummary {
  total_income : pyval;
  total_expense : pyval;
  net_cash_flow : pyval;
  category_totals : list (string * pyval)
}.

Definition summarize_transactions (transactions : list Transaction) : result Summary :=
  let acc := foldl summarize_step (mkTotals zero_cents zero_cents []) transactions in
  income ← quantize_cents (acc_income acc);
  expense ← quantize_cents (acc_expense acc);
  net ← quantize_cents (sub (acc_income acc) (acc_expense acc));
  cats ← rmapM (fun kv : string * Decimal =>
                  v ← quantize_cents kv.2; Ok (kv.1, VStr (to_str v)))
               (acc_categories acc);
  Ok (mkSummary (VStr (to_str income)) (VStr (to_str expense)) (VStr (to_str net)) cats).

(** *** [detect_recurring] *)

(** [if txn.merchant: groups[txn.merchant].append(txn)] *)
Definition group_step (groups : list (string * list Transaction)) (txn : Transaction)
    : list (string * list Transaction) :=
  match merchant txn with
  | Some m => if String.eqb m "" then groups
              else dict_update [] (fun ts => ts ++ [txn]) m groups
  | None => groups
  end.

(** [[(txns[i].date - txns[i-1].date).days for i in range(1, len(txns))]] *)
Fixpoint intervals_of (txns : list Transaction) : list Z :=
  match txns with
  | a :: (b :: _) as rest => days_between (date b) (date a) :: intervals_of rest
  | _ => []
  end.

(** [sum(abs(t.amount) for t in txns)]: [sum] starts from the integer 0,
    which the first addition converts to [Decimal(0)]. *)
Definition sum_abs (txns : list Transaction) : Decimal :=
  foldl (fun acc t => Dec.add acc (Dec.abs (amount t))) zero txns.

(** The body of the loop over [groups.items()]: what, if anything, the
    group appends to [recurring]. *)
Definition recurring_entry (m : string) (txns : list Transaction)
    : result (option (string * pyval)) :=
  if (List.length txns <? 2)%nat then Ok None
  else
    let txns := stable_sort (fun a b => Datetime.ltb (date a) (date b)) txns in
    let intervals := intervals_of txns in
    match intervals with
    | [] => Ok None
    | _ =>
        let intervals := stable_sort Z.ltb intervals in
        match intervals !! (List.length intervals / 2)%nat with
        | None => Raise IndexError
        | Some median =>
            if (27 <=? median) && (median <=? 33) then
              avg_amount ← div (sum_abs txns) (of_Z (Z.of_nat (List.length txns)));
              q ← quantize_cents avg_amount;
              Ok (Some (m, VDec q))
            else Ok None
        end
    end.

(** [for merchant, txns in groups.items(): ... recurring.append(...)] *)
Fixpoint recurring_loop (groups : list (string * list Transaction))
    (recurring : list (string * pyval)) : result (list (string * pyval)) :=
  match groups with
  | [] => Ok recurring
  | (m, txns) :: rest =>
      entry ← recurring_entry m txns;
      recurring_loop rest
        (match entry with Some e => recurring ++ [e] | None => recurring end)
  end.

Definition detect_recurring (transactions : list Transaction)
    : result (list (string * pyval)) :=
  recurring_loop (foldl group_step [] transactions) [].

End Analytics.

(** ** [datetime.strptime] for [%Y], [%m], [%d] and literal characters

    [strptime] turns the format into a regular expression, matches it at
    the start of the string with the usual backtracking, and refuses a
    match that leaves characters over; the numbers found must then form a
    date of the calendar.  The expressions are

      [%Y]  [\d\d\d\d]
      [%m]  [1[0-2]|0[1-9]|[1-9]]
      [%d]  [3[0-1]|[1-2]\d|0[1-9]|[1-9]| [1-9]]

    Characters are ASCII here: the digits of other scripts, which [\d]
    also matches, are outside the model. *)

Module Strptime.
Import Datetime.

Inductive directive : Type :=
| DirY | DirM | DirD
| Lit (c : ascii).

Definition charclass : Type := ascii -> bool.

Definition in_range (lo hi : ascii) : charclass := fun c =>
  (nat_of_ascii lo <=? nat_of_ascii c)%nat && (nat_of_ascii c <=? nat_of_ascii hi)%nat.

Definition digit : charclass := in_range "0" "9".
Definition exactly (x : ascii) : charclass := fun c => Ascii.eqb c x.

(** The alternatives of a directive, in the order the expression lists
    them; an alternative is a sequence of character classes. *)
Definition alternatives (d : directive) : list (list charclass) :=
  match d with
  | DirY => [[digit; digit; digit; digit]]
  | DirM => [[exactly "1"; in_range "0" "2"];
             [exactly "0"; in_range "1" "9"];
             [in_range "1" "9"]]
  | DirD => [[exactly "3"; in_range "0" "1"];
             [in_range "1" "2"; digit];
             [exactly "0"; in_range "1" "9"];
             [in_range "1" "9"];
             [exactly " "; in_range "1" "9"]]
  | Lit c => [[exactly c]]
  end.

Fixpoint match_classes (alt : list charclass) (s : list ascii)
    : option (list ascii * list ascii) :=
  match alt with
  | [] => Some ([], s)
  | cls :: alt' =>
      match s with
      | c :: s' =>
          if cls c then
            match match_classes alt' s' with
            | Some (m, rest) => Some (c :: m, rest)
            | None => None
            end
          else None
      | [] => None
      end
  end.

(** The first match in backtracking order: the text each directive
    captured, and what is left of the string. *)
Fixpoint regex_match (fmt : list directive) (s : list ascii)
    : option (list (directive * list ascii) * list ascii) :=
  match fmt with
  | [] => Some ([], s)
  | d :: fmt' =>
      (fix try_alternatives (alts : list (list charclass)) :=
         match alts with
         | [] => None
         | alt :: more =>
             match match_classes alt s with
             | Some (m, rest) =>
                 match regex_match fmt' rest with
                 | Some (caps, r) => Some ((d, m) :: caps, r)
                 | None => try_alternatives more
                 end
             | None => try_alternatives more
             end
         end) (alternatives d)
  end.

(** [int(found_dict[...])]: [int] skips the blank a day may start with. *)
Definition int_of_capture (cs : list ascii) : Z :=
  Z.of_N (Dec.digits_value 0 (List.filter (fun c => negb (Ascii.eqb c " ")) cs)).

Definition same_directive (a b : directive) : bool :=
  match a, b with
  | DirY, DirY | DirM, DirM | DirD, DirD => true
  | _, _ => false
  end.

Fixpoint capture_of (d : directive) (caps : list (directive * list ascii))
    : option (list ascii) :=
  match caps with
  | [] => None
  | (d', m) :: rest => if same_directive d d' then Some m else capture_of d rest
  end.

(** A field the format does not name takes [strptime]'s default: 1900 for
    the year, 1 for the month and the day. *)
Definition field (d : directive) (dflt : Z) (caps : list (directive * list ascii)) : Z :=
  match capture_of d caps with
  | Some m => int_of_capture m
  | None => dflt
  end.

Definition strptime (date_string : string) (fmt : list directive) : result datetime :=
  match regex_match fmt (list_ascii_of_string date_string) with
  | None => Raise (ValueError "time data does not match format")
  | Some (caps, rest) =>
      match rest with
      | _ :: _ => Raise (ValueError "unconverted data remains")
      | [] =>
          let y := field DirY 1900 caps in
          let m := field DirM 1 caps in
          let d := field DirD 1 caps in
          if valid_date y m d then Ok (mkDatetime y m d 0 0 0 0)
          else Raise (ValueError "date out of range")
      end
  end.

(** The three formats of the normalizer. *)
Definition fmt_iso : list directive := [DirY; Lit "-"; DirM; Lit "-"; DirD].   (* "%Y-%m-%d" *)
Definition fmt_us : list directive := [DirM; Lit "/"; DirD; Lit "/"; DirY].    (* "%m/%d/%Y" *)
Definition fmt_intl : list directive := [DirD; Lit "/"; DirM; Lit "/"; DirY].  (* "%d/%m/%Y" *)

End Strptime.

(** ** [backend/normalizer.py] *)

Module Normalizer.
Import Dec Datetime Strptime.

(** *** Strings *)

(** [str.isspace] on ASCII: tab to carriage return, the four separators
    and the blank. *)
Definition is_space (c : ascii) : bool :=
  let n := nat_of_ascii c in
  ((9 <=? n)%nat && (n <=? 13)%nat) || ((28 <=? n)%nat && (n <=? 32)%nat).

Fixpoint lstrip (cs : list ascii) : list ascii :=
  match cs with
  | c :: rest => if is_space c then lstrip rest else cs
  | [] => []
  end.

Definition strip (s : string) : string :=
  string_of_list_ascii (rev (lstrip (rev (lstrip (list_ascii_of_string s))))).

Fixpoint until_space (cs : list ascii) : list ascii :=
  match cs with
  | c :: rest => if is_space c then [] else c :: until_space rest
  | [] => []
  end.

(** [s.split()[0]] for a string that has a word. *)
Definition first_word (s : string) : string :=
  string_of_list_ascii (until_space (lstrip (list_ascii_of_string s))).

(** [str.upper] on ASCII. *)
Definition upper_char (c : ascii) : ascii :=
  let n := nat_of_ascii c in
  if (97 <=? n)%nat && (n <=? 122)%nat then ascii_of_nat (n - 32) else c.

Definition upper (s : string) : string :=
  string_of_list_ascii (upper_char <$> list_ascii_of_string s).

Definition str_of_Z (z : Z) : string :=
  string_of_list_ascii ((if z <? 0 then ["-"%char] else []) ++ digits_of_N (Z.to_N (Z.abs z))).

(** [str(value)] *)
Definition py_str (v : pyval) : string :=
  match v with
  | VNone => "None"
  | VBool true => "True"
  | VBool false => "False"
  | VInt z => str_of_Z z
  | VFloat r => r
  | VStr s => s
  | VDec d => to_str d
  end.

(** *** Raw records *)

Abbreviation raw_record := (gmap string pyval).

(** [raw.get(key)] and [raw.get(key, default)] *)
Definition get (raw : raw_record) (key : string) : pyval :=
  default VNone (raw !! key).

Definition get_or (raw : raw_record) (key : string) (dflt : pyval) : pyval :=
  default dflt (raw !! key).

(** [a or b] *)
Definition py_or (a b : pyval) : pyval := if truthy a then a else b.

(** *** The source *)

(** [_parse_date]: the formats are tried in turn; a [ValueError] moves on
    to the next, any other exception leaves the function.  [strptime]
    raises [TypeError] for an argument that is not a string. *)
Definition formats : list (list directive) := [fmt_iso; fmt_us; fmt_intl].

Fixpoint try_formats (fmts : list (list directive)) (date_str : string) : result datetime :=
  match fmts with
  | [] => Raise (ValueError ("Unable to parse date: " +:+ date_str))
  | fmt :: rest =>
      match strptime date_str fmt with
      | Ok t => Ok t
      | Raise (ValueError _) => try_formats rest date_str
      | Raise e => Raise e
      end
  end.

Definition _parse_date (date_str : pyval) : result datetime :=
  match date_str with
  | VStr s => try_formats formats s
  | _ => Raise TypeError
  end.

Record Normalized : Type := mkNormalized {
  n_date : option datetime;
  n_merchant : pyval;
  n_amount : Decimal;
  n_currency : string;
  n_category : pyval;
  n_description : pyval;
  n_account : pyval
}.

Section Normalize.
(** The constructor [Decimal(str)] on arbitrary text is the decimal
    module's; the normalizer is modelled for any such reader. *)
Variable Decimal_of_str : string -> result Decimal.

Definition _to_decimal (amount : pyval) : result Decimal :=
  Decimal_of_str (py_str amount).

(** The date-bearing field: [raw.get("date") or raw.get("timestamp") or
    raw.get("datetime")]. *)
Definition date_field (raw : raw_record) : pyval :=
  py_or (py_or (get raw "date") (get raw "timestamp")) (get raw "datetime").

(** [_parse_date(date_raw) if date_raw else None] *)
Definition parse_date_field (raw : raw_record) : result (option datetime) :=
  let date_raw := date_field raw in
  if truthy date_raw then t ← _parse_date date_raw; Ok (Some t)
  else Ok None.

(** The merchant: [raw.get("merchant") or raw.get("payee")], else the
    first word of the description, else "Unknown". *)
Definition merchant_of (raw : raw_record) : result pyval :=
  let merchant := py_or (get raw "merchant") (get raw "payee") in
  if truthy merchant then Ok merchant
  else
    match get_or raw "description" (VStr "") with
    | VStr d =>
        let desc := strip d in
        if String.eqb desc "" then Ok (VStr "Unknown") else Ok (VStr (first_word desc))
    | _ => Raise AttributeError
    end.

Definition amount_of (raw : raw_record) : result Decimal :=
  match get raw "amount" with
  | VNone => Ok (mkDecimal false 0 0)      (* Decimal("0") *)
  | raw_amount => _to_decimal raw_amount
  end.

Definition currency_of (raw : raw_record) : result string :=
  match get_or raw "currency" (VStr "USD") with
  | VStr c => Ok (upper c)
  | _ => Raise AttributeError
  end.

(** The statements after the date. *)
Definition finish (raw : raw_record) (date_parsed : option datetime) : result Normalized :=
  merchant ← merchant_of raw;
  amount ← amount_of raw;
  currency ← currency_of raw;
  Ok (mkNormalized date_parsed merchant amount currency
        (get raw "category") (get_or raw "description" (VStr "")) (get raw "account")).

Definition normalize_transaction (raw : raw_record) : result Normalized :=
  date_parsed ← parse_date_field raw;
  finish raw date_parsed.

Definition normalize_transactions (raw_transactions : list raw_record)
    : result (list Normalized) :=
  rmapM normalize_transaction raw_transactions.
End Normalize.

(** A reader of plain numerals, [[+-]digits[.digits]], for the examples. *)
Fixpoint plain_numeral (seen_point : bool) (coeff : N) (places : Z) (cs : list ascii)
    : option (N * Z) :=
  match cs with
  | [] => Some (coeff, - places)
  | c :: rest =>
      if is_digit c then
        plain_numeral seen_point (10 * coeff + (N_of_ascii c - 48))%N
          (if seen_point then places + 1 else places) rest
      else if Ascii.eqb c "." && negb seen_point then plain_numeral true coeff places rest
      else None
  end.

Definition decimal_of_plain (s : string) : result Decimal :=
  let cs := list_ascii_of_string s in
  let '(negative, body) :=
    match cs with
    | c :: rest => if Ascii.eqb c "-" then (true, rest)
                   else if Ascii.eqb c "+" then (false, rest) else (false, cs)
    | [] => (false, cs)
    end in
  if existsb is_digit body then
    match plain_numeral false 0 0 body with
    | Some (coeff, e) => Ok (mkDecimal negative coeff e)
    | None => Raise InvalidOperation
    end
  else Raise InvalidOperation.

End Normalizer.

(** ** The payoff simulation as the specification words it

    Section 4.5 of the specification describes one month as five steps
    over the debts as values.  [PayoffSpec] writes those steps down
    without a store: lists of [Debt] records in, lists out.  The
    arithmetic is the decimal module's, in the order the code applies it:
    "APR descending" is the ascending order of the negated APR, negation
    being the context's ([Dec.neg], which rounds to 28 digits), and the
    monthly rate [apr / 12] is rounded to the context before the balance
    is multiplied by it.  [PayoffClaim] below has the two steps on the
    numbers as they are. *)

Module PayoffSpec.
Import Dec Money PlansDebt.

(** The debts a list of references denotes in a store. *)
Definition debts_at (h : heap) (ls : list loc) (ds : list Debt) : Prop :=
  Forall2 (fun l d => h !! l = Some (ODebt d)) ls ds.

(** Step 1, the priority order.  [descends a b]: [a] comes strictly before
    [b] when sorting in descending order. *)
Definition descends (a b : Decimal) : bool := ltb (neg a) (neg b).
Definition ties_descending (a b : Decimal) : bool := eqb (neg a) (neg b).

Definition precedes (method : string) (a b : Debt) : bool :=
  if String.eqb method "avalanche"
  then (* APR descending, balance ascending as tie-break *)
    descends (apr a) (apr b)
    || (ties_descending (apr a) (apr b) && ltb (balance a) (balance b))
  else (* balance ascending, APR descending as tie-break *)
    ltb (balance a) (balance b)
    || (eqb (balance a) (balance b) && descends (apr a) (apr b)).

Definition resort (method : string) (ds : list Debt) : list Debt :=
  stable_sort (precedes method) ds.

(** Step 2, interest: a debt with balance > 0 gets
    [quantizeCents(balance * rate)] added to its balance, [rate] being
    [apr / 12] rounded to the context. *)
Definition accrue (d : Debt) : result Debt :=
  if gtb (balance d) zero then
    rate ← div (apr d) (of_Z 12);
    interest ← quantize_cents (mul (balance d) rate);
    Ok (with_balance d (Dec.add (balance d) interest))
  else Ok d.

(** Step 3, minimums: a debt with balance > 0 loses
    [min(min_payment, balance)]. *)
Definition pay_minimum (d : Debt) : Debt :=
  if gtb (balance d) zero
  then with_balance d (sub (balance d) (Dec.min (min_payment d) (balance d)))
  else d.

(** Step 4, the extra payment, walking the debts in priority order: a debt
    is paid when its balance and what remains of the extra are both > 0. *)
Fixpoint pay_extra (ds : list Debt) (remaining : Decimal) : list Debt :=
  match ds with
  | [] => []
  | d :: rest =>
      if gtb (balance d) zero && gtb remaining zero then
        let pay := Dec.min remaining (balance d) in
        with_balance d (sub (balance d) pay) :: pay_extra rest (sub remaining pay)
      else d :: pay_extra rest remaining
  end.

(** Steps 1 to 4 in order. *)
Definition month_step (method : string) (extra : Decimal) (ds : list Debt)
    : result (list Debt) :=
  accrued ← rmapM accrue (resort method ds);
  Ok (pay_extra (pay_minimum <$> accrued) extra).

(** Step 5, the schedule entry. *)
Definition snapshot_of (month : Z) (ds : list Debt) : Snapshot :=
  mkSnapshot month ((fun d => (name d, VStr (to_str (balance d)))) <$> ds).

(** The debts after [n] months. *)
Fixpoint after_months (method : string) (extra : Decimal) (ds : list Debt)
    (n : nat) : result (list Debt) :=
  match n with
  | O => Ok ds
  | S k => ds' ← after_months method extra ds k; month_step method extra ds'
  end.

(** The preconditions: the copy of a debt, with the monetary fields
    quantized. *)
Definition copy_of (d : Debt) : result Debt :=
  b ← quantize_cents (balance d);
  m ← quantize_cents (min_payment d);
  Ok (mkDebt (name d) b (apr d) m).

Definition all_paid_off (ds : list Debt) : bool :=
  forallb (fun d => leb (balance d) zero) ds.

(** The invariant of the loop.  A debt is [quantized] when its balance and
    its minimum payment have two decimal places, as every copy has; the
    local list [debts] is [live] when it holds pairwise distinct references
    to quantized debts. *)
Definition quantized (d : Debt) : Prop :=
  d_exp (balance d) = -2 /\ d_exp (min_payment d) = -2.

Definition live (h : heap) (debts : loc) (ls : list loc) (ds : list Debt) : Prop :=
  h !! debts = Some (OList ls) /\ NoDup ls /\ debts_at h ls ds /\
  Forall quantized ds.

(** A debt whose balance and APR are not negative. *)
Definition nonneg_debt (d : Debt) : Prop := nonneg (balance d) /\ nonneg (apr d).

(** What a call that returns has computed: the copies [ds0], the quantized
    extra payment, the number [n] of months simulated and the debts
    [final] after them. *)
Record run_of (method : string) (ds : list Debt) (extra : Decimal)
    (r : PayoffResult) (ds0 : list Debt) (extra0 : Decimal) (n : nat)
    (final : list Debt) : Prop := {
  run_copy : rmapM copy_of ds = Ok ds0;
  run_quantized : Forall quantized ds0;
  run_extra : quantize_cents extra = Ok extra0;
  run_method : r_method r = method;
  run_months : r_months r = Z.of_nat n;
  run_cap : (n <= 600)%nat;
  run_final : after_months method extra0 ds0 n = Ok final;
  run_done : r_done r = all_paid_off final;
  run_length : List.length (r_schedule r) = n;
  run_month : forall i, (i < n)%nat ->
    exists s s', after_months method extra0 ds0 i = Ok s /\
                 all_paid_off s = false /\
                 month_step method extra0 s = Ok s' /\
                 Forall quantized s' /\
                 r_schedule r !! i = Some (snapshot_of (Z.of_nat i + 1) s');
  run_stop : n = 600%nat \/ all_paid_off final = true
}.

End PayoffSpec.

(** ** The month as the specification's sentences read

    Two steps of section 4.5 can be read off the numbers themselves,
    without the context's rounding in between: the priority order on the
    APRs as they are, and the interest [quantizeCents(balance * apr / 12)]
    of the whole expression.  [PayoffClaim] writes them down that way, to
    be compared with [PayoffSpec]. *)

Module PayoffClaim.
Import Dec Money PlansDebt PayoffSpec.

(** Step 1 on the APRs as they are: APR descending, compared exactly. *)
Definition precedes (method : string) (a b : Debt) : bool :=
  if String.eqb method "avalanche"
  then gtb (apr a) (apr b)
       || (eqb (apr a) (apr b) && ltb (balance a) (balance b))
  else ltb (balance a) (balance b)
       || (eqb (balance a) (balance b) && gtb (apr a) (apr b)).

Definition resort (method : string) (ds : list Debt) : list Debt :=
  stable_sort (precedes method) ds.

(** A list in priority order: no debt strictly precedes one before it. *)
Fixpoint in_order (lt : Debt -> Debt -> bool) (ds : list Debt) : Prop :=
  match ds with
  | [] => True
  | d :: rest => Forall (fun d' => lt d' d = false) rest /\ in_order lt rest
  end.

(** An APR that the context holds as it is: at most 28 digits. *)
Definition within_precision (d : Decimal) : bool := ndigits (d_int d) <=? prec.

(** Step 2 with the interest [quantizeCents(balance * apr / 12)], the
    expression evaluated as it is written: the product first, divided by
    twelve. *)
Definition interest (balance apr : Decimal) : result Decimal :=
  q ← div (mul balance apr) (of_Z 12);
  quantize_cents q.

Definition accrue (d : Debt) : result Debt :=
  if gtb (balance d) zero then
    i ← interest (balance d) (apr d);
    Ok (with_balance d (Dec.add (balance d) i))
  else Ok d.

Definition month_step (method : string) (extra : Decimal) (ds : list Debt)
    : result (list Debt) :=
  accrued ← rmapM accrue (resort method ds);
  Ok (pay_extra (pay_minimum <$> accrued) extra).

(** The same interest in exact arithmetic, in cents: [balance * apr / 12]
    as a fraction [n / d], rounded half up. *)
Definition exact_interest_cents (balance apr : Decimal) : Z :=
  let k := d_exp balance + d_exp apr + 2 in
  let n := Z.abs (signed balance * signed apr) * 10 ^ Z.max k 0 in
  let d := 12 * 10 ^ Z.max (- k) 0 in
  Z.sgn (signed balance * signed apr) * ((2 * n + d) / (2 * d)).

End PayoffClaim.

(** ** The analytics as the specification words them

    Sections 4.3 and 4.4 of the specification describe the results as
    sums over selections of the transactions.  [AnalyticsSpec] writes them
    down that way: no accumulators, no dictionaries. *)

Module AnalyticsSpec.
Import Dec Money Datetime Analytics.

(** A sum of decimals, left to right from [start]. *)
Definition sum_from (start : Decimal) (xs : list Decimal) : Decimal :=
  foldl Dec.add start xs.

Definition abs_amount (t : Transaction) : Decimal := Dec.abs (amount t).

(** The sum of all amounts > 0, and of the absolute values of all amounts
    <= 0. *)
Definition income_of (txns : list Transaction) : Decimal :=
  sum_from zero_cents
    (amount <$> List.filter (fun t => gtb (amount t) zero) txns).

Definition expense_of (txns : list Transaction) : Decimal :=
  sum_from zero_cents
    (abs_amount <$> List.filter (fun t => leb (amount t) zero) txns).

(** The sum of the absolute amounts of a category. *)
Definition category_total_of (k : string) (txns : list Transaction) : Decimal :=
  sum_from zero_cents
    (abs_amount <$> List.filter (fun t => String.eqb (category_key t) k) txns).

Definition money_string (d : Decimal) : result pyval :=
  q ← quantize_cents d; Ok (VStr (to_str q)).

Definition summary_of (txns : list Transaction) : result Summary :=
  income ← money_string (income_of txns);
  expense ← money_string (expense_of txns);
  net ← money_string (sub (income_of txns) (expense_of txns));
  cats ← rmapM (fun k => v ← money_string (category_total_of k txns); Ok (k, v))
               (first_seen (category_key <$> txns));
  Ok (mkSummary income expense net cats).

(** *** Recurring charges *)

(** The merchant of a transaction that has one: a non-empty string. *)
Definition merchant_key (t : Transaction) : option string :=
  match merchant t with
  | Some m => if String.eqb m "" then None else Some m
  | None => None
  end.

Definition has_merchant (m : string) (t : Transaction) : bool :=
  match merchant_key t with
  | Some m' => String.eqb m' m
  | None => false
  end.

Definition group_key (t : Transaction) : string := default "" (merchant_key t).

Definition grouped (t : Transaction) : bool :=
  match merchant_key t with Some _ => true | None => false end.

(** Steps 1 to 3: the group of a merchant, in date order. *)
Definition group_of (m : string) (txns : list Transaction) : list Transaction :=
  List.filter (has_merchant m) txns.

Definition by_date (g : list Transaction) : list Transaction :=
  stable_sort (fun a b => Datetime.ltb (date a) (date b)) g.

(** Step 4: the day-deltas between consecutive transactions. *)
Definition deltas (g : list Transaction) : list Z :=
  zip_with (fun a b => days_between (date b) (date a)) g (tail g).

(** Step 5: the element at index [floor(n/2)] of the sorted deltas. *)
Definition median_delta (g : list Transaction) : option Z :=
  let ds := stable_sort Z.ltb (deltas (by_date g)) in
  ds !! (List.length ds / 2)%nat.

(** Steps 2 and 6: at least two transactions, the median within
    [27, 33]. *)
Definition monthly (g : list Transaction) : bool :=
  (2 <=? List.length g)%nat
  && match median_delta g with
     | Some median => (27 <=? median) && (median <=? 33)
     | None => false
     end.

(** The mean of the absolute amounts of a group (summed in date order:
    the arithmetic rounds). *)
Definition mean_abs (g : list Transaction) : result Decimal :=
  div (sum_from zero (abs_amount <$> by_date g)) (of_Z (Z.of_nat (List.length g))).

Definition recurring_of (txns : list Transaction) : result (list (string * pyval)) :=
  rmapM (fun m =>
           avg ← mean_abs (group_of m txns);
           q ← quantize_cents avg;
           Ok (m, VDec q))
        (List.filter (fun m => monthly (group_of m txns))
                     (first_seen (omap merchant_key txns))).

End AnalyticsSpec.

(** ** Amounts that are whole numbers of cents *)

Module WholeCents.
Import Dec Money.

(** An amount that is a whole number of cents, whatever its exponent:
    [12], [-4.5], [0], [15.99] and [1.500] are, [10.004] is not. *)
Definition whole_cents (d : Decimal) : bool :=
  (-2 <=? d_exp d) || (d_int d mod 10 ^ Z.to_N (-2 - d_exp d) =? 0)%N.

(** The number of cents such an amount is worth. *)
Definition cents_value (d : Decimal) : Z :=
  if -2 <=? d_exp d then signed d * 10 ^ (d_exp d + 2)
  else signed d / 10 ^ (-2 - d_exp d).

(** [d] is worth exactly [z] cents, and at least [z] cents: its
    coefficient at any exponent [e <= -2] it can be written with. *)
Definition exactly (z : Z) (d : Decimal) : Prop :=
  forall e, e <= d_exp d -> e <= -2 -> aligned d e = z * 10 ^ (-2 - e).

Definition at_least (z : Z) (d : Decimal) : Prop :=
  forall e, e <= d_exp d -> e <= -2 -> z * 10 ^ (-2 - e) <= aligned d e.

(** A running total of amounts that are not negative: exact while it is
    below [10^28] cents, and never below that once it is not. *)
Definition running (d : Decimal) : Prop :=
  (exists z, 0 <= z < 10 ^ 28 /\ exactly z d) \/ at_least (10 ^ 28) d.

End WholeCents.

(** ** What the normalizer is to do with dates *)

Module NormalizerSpec.
Import Datetime Strptime Normalizer.

(** A string matches a format when [strptime] returns for it. *)
Definition parses_as (fmt : list directive) (s : string) : option datetime :=
  match strptime s fmt with
  | Ok t => Some t
  | Raise _ => None
  end.

(** ISO first, then month/day/year, then day/month/year. *)
Definition first_match (s : string) : option datetime :=
  match parses_as fmt_iso s with
  | Some t => Some t
  | None =>
      match parses_as fmt_us s with
      | Some t => Some t
      | None => parses_as fmt_intl s
      end
  end.

(** The error of a date nobody could read; it carries the raw value. *)
Definition date_parse_error (s : string) : exn :=
  ValueError ("Unable to parse date: " +:+ s).

Definition parsed_date (s : string) : result datetime :=
  match first_match s with
  | Some t => Ok t
  | None => Raise (date_parse_error s)
  end.

Definition date_fields : list string := ["date"; "timestamp"; "datetime"].

(** A field that is missing, or holds a value that counts as false
    ([None], the empty string, zero). *)
Definition blank (raw : raw_record) (key : string) : bool :=
  match raw !! key with
  | None => true
  | Some v => negb (truthy v)
  end.

Definition no_date (raw : raw_record) : bool := forallb (blank raw) date_fields.

End NormalizerSpec.

(** ** Further notions for the properties of the code

    What the further theorems about the code are stated with:
    closed forms in whole cents, the shape of a store, and dates written
    out. *)

Module MoneySpec.
Import Dec Money.

(** The coefficient of a value rounded half up to cents: the value itself
    when it has at most two places, and [floor(c / 10^k + 1/2)] when it
    has [k] places more. *)
Definition cents_coeff (v : Decimal) : N :=
  if -2 <=? d_exp v then (d_int v * 10 ^ Z.to_N (d_exp v + 2))%N
  else
    let p := (10 ^ Z.to_N (-2 - d_exp v))%N in
    ((2 * d_int v + p) / (2 * p))%N.

End MoneySpec.

Module PayoffShape.
Import Dec Money PlansDebt.

(** The result of a call under another method's name. *)
Definition with_method (method : string) (r : PayoffResult) : PayoffResult :=
  mkPayoffResult method (r_months r) (r_schedule r) (r_done r).

Definition relabel (method : string) (out : heap * result (option PayoffResult))
    : heap * result (option PayoffResult) :=
  (out.1, match out.2 with
          | Ok (Some r) => Ok (Some (with_method method r))
          | other => other
          end).

(** The shape of a store: which references denote debts, and which lists
    of which elements. *)
Definition is_debt (h : heap) (l : loc) : Prop := exists d, h !! l = Some (ODebt d).

Definition shape_kept (h h' : heap) : Prop :=
  forall l, (is_debt h l -> is_debt h' l) /\
            (forall ls, h !! l = Some (OList ls) ->
               exists ls', h' !! l = Some (OList ls') /\ ls' ≡ₚ ls).

(** [m] keeps the shape of the store [h], and raises nothing but
    [decimal.InvalidOperation]. *)
Definition raises_only_invalid {A} (m : M A) (h : heap) : Prop :=
  shape_kept h (m h).1 /\
  match (m h).2 with Raise e => e = InvalidOperation | Ok _ => True end.

(** The list [debts] holds the debts [ls], in some order. *)
Definition holds_debts (h : heap) (debts : loc) (ls : list loc) : Prop :=
  (exists ls', h !! debts = Some (OList ls') /\ ls' ≡ₚ ls) /\ Forall (is_debt h) ls.

End PayoffShape.

Module AnalyticsCents.
Import Dec Money Analytics.

Definition Zsum (l : list Z) : Z := foldr Z.add 0 l.

(** The amount of a transaction in cents (for an amount with two decimal
    places). *)
Definition cents_in (t : Transaction) : Z := signed (amount t).

Definition income_cents (txns : list Transaction) : Z :=
  Zsum ((fun t => Z.max (cents_in t) 0) <$> txns).

Definition expense_cents (txns : list Transaction) : Z :=
  Zsum ((fun t => Z.max (- cents_in t) 0) <$> txns).

Definition category_cents (k : string) (txns : list Transaction) : Z :=
  Zsum ((fun t => if String.eqb (category_key t) k then Z.abs (cents_in t) else 0) <$> txns).

(** A number of cents as a [Decimal], and as the string reported. *)
Definition cents_decimal (z : Z) : Decimal := mkDecimal (z <? 0) (Z.to_N (Z.abs z)) (-2).

Definition cents_string (z : Z) : string := to_str (cents_decimal z).

(** A total the context can hold: fewer than 29 digits. *)
Definition fits (z : Z) : bool := Z.abs z <? 10 ^ 28.

Definition categories_of (txns : list Transaction) : list string :=
  first_seen (category_key <$> txns).

(** [summarize_transactions] on amounts in whole cents, in integer
    arithmetic. *)
Definition summary_in_cents (txns : list Transaction) : result Summary :=
  let income := income_cents txns in
  let expense := expense_cents txns in
  if fits income && fits expense
     && forallb (fun k => fits (category_cents k txns)) (categories_of txns)
  then Ok (mkSummary (VStr (cents_string income)) (VStr (cents_string expense))
             (VStr (cents_string (income - expense)))
             ((fun k => (k, VStr (cents_string (category_cents k txns))))
                <$> categories_of txns))
  else Raise InvalidOperation.

(** A running total [d] of amounts whose exact sum is [z] cents: the sum
    itself while it fits, and a value rounded above the cent after. *)
Definition tracks (z : Z) (d : Decimal) : Prop :=
  (z < 10 ^ 28 /\ d = mkDecimal false (Z.to_N z) (-2)) \/
  (10 ^ 28 <= z /\ oversized d).

(** A term [x] of such a sum, worth [z] cents. *)
Definition term (z : Z) (x : Decimal) : Prop :=
  0 <= z /\ ((d_exp x = -2 /\ signed x = z) \/ (10 ^ 28 <= z /\ oversized x)).

End AnalyticsCents.

Module DateText.
Import Datetime Strptime Normalizer.

(** Every way a format matches a prefix of a string, in the order the
    backtracking tries them; [regex_match] returns the first. *)
Fixpoint all_matches (fmt : list directive) (s : list ascii)
    : list (list (directive * list ascii) * list ascii) :=
  match fmt with
  | [] => [([], s)]
  | d :: fmt' =>
      flat_map (fun alt =>
                  match match_classes alt s with
                  | Some (m, rest) =>
                      (fun cr : list (directive * list ascii) * list ascii =>
                         ((d, m) :: cr.1, cr.2)) <$> all_matches fmt' rest
                  | None => []
                  end)
               (alternatives d)
  end.

(** The first of the matches of a format's front part on which the rest of
    the format matches too. *)
Fixpoint continue_with (fmt : list directive)
    (l : list (list (directive * list ascii) * list ascii))
    : option (list (directive * list ascii) * list ascii) :=
  match l with
  | [] => None
  | (caps, rest) :: l' =>
      match regex_match fmt rest with
      | Some (caps', rest') => Some (caps ++ caps', rest')
      | None => continue_with fmt l'
      end
  end.

(** A capture is in the shape of one of the alternatives of its
    directive. *)
Definition in_class (cls : charclass) (c : ascii) : Prop := cls c = true.

Definition captured (d : directive) (cap : directive * list ascii) : Prop :=
  cap.1 = d /\ exists alt, alt ∈ alternatives d /\ Forall2 in_class alt cap.2.

(** Dates written out with leading zeros. *)
Definition digit_char (k : Z) : ascii := ascii_of_nat (48 + Z.to_nat k).

Definition pad2 (n : Z) : list ascii := [digit_char (n / 10); digit_char (n mod 10)].

Definition pad4 (n : Z) : list ascii :=
  [digit_char (n / 1000); digit_char (n / 100 mod 10);
   digit_char (n / 10 mod 10); digit_char (n mod 10)].

(** [YYYY-MM-DD] *)
Definition iso_string (y m d : Z) : string :=
  string_of_list_ascii (pad4 y ++ "-"%char :: pad2 m ++ "-"%char :: pad2 d).

(** [AA/BB/YYYY] *)
Definition slash_string (a b y : Z) : string :=
  string_of_list_ascii (pad2 a ++ "/"%char :: pad2 b ++ "/"%char :: pad4 y).

Definition midnight (y m d : Z) : datetime := mkDatetime y m d 0 0 0 0.

(** The front of the two slash formats, and what it captures from
    [AA/BB/]. *)
Definition front (first second : directive) : list directive :=
  [first; Lit "/"; second; Lit "/"].

Definition front_captures (first second : directive) (a b : Z)
    : list (directive * list ascii) :=
  [(first, pad2 a); (Lit "/", ["/"%char]); (second, pad2 b); (Lit "/", ["/"%char])].

Definition front_chars (a b : Z) (rest : list ascii) : list ascii :=
  pad2 a ++ "/"%char :: pad2 b ++ "/"%char :: rest.

Definition up_to_12 : list Z := [1; 2; 3; 4; 5; 6; 7; 8; 9; 10; 11; 12].
Definition from_13_to_31 : list Z :=
  [13; 14; 15; 16; 17; 18; 19; 20; 21; 22; 23; 24; 25; 26; 27; 28; 29; 30; 31].
Definition up_to_31 : list Z := up_to_12 ++ from_13_to_31.

(** The rest of the ISO format after the year, and whether it reads
    [-MM-DD] as month [m] and day [d]. *)
Definition iso_rest : list directive := [Lit "-"; DirM; Lit "-"; DirD].

Definition iso_rest_reads (m d : Z) : bool :=
  match regex_match iso_rest ("-"%char :: pad2 m ++ "-"%char :: pad2 d) with
  | Some (caps, []) => (field DirM 1 caps =? m) && (field DirD 1 caps =? d)
  | _ => false
  end.

End DateText.

(** ** Concrete inputs

    Stores and debts that the examples below run on. *)

Module Examples.
Import Dec PlansDebt.

(** [cents n] is the amount of [n] cents, e.g. [cents 12345] for 123.45. *)
Definition cents (n : N) : Decimal := mkDecimal false n (-2).

(** A store holding one debt, at reference 1, and the caller's list of
    it, at reference 2. *)
Definition one_debt_store (d : Debt) : heap :=
  <[2%positive := OList [1%positive]]> (<[1%positive := ODebt d]> ∅).

(** 100.00 at no interest with a minimum payment of 100.00. *)
Definition debt_paid_at_once : Debt :=
  mkDebt "card" (cents 10000) (mkDecimal false 0 0) (cents 10000).

(** 1000.00 at 24% a year with a minimum payment of 10.00: the interest of
    20.00 and more a month is never covered. *)
Definition debt_growing : Debt :=
  mkDebt "card" (cents 100000) (mkDecimal false 24 (-2)) (cents 1000).

(** 100.00 at an APR of 12 (1200%), nothing paid: the monthly rate is 1 and
    the balance doubles every month. *)
Definition debt_doubling : Debt :=
  mkDebt "loan" (cents 10000) (mkDecimal false 12 0) (cents 0).

(** 100.00 at an APR of 1.20 (120%), nothing paid. *)
Definition debt_payday : Debt :=
  mkDebt "payday" (cents 10000) (mkDecimal false 120 (-2)) (cents 0).

(** Transactions.  Three monthly charges of 15.99 by one merchant (the
    intervals are 31 and 30 days), a purchase elsewhere, and a salary
    without a merchant. *)
Definition at_midnight (y m d : Z) : Datetime.datetime :=
  Datetime.mkDatetime y m d 0 0 0 0.

Definition charge (y m d : Z) : Analytics.Transaction :=
  Analytics.mkTransaction (at_midnight y m d) (Some "netflix")
    (mkDecimal true 1599 (-2)) (Some "subscriptions").

Definition purchase : Analytics.Transaction :=
  Analytics.mkTransaction (at_midnight 2024 1 15) (Some "shop")
    (mkDecimal true 2000 (-2)) None.

Definition salary : Analytics.Transaction :=
  Analytics.mkTransaction (at_midnight 2024 1 31) None
    (mkDecimal false 250000 (-2)) (Some "income").

Definition statement : list Analytics.Transaction :=
  [charge 2024 1 1; purchase; salary; charge 2024 2 1; charge 2024 3 2].

(** Amounts with a third decimal place: 10.004 received, 5.005 spent. *)
Definition sub_cent_statement : list Analytics.Transaction :=
  [Analytics.mkTransaction (at_midnight 2024 1 1) None (mkDecimal false 10004 (-3)) None;
   Analytics.mkTransaction (at_midnight 2024 1 2) None (mkDecimal true 5005 (-3)) None].

(** Raw records *)

Definition raw_us : Normalizer.raw_record :=
  <["date" := VStr "03/04/2025"]> (<["description" := VStr "  coffee shop "]>
    (<["amount" := VStr "-4.50"]> (<["currency" := VStr "usd"]> ∅))).

Definition raw_unreadable : Normalizer.raw_record :=
  <["timestamp" := VStr "14.03.2025"]> (<["amount" := VInt 12]> ∅).

Definition raw_blank_date : Normalizer.raw_record :=
  <["date" := VStr ""]> (<["merchant" := VStr "Grocer"]> ∅).

Definition raw_empty : Normalizer.raw_record := ∅.

(** The days and months that both slash formats accept. *)
Definition two_digits (n : nat) : string :=
  string_of_list_ascii
    [ascii_of_nat (48 + n / 10); ascii_of_nat (48 + n mod 10)].

Definition slash_date (a b : nat) : string :=
  two_digits a +:+ "/" +:+ two_digits b +:+ "/2025".

Definition up_to_twelve : list nat := seq 1 12.

End Examples.

(** ** More concrete inputs *)

Module Cases.
Import Dec PlansDebt Examples.

(** 1.005, which rounds half up to 1.01. *)
Definition half_cent : Decimal := mkDecimal false 1005 (-3).

(** A debt already cleared. *)
Definition debt_cleared : Debt :=
  mkDebt "old" (cents 0) (mkDecimal false 2 (-1)) (cents 2500).

(** An "extra payment" of -5.00. *)
Definition minus_five : Decimal := mkDecimal true 500 (-2).

(** The schedule of [debt_paid_at_once]: paid in the first month. *)
Definition paid_at_once (method : string) : PayoffResult :=
  mkPayoffResult method 1 [mkSnapshot 1 [("card", VStr "0.00")]] true.

(** Amounts of 29 digits, which no total can hold. *)
Definition huge : Decimal := mkDecimal true (10 ^ 28) (-2).

Definition huge_charge (y m d : Z) : Analytics.Transaction :=
  Analytics.mkTransaction (at_midnight y m d) (Some "lender") huge None.

Definition huge_statement : list Analytics.Transaction :=
  [huge_charge 2024 1 1; huge_charge 2024 1 31].

(** What [summarize_transactions] reports for [statement]. *)
Definition statement_summary : Analytics.Summary :=
  Analytics.mkSummary (VStr "2500.00") (VStr "67.97") (VStr "2432.03")
    [("subscriptions", VStr "47.97"); ("Uncategorized", VStr "20.00");
     ("income", VStr "2500.00")].

(** A record that normalizes, with a currency in lower case. *)
Definition raw_euro : Normalizer.raw_record :=
  <["date" := VStr "2025-03-14"]> (<["payee" := VStr "Bakery"]>
    (<["currency" := VStr "eur"]> ∅)).

(** 462.00 at an APR of 0.13, with a minimum payment of 467.00. *)
Definition debt_thirteen : Debt :=
  mkDebt "card" (cents 46200) (mkDecimal false 13 (-2)) (cents 46700).

(** 200.00 at an APR of 1.0000000000000000000000000001 (29 digits) and
    100.00 at an APR of 1, nothing paid but the extra payment. *)
Definition debt_long_apr : Debt :=
  mkDebt "A" (cents 20000) (mkDecimal false (10 ^ 28 + 1) (-28)) (cents 0).

Definition debt_short_apr : Debt :=
  mkDebt "B" (cents 10000) (mkDecimal false 1 0) (cents 0).

Definition two_debt_store (a b : Debt) : heap :=
  <[3%positive := OList [1%positive; 2%positive]]>
    (<[2%positive := ODebt b]> (<[1%positive := ODebt a]> ∅)).

(** 300.00 at 12% with a minimum of 50.00, and 200.00 at 24% with a
    minimum of 25.00. *)
Definition debt_visa : Debt :=
  mkDebt "visa" (cents 30000) (mkDecimal false 12 (-2)) (cents 5000).

Definition debt_store_card : Debt :=
  mkDebt "store" (cents 20000) (mkDecimal false 24 (-2)) (cents 2500).

(** Amounts in whole cents written with other exponents: 12, -4.5, 0,
    1.500 and -15.99. *)
Definition entry (d : Z) (a : Decimal) : Analytics.Transaction :=
  Analytics.mkTransaction (at_midnight 2024 1 d) None a None.

Definition mixed_statement : list Analytics.Transaction :=
  [entry 1 (mkDecimal false 12 0); entry 2 (mkDecimal true 45 (-1));
   entry 3 (mkDecimal false 0 0); entry 4 (mkDecimal false 1500 (-3));
   entry 5 (mkDecimal true 1599 (-2))].

End Cases.

(** * Facts about the decimal arithmetic *)

Module DecFacts.
Import Dec.

Lemma ndigits_aux_pos fuel n : 1 <= ndigits_aux fuel n.
Proof.
  revert n; induction fuel as [|f IH]; intros n; simpl; [lia|].
  destruct (n <? 10)%N; [lia|]. specialize (IH (n / 10)%N). lia.
Qed.

Lemma ndigits_pos n : 1 <= ndigits n.
Proof. apply ndigits_aux_pos. Qed.

Lemma ndigits_aux_bounds fuel n :
  (n < 2 ^ N.of_nat fuel)%N -> n <> 0%N ->
  10 ^ (ndigits_aux fuel n - 1) <= Z.of_N n < 10 ^ ndigits_aux fuel n.
Proof.
  revert n; induction fuel as [|f IH]; intros n Hlt Hn.
  - simpl in Hlt. lia.
  - simpl. destruct (N.ltb_spec n 10) as [H10|H10].
    + simpl. lia.
    + assert (Hq : (n / 10 < 2 ^ N.of_nat f)%N).
      { apply N.Div0.div_lt_upper_bound.
        rewrite Nat2N.inj_succ, N.pow_succ_r' in Hlt. lia. }
      assert (Hq0 : (n / 10 <> 0)%N).
      { intros E. apply N.div_small_iff in E; lia. }
      specialize (IH _ Hq Hq0).
      pose proof (ndigits_aux_pos f (n / 10)%N) as Hp.
      replace (1 + ndigits_aux f (n / 10)%N - 1) with (Z.succ (ndigits_aux f (n / 10)%N - 1)) by lia.
      replace (1 + ndigits_aux f (n / 10)%N) with (Z.succ (ndigits_aux f (n / 10)%N)) by lia.
      rewrite !Z.pow_succ_r by lia.
      pose proof (N.div_mod n 10 ltac:(lia)) as Hdm.
      pose proof (N.mod_lt n 10 ltac:(lia)) as Hm.
      rewrite N2Z.inj_div in IH. 
      pose proof (Z.div_mod (Z.of_N n) 10 ltac:(lia)) as Hz.
      pose proof (Z.mod_pos_bound (Z.of_N n) 10 ltac:(lia)) as Hzm.
      lia.
Qed.

Lemma ndigits_bounds n :
  n <> 0%N -> 10 ^ (ndigits n - 1) <= Z.of_N n < 10 ^ ndigits n.
Proof.
  intros Hn. apply ndigits_aux_bounds; [|done].
  rewrite N2Nat.id. apply N.size_gt.
Qed.

Lemma ndigits_0 : ndigits 0 = 1.
Proof. reflexivity. Qed.

(** A coefficient below [10^k] has at most [k] digits, and conversely. *)
Lemma ndigits_le n k : 1 <= k -> (ndigits n <= k <-> Z.of_N n < 10 ^ k).
Proof.
  intros Hk. destruct (N.eq_dec n 0) as [->|Hn].
  - rewrite ndigits_0. split; [intros _|lia]. apply Z.pow_pos_nonneg; lia.
  - pose proof (ndigits_bounds n Hn) as [Hlo Hhi]. pose proof (ndigits_pos n) as Hp.
    split; intros H.
    + eapply Z.lt_le_trans; [exact Hhi|]. apply Z.pow_le_mono_r; lia.
    + destruct (Z.le_gt_cases (ndigits n) k) as [|Hgt]; [done|].
      assert (10 ^ k <= 10 ^ (ndigits n - 1)) by (apply Z.pow_le_mono_r; lia). lia.
Qed.

(** [fix_ctx] leaves a value that fits the precision alone, and never
    changes a sign. *)
Lemma fix_ctx_small d : ndigits (d_int d) <= prec -> fix_ctx d = d.
Proof. intros H. unfold fix_ctx. destruct (Z.leb_spec (ndigits (d_int d)) prec); [done|lia]. Qed.

Lemma fix_ctx_sign d : d_sign (fix_ctx d) = d_sign d.
Proof.
  unfold fix_ctx. destruct (_ <=? _); [done|]. by destruct (_ <? _).
Qed.

Lemma fix_ctx_zero d : d_int d = 0%N -> fix_ctx d = d.
Proof. intros H. apply fix_ctx_small. rewrite H. done. Qed.

(** *** [quantize] *)

Lemma rescale_exp r d e : d_exp (rescale r d e) = e.
Proof. unfold rescale. destruct (is_zero d); [done|]. by destruct (_ <=? _). Qed.

Lemma rescale_sign r d e : d_sign (rescale r d e) = d_sign d.
Proof. unfold rescale. destruct (is_zero d); [done|]. by destruct (_ <=? _). Qed.

Lemma is_zero_true d : is_zero d = true <-> d_int d = 0%N.
Proof. unfold is_zero. apply N.eqb_eq. Qed.

Lemma is_zero_false d : is_zero d = false <-> d_int d <> 0%N.
Proof. unfold is_zero. apply N.eqb_neq. Qed.

Lemma quantize_Ok r d e y :
  quantize r d e = Ok y ->
  d_exp y = e /\ d_sign y = d_sign d /\ ndigits (d_int y) <= prec.
Proof.
  unfold quantize. destruct (is_zero d) eqn:Hz.
  - intros [= <-]. done.
  - destruct (_ <? _); [done|].
    destruct (Z.ltb_spec prec (ndigits (d_int (rescale r d e)))); [done|].
    intros [= <-]. by rewrite rescale_exp, rescale_sign.
Qed.

(** Quantizing to the exponent a value already has returns that value. *)
Lemma quantize_same_exp r d y :
  quantize r d (d_exp d) = Ok y -> y = d.
Proof.
  unfold quantize. destruct (is_zero d) eqn:Hz.
  - apply is_zero_true in Hz. intros [= <-]. destruct d; simpl in *; by subst.
  - destruct (_ <? _); [done|]. destruct (_ <? _); [done|]. intros [= <-].
    unfold rescale. rewrite Hz, Z.leb_refl, Z.sub_diag. simpl.
    rewrite N.mul_1_r. by destruct d.
Qed.

Lemma quantize_zero r d e :
  d_int d = 0%N -> quantize r d e = Ok (mkDecimal (d_sign d) 0 e).
Proof. intros H. unfold quantize. by rewrite (proj2 (is_zero_true d) H). Qed.

(** *** Signs and comparisons with zero *)

Lemma pow10_pos k : 0 <= k -> 0 < 10 ^ k.
Proof. intros. apply Z.pow_pos_nonneg; lia. Qed.

Lemma aligned_sgn d e : e <= d_exp d -> Z.sgn (aligned d e) = Z.sgn (signed d).
Proof.
  intros He. unfold aligned. rewrite Z.sgn_mul.
  rewrite (Z.sgn_pos (10 ^ _)) by (apply pow10_pos; lia). lia.
Qed.

Lemma aligned_of_Z_0 e : aligned (of_Z 0) e = 0.
Proof. unfold aligned. change (signed (of_Z 0)) with 0. lia. Qed.

Lemma cmp_zero_r d : cmp d (of_Z 0) = (signed d ?= 0).
Proof.
  unfold cmp. rewrite aligned_of_Z_0.
  pose proof (aligned_sgn d (Z.min (d_exp d) (d_exp (of_Z 0))) ltac:(lia)) as Hs.
  destruct (Z.compare_spec (signed d) 0) as [E|E|E];
    [apply Z.compare_eq_iff|apply Z.compare_lt_iff|apply Z.compare_gt_iff]; lia.
Qed.

Lemma cmp_zero_l d : cmp (of_Z 0) d = (0 ?= signed d).
Proof.
  unfold cmp. rewrite aligned_of_Z_0.
  pose proof (aligned_sgn d (Z.min (d_exp (of_Z 0)) (d_exp d)) ltac:(lia)) as Hs.
  destruct (Z.compare_spec 0 (signed d)) as [E|E|E];
    [apply Z.compare_eq_iff|apply Z.compare_lt_iff|apply Z.compare_gt_iff]; lia.
Qed.

Lemma signed_nonneg d : 0 <= signed d <-> nonneg d.
Proof.
  unfold signed, nonneg. destruct (d_sign d); split; intros H.
  - right. lia.
  - destruct H; [done|lia].
  - by left.
  - lia.
Qed.

Lemma signed_pos d : 0 < signed d <-> gt_zero d.
Proof.
  unfold signed, gt_zero. destruct (d_sign d); split; intros H.
  - lia.
  - by destruct H.
  - split; [done|lia].
  - lia.
Qed.

Lemma leb_zero_nonneg d : leb (of_Z 0) d = true <-> nonneg d.
Proof.
  unfold leb. rewrite cmp_zero_l, <- signed_nonneg.
  destruct (Z.compare_spec 0 (signed d)); split; intros; try lia; done.
Qed.

Lemma gtb_zero_positive d : gtb d (of_Z 0) = true <-> gt_zero d.
Proof.
  unfold gtb, ltb. rewrite cmp_zero_l, <- signed_pos.
  destruct (Z.compare_spec 0 (signed d)); split; intros; try lia; done.
Qed.

Lemma leb_zero_r d : leb d (of_Z 0) = negb (gtb d (of_Z 0)).
Proof.
  unfold leb, gtb, ltb. rewrite cmp_zero_l, cmp_zero_r.
  rewrite (Z.compare_antisym 0 (signed d)). by destruct (0 ?= signed d).
Qed.

Lemma positive_nonneg d : gt_zero d -> nonneg d.
Proof. intros [H _]. by left. Qed.

Lemma not_positive_nonneg d : nonneg d -> ~ gt_zero d -> d_int d = 0%N.
Proof.
  intros [Hs|Hz] Hn; [|done].
  destruct (N.eq_dec (d_int d) 0); [done|]. exfalso. by apply Hn.
Qed.

(** *** Rounding to the precision *)

Lemma round_coeff_cases r c k :
  round_coeff r c k = (c / 10 ^ Z.to_N k)%N \/
  round_coeff r c k = (c / 10 ^ Z.to_N k + 1)%N.
Proof.
  unfold round_coeff. destruct r.
  - destruct (_ <=? _)%N; auto.
  - destruct (_ ?= _)%N; auto. destruct (N.even _); auto.
Qed.

Lemma div_pow10_bounds c k n :
  0 <= k -> 0 <= n ->
  10 ^ (n + k) <= Z.of_N c < 10 ^ (n + 1 + k) ->
  10 ^ n <= Z.of_N (c / 10 ^ Z.to_N k)%N < 10 ^ (n + 1).
Proof.
  intros Hk Hn [Hlo Hhi].
  rewrite N2Z.inj_div, N2Z.inj_pow, Z2N.id by lia. simpl Z.of_N.
  pose proof (pow10_pos k Hk) as Hp.
  rewrite Z.pow_add_r in Hlo, Hhi by lia.
  split.
  - apply Z.div_le_lower_bound; lia.
  - apply Z.div_lt_upper_bound; lia.
Qed.

(** A coefficient too long for the context is cut to exactly [prec]
    digits and the exponent grows. *)
Lemma fix_ctx_big d :
  prec < ndigits (d_int d) ->
  d_exp d < d_exp (fix_ctx d) /\
  10 ^ (prec - 1) <= Z.of_N (d_int (fix_ctx d)) < 10 ^ prec.
Proof.
  intros Hbig. unfold fix_ctx.
  destruct (Z.leb_spec (ndigits (d_int d)) prec) as [|_]; [lia|].
  set (k := ndigits (d_int d) - prec).
  assert (Hk : 1 <= k) by (unfold k; lia).
  assert (Hc0 : d_int d <> 0%N).
  { intros E. rewrite E, ndigits_0 in Hbig. unfold prec in Hbig. lia. }
  pose proof (ndigits_bounds _ Hc0) as Hb.
  assert (Hq : 10 ^ (prec - 1) <= Z.of_N (d_int d / 10 ^ Z.to_N k)%N < 10 ^ (prec - 1 + 1)).
  { apply div_pow10_bounds; [lia|unfold prec; lia|].
    replace (prec - 1 + k) with (ndigits (d_int d) - 1) by (unfold k; lia).
    replace (prec - 1 + 1 + k) with (ndigits (d_int d)) by (unfold k; lia).
    exact Hb. }
  replace (prec - 1 + 1) with prec in Hq by lia.
  set (c := round_coeff ROUND_HALF_EVEN (d_int d) k).
  assert (Hc : 10 ^ (prec - 1) <= Z.of_N c <= 10 ^ prec).
  { unfold c. destruct (round_coeff_cases ROUND_HALF_EVEN (d_int d) k) as [-> | ->]; lia. }
  destruct (Z.ltb_spec prec (ndigits c)) as [Hnd|Hnd]; simpl.
  - assert (Hge : ~ Z.of_N c < 10 ^ prec).
    { intros Hlt. apply (ndigits_le c prec) in Hlt; [lia|unfold prec; lia]. }
    assert (Hceq : Z.of_N c = 10 ^ prec) by lia.
    split; [lia|].
    rewrite N2Z.inj_div, Hceq. change (Z.of_N 10) with 10.
    unfold prec. split; [apply Z.leb_le|apply Z.ltb_lt]; reflexivity.
  - split; [lia|]. split; [lia|].
    apply (ndigits_le c prec); [unfold prec; lia|lia].
Qed.

Lemma fix_ctx_cases d :
  fix_ctx d = d \/
  (d_exp d < d_exp (fix_ctx d) /\
   10 ^ (prec - 1) <= Z.of_N (d_int (fix_ctx d)) < 10 ^ prec).
Proof.
  destruct (Z.le_gt_cases (ndigits (d_int d)) prec) as [H|H].
  - left. by apply fix_ctx_small.
  - right. apply fix_ctx_big. lia.
Qed.

Lemma fix_ctx_digits d : ndigits (d_int (fix_ctx d)) <= prec.
Proof.
  destruct (Z.le_gt_cases (ndigits (d_int d)) prec) as [H|H].
  - by rewrite fix_ctx_small.
  - apply ndigits_le; [unfold prec; lia|]. apply fix_ctx_big. lia.
Qed.

(** A value that was cut by [fix_ctx] cannot be quantized back to the
    exponent it had before: it needs more than [prec] digits there. *)
Lemma quantize_big_raises r d e :
  e < d_exp d -> 10 ^ (prec - 1) <= Z.of_N (d_int d) ->
  quantize r d e = Raise InvalidOperation.
Proof.
  intros He Hc. unfold quantize.
  assert (Hc0 : d_int d <> 0%N).
  { intros E. rewrite E in Hc. unfold prec in Hc. simpl in Hc. lia. }
  rewrite (proj2 (is_zero_false d) Hc0).
  assert (Hnd : prec <= ndigits (d_int d)).
  { destruct (Z.le_gt_cases prec (ndigits (d_int d))) as [|Hlt]; [done|].
    assert (ndigits (d_int d) <= prec - 1) as Hle by lia.
    apply ndigits_le in Hle; [lia|unfold prec; lia]. }
  destruct (Z.ltb_spec prec (d_exp d + ndigits (d_int d) - 1 - e + 1)); [done|lia].
Qed.

Lemma quantize_fix_ctx_exact r d y :
  quantize r (fix_ctx d) (d_exp d) = Ok y -> fix_ctx d = d /\ y = d.
Proof.
  intros H. destruct (fix_ctx_cases d) as [E|[He Hc]].
  - rewrite E in *. split; [done|]. by apply quantize_same_exp in H.
  - rewrite quantize_big_raises in H; [done|lia|lia].
Qed.

End DecFacts.

(** * Signs through the arithmetic, and the shape of [str] *)

Module DecSigns.
Import Dec DecFacts.

Lemma fix_ctx_nonneg d : nonneg d -> nonneg (fix_ctx d).
Proof.
  intros [Hs|Hz].
  - left. by rewrite fix_ctx_sign.
  - by rewrite fix_ctx_zero; [right|].
Qed.

Lemma aligned_nonneg d e : nonneg d -> 0 <= aligned d e.
Proof.
  intros H. apply signed_nonneg in H. unfold aligned.
  apply Z.mul_nonneg_nonneg; [done|]. apply Z.pow_nonneg. lia.
Qed.

Lemma add_raw_nonneg z s e :
  0 <= z ->
  nonneg (if z =? 0 then fix_ctx (mkDecimal s 0 e)
          else fix_ctx (mkDecimal (z <? 0) (Z.to_N (Z.abs z)) e)).
Proof.
  intros Hz. destruct (Z.eqb_spec z 0).
  - apply fix_ctx_nonneg. by right.
  - apply fix_ctx_nonneg. left. simpl. apply Z.ltb_ge. done.
Qed.

Lemma add_nonneg a b : nonneg a -> nonneg b -> nonneg (add a b).
Proof.
  intros Ha Hb. unfold add. apply add_raw_nonneg.
  pose proof (aligned_nonneg a (Z.min (d_exp a) (d_exp b)) Ha).
  pose proof (aligned_nonneg b (Z.min (d_exp a) (d_exp b)) Hb). lia.
Qed.

Lemma mul_nonneg a b : nonneg a -> nonneg b -> nonneg (mul a b).
Proof.
  intros Ha Hb. unfold mul. apply fix_ctx_nonneg.
  destruct Ha as [Ha|Ha], Hb as [Hb|Hb]; simpl.
  - left. simpl. by rewrite Ha, Hb.
  - right. simpl. lia.
  - right. simpl. lia.
  - right. simpl. lia.
Qed.

Lemma strip_zeros_zero fuel : forall c e,
  (strip_zeros fuel c e).1 = 0%N -> c = 0%N.
Proof.
  induction fuel as [|f IH]; intros c e; simpl; [done|].
  destruct (N.eqb_spec (c mod 10) 0) as [Hm|Hm]; [|done].
  intros H. apply IH in H.
  pose proof (N.div_mod c 10 ltac:(lia)). lia.
Qed.

Lemma div_nonneg a b r : nonneg a -> nonneg b -> div a b = Ok r -> nonneg r.
Proof.
  intros Ha Hb. unfold div.
  destruct (is_zero b) eqn:Hzb; [by destruct (is_zero a)|].
  destruct (is_zero a) eqn:Hza.
  - intros [= <-]. apply fix_ctx_nonneg. by right.
  - apply is_zero_false in Hza, Hzb.
    destruct Ha as [Ha|Ha]; [|done]. destruct Hb as [Hb|Hb]; [|done].
    rewrite Ha, Hb. simpl.
    destruct (_ =? 0)%N.
    + destruct (strip_zeros _ _ _) as [q' e']. intros [= <-]. apply fix_ctx_nonneg. by left.
    + intros [= <-]. apply fix_ctx_nonneg. by left.
Qed.

Lemma quantize_nonneg r d e y : nonneg d -> quantize r d e = Ok y -> nonneg y.
Proof.
  intros [Hs|Hz] H.
  - left. apply quantize_Ok in H as (_ & -> & _). done.
  - rewrite quantize_zero in H by done. injection H as <-. by right.
Qed.

Lemma cmp_antisym a b : cmp a b = CompOpp (cmp b a).
Proof. unfold cmp. rewrite (Z.min_comm (d_exp a)). apply Z.compare_antisym. Qed.

Lemma cmp_refl a : cmp a a = Eq.
Proof. unfold cmp. apply Z.compare_refl. Qed.

Lemma min_le_r a b : cmp (Dec.min a b) b <> Gt.
Proof.
  unfold Dec.min, ltb. destruct (cmp b a) eqn:E.
  - rewrite cmp_antisym, E. done.
  - by rewrite cmp_refl.
  - rewrite cmp_antisym, E. done.
Qed.

Lemma signed_copy_negate d : signed (copy_negate d) = - signed d.
Proof. unfold signed, copy_negate. simpl. destruct (d_sign d); simpl; lia. Qed.

Lemma aligned_copy_negate d e : aligned (copy_negate d) e = - aligned d e.
Proof. unfold aligned. rewrite signed_copy_negate. simpl. lia. Qed.

(** Taking away no more than there is leaves a value that is not
    negative. *)
Lemma sub_nonneg b p : cmp p b <> Gt -> nonneg (sub b p).
Proof.
  intros Hle. unfold sub, add. simpl d_exp. rewrite aligned_copy_negate.
  apply add_raw_nonneg.
  unfold cmp in Hle. rewrite (Z.min_comm (d_exp p)) in Hle.
  destruct (Z.compare_spec (aligned p (Z.min (d_exp b) (d_exp p)))
              (aligned b (Z.min (d_exp b) (d_exp p)))); [lia|lia|done].
Qed.

Lemma sub_min_nonneg b x : nonneg (sub b (Dec.min x b)).
Proof. apply sub_nonneg, min_le_r. Qed.

Lemma leb_zero_true d : leb (of_Z 0) d = true <-> nonneg d.
Proof. apply leb_zero_nonneg. Qed.

End DecSigns.

(** * The shape of [str] at two decimal places *)

Module DecStr.
Import Dec DecFacts.

Lemma string_of_uint_digits u :
  Forall (fun c => is_digit c = true)
         (list_ascii_of_string (NilEmpty.string_of_uint u)).
Proof. induction u; simpl; constructor; done. Qed.

Lemma digits_of_N_digits n : Forall (fun c => is_digit c = true) (digits_of_N n).
Proof.
  unfold digits_of_N, NilZero.string_of_uint.
  destruct (N.to_uint n) as [|u|u|u|u|u|u|u|u|u|u] eqn:E;
    [repeat constructor|..];
    match goal with |- Forall _ (list_ascii_of_string (NilEmpty.string_of_uint ?d)) =>
      apply (string_of_uint_digits d) end.
Qed.

Lemma digits_of_N_length n : (1 <= List.length (digits_of_N n))%nat.
Proof.
  unfold digits_of_N, NilZero.string_of_uint.
  destruct (N.to_uint n); simpl; lia.
Qed.

Lemma is_digit_not_minus c : is_digit c = true -> Ascii.eqb c "-" = false.
Proof.
  intros H. destruct (Ascii.eqb_spec c "-") as [->|]; [|done]. done.
Qed.

Lemma forallb_digits cs :
  Forall (fun c => is_digit c = true) cs -> forallb is_digit cs = true.
Proof. intros H. apply forallb_forall. intros c Hc. rewrite Forall_forall in H. apply H. by apply list_elem_of_In. Qed.

(** An optional sign, at least one digit, the point and two digits. *)
Lemma two_decimal_chars_intro (neg : bool) (int frac : list ascii) :
  int <> [] ->
  Forall (fun c => is_digit c = true) int ->
  Forall (fun c => is_digit c = true) frac ->
  List.length frac = 2%nat ->
  two_decimal_chars ((if neg then ["-"%char] else []) ++ int ++ "."%char :: frac) = true.
Proof.
  intros Hne Hint Hfrac Hlen.
  assert (Hbody : forall body, body = int ++ "."%char :: frac ->
    let n := List.length body in
    (4 <=? n)%nat
    && forallb is_digit (take (n - 3) body)
    && match body !! (n - 3)%nat with Some c => Ascii.eqb c "." | None => false end
    && forallb is_digit (drop (n - 2) body) = true).
  { intros body ->. simpl.
    assert (Hn : List.length (int ++ "."%char :: frac) = (List.length int + 3)%nat).
    { rewrite length_app. simpl. lia. }
    rewrite Hn.
    replace (List.length int + 3 - 3)%nat with (List.length int) by lia.
    replace (List.length int + 3 - 2)%nat with (List.length (int ++ ["."%char])).
    2:{ rewrite length_app. simpl. lia. }
    rewrite take_app_length.
    rewrite (list_lookup_middle int frac "."%char (List.length int) eq_refl).
    rewrite (cons_middle "."%char int frac), app_assoc, drop_app_length.
    rewrite !forallb_digits by done.
    destruct int; [done|]. simpl.
    by replace (List.length int + 3)%nat with (S (S (S (List.length int)))) by lia. }
  unfold two_decimal_chars. destruct neg; simpl.
  - by apply Hbody.
  - destruct int as [|c int']; [done|]. simpl.
    apply Forall_cons in Hint as [Hc Hint'].
    rewrite (is_digit_not_minus c Hc). by apply (Hbody (c :: int' ++ "."%char :: frac)).
Qed.

Lemma to_str_two_decimal d : d_exp d = -2 -> two_decimal_string (to_str d) = true.
Proof.
  intros He. unfold two_decimal_string, to_str.
  rewrite list_ascii_of_string_of_list_ascii, He.
  pose proof (digits_of_N_digits (d_int d)) as Hdig.
  pose proof (digits_of_N_length (d_int d)) as Hlen.
  set (digs := digits_of_N (d_int d)) in *.
  set (len := Z.of_nat (List.length digs)).
  assert (Hcond : (-2 <=? 0) && (-6 <? -2 + len) = true).
  { apply andb_true_iff. split; [done|]. apply Z.ltb_lt. lia. }
  rewrite Hcond. rewrite Z.eqb_refl, app_nil_r.
  destruct (Z.leb_spec (-2 + len) 0) as [Hsmall|Hbig].
  - apply two_decimal_chars_intro; [done|repeat constructor| |].
    + apply Forall_app. split; [|done]. apply Forall_replicate. done.
    + rewrite length_app, length_replicate. lia.
  - destruct (Z.leb_spec len (-2 + len)); [lia|].
    apply two_decimal_chars_intro.
    + intros E. apply (f_equal List.length) in E. rewrite length_take in E. simpl in E. lia.
    + by apply Forall_take.
    + by apply Forall_drop.
    + rewrite length_drop. lia.
Qed.

End DecStr.

(** * Reading two-decimal strings back *)

Module DecParse.
Import Dec DecFacts DecStr.

Lemma of_uint_acc_value u : forall p,
  Npos (Pos.of_uint_acc u p) = uint_value (Npos p) u.
Proof.
  induction u; intros p; simpl; try done; rewrite IHu; f_equal; lia.
Qed.

Lemma of_uint_value u : N.of_uint u = uint_value 0 u.
Proof.
  unfold N.of_uint. induction u; simpl; try done; rewrite ?of_uint_acc_value; done.
Qed.

Lemma digits_value_uint u : forall acc,
  digits_value acc (list_ascii_of_string (NilEmpty.string_of_uint u)) = uint_value acc u.
Proof. induction u; intros acc; simpl; try done; apply IHu. Qed.

Lemma digits_value_of_N n : digits_value 0 (digits_of_N n) = n.
Proof.
  unfold digits_of_N, NilZero.string_of_uint.
  rewrite <- (DecimalN.Unsigned.of_to n) at 2. rewrite of_uint_value.
  destruct (N.to_uint n) eqn:E; try (rewrite <- digits_value_uint; done).
Qed.

Lemma digits_value_zeros k cs :
  digits_value 0 (replicate k "0"%char ++ cs) = digits_value 0 cs.
Proof. induction k as [|k IH]; [done|]. simpl. exact IH. Qed.

(** The parts of [int ++ "." :: frac] the shape test and the parser look
    at. *)
Lemma body_parts (int frac : list ascii) :
  List.length frac = 2%nat ->
  let body := int ++ "."%char :: frac in
  let n := List.length body in
  take (n - 3) body = int /\ drop (n - 2) body = frac.
Proof.
  intros Hlen body n.
  assert (Hn : n = (List.length int + 3)%nat).
  { unfold n, body. rewrite length_app. simpl. lia. }
  rewrite Hn. split.
  - replace (List.length int + 3 - 3)%nat with (List.length int) by lia.
    unfold body. by rewrite take_app_length.
  - replace (List.length int + 3 - 2)%nat with (List.length (int ++ ["."%char])).
    2:{ rewrite length_app. simpl. lia. }
    unfold body. by rewrite (cons_middle "."%char int frac), app_assoc, drop_app_length.
Qed.

Lemma cents_of_chars (neg : bool) (int frac : list ascii) :
  int <> [] ->
  Forall (fun c => is_digit c = true) int ->
  Forall (fun c => is_digit c = true) frac ->
  List.length frac = 2%nat ->
  cents_of_string
    (string_of_list_ascii ((if neg then ["-"%char] else []) ++ int ++ "."%char :: frac))
  = Some (let v := Z.of_N (digits_value 0 (int ++ frac)) in if neg then - v else v).
Proof.
  intros Hne Hint Hfrac Hlen. unfold cents_of_string.
  rewrite list_ascii_of_string_of_list_ascii.
  rewrite (two_decimal_chars_intro neg int frac) by done.
  destruct (body_parts int frac Hlen) as [Ht Hd].
  destruct neg.
  - cbn [app tail] in *. change (Ascii.eqb "-" "-") with true. cbv zeta.
    cbn [tail]. by rewrite Ht, Hd.
  - destruct int as [|c int']; [done|].
    apply Forall_cons in Hint as [Hc Hint'].
    cbn [app tail] in *. rewrite (is_digit_not_minus c Hc). cbv zeta.
    by rewrite Ht, Hd.
Qed.

(** [str] of a value with two decimal places reads back as its cents. *)
Theorem cents_of_to_str d : d_exp d = -2 -> cents_of_string (to_str d) = Some (signed d).
Proof.
  intros He. unfold to_str. rewrite He.
  pose proof (digits_of_N_digits (d_int d)) as Hdig.
  pose proof (digits_of_N_length (d_int d)) as Hlen.
  pose proof (digits_value_of_N (d_int d)) as Hval.
  set (digs := digits_of_N (d_int d)) in *.
  set (len := Z.of_nat (List.length digs)).
  assert (Hcond : (-2 <=? 0) && (-6 <? -2 + len) = true).
  { apply andb_true_iff. split; [done|]. apply Z.ltb_lt. lia. }
  rewrite Hcond. rewrite Z.eqb_refl, app_nil_r.
  assert (Hsigned : forall cs, digits_value 0 cs = d_int d ->
    Some (let v := Z.of_N (digits_value 0 cs) in if d_sign d then - v else v)
    = Some (signed d)).
  { intros cs ->. unfold signed. by destruct (d_sign d). }
  destruct (Z.leb_spec (-2 + len) 0) as [Hsmall|Hbig].
  - rewrite <- (Hsigned (["0"%char] ++ replicate (Z.to_nat (- (-2 + len))) "0"%char ++ digs)).
    + replace (if d_sign d then ["-"%char] else []) with
        (if d_sign d then ["-"%char] else @nil ascii) by done.
      apply (cents_of_chars (d_sign d) ["0"%char]); [done|repeat constructor| |].
      * apply Forall_app. split; [|done]. apply Forall_replicate. done.
      * rewrite length_app, length_replicate. lia.
    + simpl. by rewrite digits_value_zeros.
  - destruct (Z.leb_spec len (-2 + len)); [lia|].
    rewrite <- (Hsigned (take (Z.to_nat (-2 + len)) digs ++ drop (Z.to_nat (-2 + len)) digs)).
    + apply (cents_of_chars (d_sign d)).
      * intros E. apply (f_equal List.length) in E. rewrite length_take in E. simpl in E. lia.
      * by apply Forall_take.
      * by apply Forall_drop.
      * rewrite length_drop. lia.
    + by rewrite take_drop.
Qed.

End DecParse.

(** * Totals of amounts in cents are exact *)

Module DecTotals.
Import Dec DecFacts DecSigns.

Lemma fix_ctx_total D :
  d_exp D = -2 -> d_sign D = false -> cents_total (fix_ctx D).
Proof.
  intros He Hs. destruct (fix_ctx_cases D) as [->|[Hexp Hint]].
  - left. split; [done|]. unfold signed. rewrite Hs. lia.
  - right. split; [lia|]. split; [lia|]. by rewrite fix_ctx_sign.
Qed.

Lemma abs_total d : d_exp d = -2 -> cents_total (Dec.abs d).
Proof.
  intros He. unfold Dec.abs, neg, pos.
  destruct (d_sign d) eqn:Hs; destruct (is_zero d);
    apply fix_ctx_total; simpl; rewrite ?Hs; done.
Qed.

Lemma positive_total d : d_exp d = -2 -> gtb d (of_Z 0) = true -> cents_total d.
Proof.
  intros He Hpos. apply gtb_zero_positive, signed_pos in Hpos. left. split; [done|lia].
Qed.

Lemma signed_total d : cents_total d -> 0 <= signed d.
Proof.
  intros [[_ H]|(_ & _ & Hs)]; [done|]. unfold signed. rewrite Hs. lia.
Qed.

Lemma signed_mk s c e :
  signed (mkDecimal s c e) = if s then - Z.of_N c else Z.of_N c.
Proof. reflexivity. Qed.

Lemma aligned_same d : aligned d (d_exp d) = signed d.
Proof. unfold aligned. rewrite Z.sub_diag. simpl. lia. Qed.

Lemma aligned_oversized d e :
  oversized d -> e <= d_exp d ->
  10 ^ (prec - 1) <= aligned d e /\ (e < d_exp d -> 10 ^ prec <= aligned d e).
Proof.
  intros (He & Hint & Hs) Hle. unfold aligned, signed. rewrite Hs.
  assert (Hp : 1 <= 10 ^ (d_exp d - e)).
  { pose proof (pow10_pos (d_exp d - e) ltac:(lia)). lia. }
  split; [nia|]. intros Hlt.
  assert (Hp10 : 10 <= 10 ^ (d_exp d - e)).
  { replace (d_exp d - e) with (Z.succ (d_exp d - e - 1)) by lia.
    rewrite Z.pow_succ_r by lia.
    pose proof (pow10_pos (d_exp d - e - 1) ltac:(lia)). lia. }
  replace (10 ^ prec) with (10 * 10 ^ (prec - 1)) by (unfold prec; reflexivity).
  nia.
Qed.

Lemma aligned_total_nonneg d e : cents_total d -> 0 <= aligned d e.
Proof.
  intros H. apply signed_total in H. unfold aligned.
  apply Z.mul_nonneg_nonneg; [done|]. apply Z.pow_nonneg. lia.
Qed.

Lemma exp_total d : cents_total d -> -2 <= d_exp d.
Proof. intros [[-> _]|(H & _)]; lia. Qed.

(** A sum with an oversized operand is oversized. *)
Lemma fix_ctx_oversized z e :
  -2 <= e -> 10 ^ (prec - 1) <= z -> (e = -2 -> 10 ^ prec <= z) ->
  oversized (fix_ctx (mkDecimal false (Z.to_N z) e)).
Proof.
  intros He Hz Hz2.
  assert (Hz0 : 0 < z).
  { pose proof (pow10_pos (prec - 1) ltac:(unfold prec; lia)). lia. }
  set (D := mkDecimal false (Z.to_N z) e).
  destruct (Z.le_gt_cases (ndigits (d_int D)) prec) as [Hsmall|Hbig].
  - rewrite fix_ctx_small by done.
    assert (e <> -2).
    { intros ->. apply ndigits_le in Hsmall; [|unfold prec; lia].
      simpl in Hsmall. rewrite Z2N.id in Hsmall by lia. specialize (Hz2 eq_refl). lia. }
    split; [simpl; lia|]. split; [|done]. simpl. rewrite Z2N.id by lia. done.
  - destruct (fix_ctx_big D ltac:(lia)) as [Hexp Hint].
    split; [simpl in Hexp; lia|]. split; [lia|]. by rewrite fix_ctx_sign.
Qed.

Lemma add_total a x : cents_total a -> cents_total x -> cents_total (add a x).
Proof.
  intros Ha Hx. unfold add.
  pose proof (exp_total a Ha) as Hea. pose proof (exp_total x Hx) as Hex.
  set (e := Z.min (d_exp a) (d_exp x)).
  pose proof (aligned_total_nonneg a e Ha) as Hza.
  pose proof (aligned_total_nonneg x e Hx) as Hzx.
  set (z := aligned a e + aligned x e) in *.
  assert (Hp : 0 < 10 ^ (prec - 1)) by (apply pow10_pos; unfold prec; lia).
  assert (Hover : forall d, oversized d -> e <= d_exp d -> 0 <= z - aligned d e ->
            10 ^ (prec - 1) <= z /\ (e = -2 -> 10 ^ prec <= z)).
  { intros d Hd Hle Hrest. destruct (aligned_oversized d e Hd Hle) as [H1 H2].
    split; [lia|]. intros He2. destruct Hd as (Hd & _). specialize (H2 ltac:(lia)). lia. }
  destruct Ha as [[Hae Has]|Hao], Hx as [[Hxe Hxs]|Hxo].
  - (* both exact *)
    assert (He : e = -2) by (unfold e; lia).
    destruct (Z.eqb_spec z 0) as [Hz|Hz].
    + rewrite fix_ctx_zero by done. left. split; [done|]. rewrite signed_mk.
      destruct (_ && _); lia.
    + replace (z <? 0) with false by (symmetry; apply Z.ltb_ge; lia).
      rewrite Z.abs_eq by lia. apply fix_ctx_total; done.
  - destruct (Hover x Hxo ltac:(unfold e; lia) ltac:(unfold z; lia)) as [H1 H2].
    destruct (Z.eqb_spec z 0); [lia|].
    replace (z <? 0) with false by (symmetry; apply Z.ltb_ge; lia).
    rewrite Z.abs_eq by lia. right. apply fix_ctx_oversized; [unfold e; lia|done|done].
  - destruct (Hover a Hao ltac:(unfold e; lia) ltac:(unfold z; lia)) as [H1 H2].
    destruct (Z.eqb_spec z 0); [lia|].
    replace (z <? 0) with false by (symmetry; apply Z.ltb_ge; lia).
    rewrite Z.abs_eq by lia. right. apply fix_ctx_oversized; [unfold e; lia|done|done].
  - destruct (Hover a Hao ltac:(unfold e; lia) ltac:(unfold z; lia)) as [H1 H2].
    destruct (Z.eqb_spec z 0); [lia|].
    replace (z <? 0) with false by (symmetry; apply Z.ltb_ge; lia).
    rewrite Z.abs_eq by lia. right. apply fix_ctx_oversized; [unfold e; lia|done|done].
Qed.

Lemma foldl_add_total xs : forall a,
  cents_total a -> Forall cents_total xs -> cents_total (foldl Dec.add a xs).
Proof.
  induction xs as [|x xs IH]; intros a Ha Hxs; [done|].
  apply Forall_cons in Hxs as [Hx Hxs]. simpl. apply IH; [|done]. by apply add_total.
Qed.

(** Only an exact total can be quantized, and quantizing leaves it as it
    is. *)
Lemma quantize_total a q :
  cents_total a -> Money.quantize_cents a = Ok q ->
  q = a /\ d_exp a = -2 /\ 0 <= signed a /\ ndigits (d_int a) <= prec.
Proof.
  intros [[He Hs]|(He & Hint & _)] Hq; unfold Money.quantize_cents in Hq.
  - pose proof (quantize_Ok _ _ _ _ Hq) as (_ & _ & Hnd).
    rewrite <- He in Hq. apply quantize_same_exp in Hq as ->. done.
  - rewrite quantize_big_raises in Hq; [done|lia|done].
Qed.

(** The difference of two exact totals is exact. *)
Lemma sub_exact a b :
  d_exp a = -2 -> d_exp b = -2 -> 0 <= signed a -> 0 <= signed b ->
  ndigits (d_int a) <= prec -> ndigits (d_int b) <= prec ->
  d_exp (sub a b) = -2 /\ signed (sub a b) = signed a - signed b.
Proof.
  intros Hae Hbe Has Hbs Han Hbn. unfold sub, add.
  rewrite aligned_copy_negate. unfold copy_negate. cbn [d_sign d_exp d_int].
  rewrite Hae, Hbe. change (Z.min (-2) (-2)) with (-2).
  assert (Ea : aligned a (-2) = signed a) by (rewrite <- Hae; apply aligned_same).
  assert (Eb : aligned b (-2) = signed b) by (rewrite <- Hbe; apply aligned_same).
  rewrite Ea, Eb.
  apply ndigits_le in Han; [|unfold prec; lia]. apply ndigits_le in Hbn; [|unfold prec; lia].
  assert (Ha' : Z.of_N (d_int a) = signed a).
  { unfold signed in *. destruct (d_sign a); lia. }
  assert (Hb' : Z.of_N (d_int b) = signed b).
  { unfold signed in *. destruct (d_sign b); lia. }
  destruct (Z.eqb_spec (signed a + - signed b) 0) as [Hz|Hz].
  - rewrite fix_ctx_zero by done. split; [done|]. rewrite signed_mk.
    destruct (_ && _); lia.
  - rewrite fix_ctx_small.
    + split; [done|]. rewrite signed_mk.
      destruct (Z.ltb_spec (signed a + - signed b) 0); lia.
    + apply ndigits_le; [unfold prec; lia|]. simpl. lia.
Qed.

End DecTotals.

(** * Rounding to cents in closed form *)

Module MoneyFacts.
Import Dec Money MoneySpec DecFacts DecSigns.

Lemma round_half_up c k :
  0 < k -> round_coeff ROUND_HALF_UP c k = ((2 * c + 10 ^ Z.to_N k) / (2 * 10 ^ Z.to_N k))%N.
Proof.
  intros Hk. unfold round_coeff.
  set (p := (10 ^ Z.to_N k)%N).
  assert (Hp : (0 < p)%N) by (unfold p; apply N.neq_0_lt_0, N.pow_nonzero; lia).
  pose proof (N.div_mod c p ltac:(lia)) as Hdm.
  pose proof (N.mod_lt c p ltac:(lia)) as Hlt.
  set (q := (c / p)%N) in *. set (r := (c mod p)%N) in *.
  destruct (N.leb_spec p (2 * r)) as [Hle|Hgt].
  - apply (N.div_unique _ _ _ (2 * r - p)%N); lia.
  - apply (N.div_unique _ _ _ (2 * r + p)%N); lia.
Qed.

Lemma N_pow10_Z k : Z.of_N (10 ^ k) = 10 ^ Z.of_N k.
Proof. by rewrite N2Z.inj_pow. Qed.

Lemma quantize_cents_closed v :
  quantize_cents v =
    if (cents_coeff v <? 10 ^ 28)%N
    then Ok (mkDecimal (d_sign v) (cents_coeff v) (-2))
    else Raise InvalidOperation.
Proof.
  unfold quantize_cents, quantize, cents_coeff.
  destruct (is_zero v) eqn:Hz.
  - apply is_zero_true in Hz. rewrite Hz.
    destruct (Z.leb_spec (-2) (d_exp v)).
    + rewrite N.mul_0_l. done.
    + rewrite N.mul_0_r, N.add_0_l.
      set (p := (10 ^ Z.to_N (-2 - d_exp v))%N).
      assert (Hp : (0 < p)%N) by (unfold p; apply N.neq_0_lt_0, N.pow_nonzero; lia).
      rewrite N.div_small by lia. done.
  - apply is_zero_false in Hz.
    pose proof (ndigits_bounds _ Hz) as Hnd. pose proof (ndigits_pos (d_int v)) as Hnd1.
    unfold rescale. rewrite (proj2 (is_zero_false v) Hz).
    destruct (Z.leb_spec (-2) (d_exp v)) as [He|He].
    + (* at most two places: the value is kept *)
      replace (d_exp v - -2) with (d_exp v + 2) by lia. cbn [d_int].
      set (c := (d_int v * 10 ^ Z.to_N (d_exp v + 2))%N).
      assert (Hc : Z.of_N c = Z.of_N (d_int v) * 10 ^ (d_exp v + 2)).
      { unfold c. rewrite N2Z.inj_mul, N_pow10_Z, Z2N.id by lia. done. }
      assert (Hpow : 0 < 10 ^ (d_exp v + 2)) by (apply pow10_pos; lia).
      assert (Hlo : 10 ^ (ndigits (d_int v) + d_exp v + 1) <= Z.of_N c).
      { rewrite Hc. replace (ndigits (d_int v) + d_exp v + 1)
          with ((ndigits (d_int v) - 1) + (d_exp v + 2)) by lia.
        rewrite (Z.pow_add_r 10 (ndigits (d_int v) - 1) (d_exp v + 2)) by lia.
        apply Z.mul_le_mono_nonneg_r; lia. }
      assert (Hhi : Z.of_N c < 10 ^ (ndigits (d_int v) + d_exp v + 2)).
      { rewrite Hc. replace (ndigits (d_int v) + d_exp v + 2)
          with (ndigits (d_int v) + (d_exp v + 2)) by lia.
        rewrite (Z.pow_add_r 10 (ndigits (d_int v)) (d_exp v + 2)) by lia.
        apply Z.mul_lt_mono_pos_r; lia. }
      destruct (Z.ltb_spec prec (d_exp v + ndigits (d_int v) - 1 - -2 + 1)) as [Hbig|Hsmall].
      * replace (c <? 10 ^ 28)%N with false; [done|].
        symmetry. apply N.ltb_ge. apply N2Z.inj_le. rewrite N_pow10_Z.
        etransitivity; [|exact Hlo]. apply Z.pow_le_mono_r; unfold prec in *; lia.
      * assert (Hc28 : Z.of_N c < 10 ^ 28).
        { eapply Z.lt_le_trans; [exact Hhi|]. apply Z.pow_le_mono_r; unfold prec in *; lia. }
        replace (prec <? ndigits c) with false.
        2:{ symmetry. apply Z.ltb_ge. apply ndigits_le; [unfold prec; lia|]. done. }
        replace (c <? 10 ^ 28)%N with true; [done|].
        symmetry. apply N.ltb_lt. apply N2Z.inj_lt. by rewrite N_pow10_Z.
    + (* more than two places: half up *)
      destruct (Z.leb_spec (-2) (d_exp v)); [lia|]. cbn [d_int].
      replace (-2 - d_exp v) with (-2 - d_exp v) by lia.
      rewrite round_half_up by lia.
      set (k := -2 - d_exp v) in *.
      set (p := (10 ^ Z.to_N k)%N).
      assert (Hp : (0 < p)%N) by (unfold p; apply N.neq_0_lt_0, N.pow_nonzero; lia).
      assert (HpZ : Z.of_N p = 10 ^ k) by (unfold p; rewrite N_pow10_Z, Z2N.id by lia; done).
      set (c := ((2 * d_int v + p) / (2 * p))%N).
      pose proof (N.div_mod (2 * d_int v + p) (2 * p) ltac:(lia)) as Hdm.
      pose proof (N.mod_lt (2 * d_int v + p) (2 * p) ltac:(lia)) as Hlt.
      fold c in Hdm.
      destruct (Z.ltb_spec prec (d_exp v + ndigits (d_int v) - 1 - -2 + 1)) as [Hbig|Hsmall].
      * replace (c <? 10 ^ 28)%N with false; [done|].
        symmetry. apply N.ltb_ge.
        (* d_int v >= 10^(nd-1) >= 10^(28+k) *)
        assert (H1 : 10 ^ (28 + k) <= Z.of_N (d_int v)).
        { etransitivity; [|apply Hnd]. apply Z.pow_le_mono_r; unfold prec in *; lia. }
        rewrite Z.pow_add_r in H1 by lia. rewrite <- HpZ in H1.
        apply N2Z.inj_le. rewrite N_pow10_Z. change (Z.of_N 28) with 28.
        assert (Hpp : 0 < Z.of_N p) by lia.
        assert (0 < 10 ^ 28) by (apply pow10_pos; lia). nia.
      * destruct (Z.ltb_spec prec (ndigits c)) as [Hb2|Hs2].
        -- replace (c <? 10 ^ 28)%N with false; [done|].
           symmetry. apply N.ltb_ge. apply N2Z.inj_le. rewrite N_pow10_Z.
           change (Z.of_N 28) with 28.
           destruct (Z.le_gt_cases (10 ^ 28) (Z.of_N c)) as [|Hc]; [done|].
           apply ndigits_le in Hc; unfold prec in *; lia.
        -- replace (c <? 10 ^ 28)%N with true; [done|].
           symmetry. apply N.ltb_lt. apply N2Z.inj_lt. rewrite N_pow10_Z.
           apply ndigits_le; unfold prec in *; [lia|]. done.
Qed.

Lemma cents_coeff_exact v :
  -2 <= d_exp v -> Z.of_N (cents_coeff v) = Z.of_N (d_int v) * 10 ^ (d_exp v + 2).
Proof.
  intros He. unfold cents_coeff. destruct (Z.leb_spec (-2) (d_exp v)); [|lia].
  rewrite N2Z.inj_mul, N_pow10_Z, Z2N.id by lia. done.
Qed.

Lemma cents_coeff_half v :
  d_exp v < -2 ->
  let p := 10 ^ (-2 - d_exp v) in
  2 * Z.of_N (cents_coeff v) * p - p <= 2 * Z.of_N (d_int v)
    < 2 * Z.of_N (cents_coeff v) * p + p.
Proof.
  intros He p. unfold cents_coeff. destruct (Z.leb_spec (-2) (d_exp v)); [lia|].
  set (pN := (10 ^ Z.to_N (-2 - d_exp v))%N).
  assert (Hp : (0 < pN)%N) by (unfold pN; apply N.neq_0_lt_0, N.pow_nonzero; lia).
  assert (HpZ : Z.of_N pN = p) by (unfold pN, p; rewrite N_pow10_Z, Z2N.id by lia; done).
  pose proof (N.div_mod (2 * d_int v + pN) (2 * pN) ltac:(lia)) as Hdm.
  pose proof (N.mod_lt (2 * d_int v + pN) (2 * pN) ltac:(lia)) as Hlt.
  set (c := ((2 * d_int v + pN) / (2 * pN))%N) in *.
  set (r := ((2 * d_int v + pN) mod (2 * pN))%N) in *.
  rewrite <- HpZ. lia.
Qed.

Lemma quantize_cents_fixed v :
  d_exp v = -2 -> ndigits (d_int v) <= prec -> quantize_cents v = Ok v.
Proof.
  intros He Hnd. rewrite quantize_cents_closed.
  assert (Hc : cents_coeff v = d_int v).
  { unfold cents_coeff. rewrite He. simpl. lia. }
  rewrite Hc.
  replace (d_int v <? 10 ^ 28)%N with true.
  - destruct v as [s c e]. simpl in *. by subst e.
  - symmetry. apply N.ltb_lt, N2Z.inj_lt. rewrite N_pow10_Z.
    apply ndigits_le in Hnd; unfold prec in *; [done|lia].
Qed.

Lemma add_comm a b : Dec.add a b = Dec.add b a.
Proof.
  unfold Dec.add. rewrite (Z.min_comm (d_exp b)), (Z.add_comm (aligned b _)).
  by rewrite (andb_comm (d_sign b)).
Qed.

Lemma add_cents a b :
  d_exp a = -2 -> d_exp b = -2 ->
  let z := signed a + signed b in
  Money.add a b =
    if Z.abs z <? 10 ^ 28
    then Ok (mkDecimal (if z =? 0 then d_sign a && d_sign b else z <? 0)
               (Z.to_N (Z.abs z)) (-2))
    else Raise InvalidOperation.
Proof.
  intros Ha Hb z. unfold Money.add, to_decimal, Dec.add.
  rewrite Ha, Hb. change (Z.min (-2) (-2)) with (-2).
  assert (Ea : aligned a (-2) = signed a) by (rewrite <- Ha; apply DecTotals.aligned_same).
  assert (Eb : aligned b (-2) = signed b) by (rewrite <- Hb; apply DecTotals.aligned_same).
  rewrite Ea, Eb. fold z.
  destruct (Z.eqb_spec z 0) as [Hz|Hz].
  - rewrite Hz. simpl. rewrite fix_ctx_zero by done.
    by rewrite quantize_cents_fixed.
  - set (D := mkDecimal (z <? 0) (Z.to_N (Z.abs z)) (-2)).
    destruct (Z.ltb_spec (Z.abs z) (10 ^ 28)) as [Hs|Hbig].
    + assert (Hnd : ndigits (d_int D) <= prec).
      { apply ndigits_le; [unfold prec; lia|]. simpl. rewrite Z2N.id by lia. done. }
      rewrite fix_ctx_small by done. by rewrite quantize_cents_fixed.
    + assert (Hnd : prec < ndigits (d_int D)).
      { destruct (Z.le_gt_cases (ndigits (d_int D)) prec) as [H|H]; [|done].
        apply ndigits_le in H; [|unfold prec; lia]. simpl in H.
        rewrite Z2N.id in H by lia. unfold prec in H. lia. }
      destruct (fix_ctx_big D Hnd) as [He Hint].
      unfold quantize_cents. apply quantize_big_raises; [simpl in He; lia|lia].
Qed.

End MoneyFacts.

(** * Totals of amounts that are whole numbers of cents

    Whatever the exponents the amounts are written with, a running total
    of such amounts is exact as long as it can be quantized at all. *)

Module WholeCentsFacts.
Import Dec Money DecFacts DecSigns WholeCents.

Lemma aligned_shift d e e' :
  e' <= e -> e <= d_exp d -> aligned d e' = aligned d e * 10 ^ (e - e').
Proof.
  intros H1 H2. unfold aligned.
  replace (d_exp d - e') with ((d_exp d - e) + (e - e')) by lia.
  rewrite Z.pow_add_r by lia. lia.
Qed.

Lemma exactly_at z d e0 :
  e0 <= d_exp d -> e0 <= -2 -> aligned d e0 = z * 10 ^ (-2 - e0) -> exactly z d.
Proof.
  intros H1 H2 H e He1 He2.
  destruct (Z.le_gt_cases e e0) as [Hle|Hgt].
  - rewrite (aligned_shift d e0 e) by lia. rewrite H.
    replace (-2 - e) with ((-2 - e0) + (e0 - e)) by lia.
    rewrite Z.pow_add_r by lia. lia.
  - rewrite (aligned_shift d e e0) in H by lia.
    replace (-2 - e0) with ((-2 - e) + (e - e0)) in H by lia.
    rewrite Z.pow_add_r in H by lia.
    pose proof (pow10_pos (e - e0) ltac:(lia)). nia.
Qed.

Lemma at_least_at z d e0 :
  e0 <= d_exp d -> e0 <= -2 -> z * 10 ^ (-2 - e0) <= aligned d e0 -> at_least z d.
Proof.
  intros H1 H2 H e He1 He2.
  destruct (Z.le_gt_cases e e0) as [Hle|Hgt].
  - rewrite (aligned_shift d e0 e) by lia.
    replace (-2 - e) with ((-2 - e0) + (e0 - e)) by lia.
    rewrite Z.pow_add_r by lia.
    pose proof (pow10_pos (e0 - e) ltac:(lia)). nia.
  - rewrite (aligned_shift d e e0) in H by lia.
    replace (-2 - e0) with ((-2 - e) + (e - e0)) in H by lia.
    rewrite Z.pow_add_r in H by lia.
    pose proof (pow10_pos (e - e0) ltac:(lia)). nia.
Qed.

Lemma exactly_at_least z z' d : exactly z d -> z' <= z -> at_least z' d.
Proof.
  intros H Hz e He1 He2. rewrite (H e He1 He2).
  pose proof (pow10_pos (-2 - e) ltac:(lia)). nia.
Qed.

Lemma exactly_unique z z' d : exactly z d -> exactly z' d -> z = z'.
Proof.
  intros H H'. set (e := Z.min (d_exp d) (-2)).
  specialize (H e ltac:(unfold e; lia) ltac:(unfold e; lia)).
  specialize (H' e ltac:(unfold e; lia) ltac:(unfold e; lia)).
  pose proof (pow10_pos (-2 - e) ltac:(unfold e; lia)). nia.
Qed.


Lemma whole_exactly d : whole_cents d = true -> exactly (cents_value d) d.
Proof.
  unfold whole_cents, cents_value. intros H.
  destruct (Z.leb_spec (-2) (d_exp d)) as [He|He].
  - apply (exactly_at _ _ (-2)); [done|done|].
    unfold aligned. replace (d_exp d - -2) with (d_exp d + 2) by lia.
    change (-2 - -2) with 0. simpl. lia.
  - simpl in H. apply N.eqb_eq in H.
    apply (exactly_at _ _ (d_exp d)); [lia|lia|].
    unfold aligned. rewrite Z.sub_diag. change (10 ^ 0) with 1. rewrite Z.mul_1_r.
    set (p := 10 ^ (-2 - d_exp d)).
    assert (Hp : 0 < p) by (apply pow10_pos; lia).
    assert (Hm : Z.of_N (d_int d) mod p = 0).
    { unfold p. rewrite <- (Z2N.id (-2 - d_exp d)) by lia.
      change 10 with (Z.of_N 10). rewrite <- N2Z.inj_pow, <- N2Z.inj_mod, H. done. }
    assert (Hs : signed d mod p = 0).
    { unfold signed. destruct (d_sign d); [|done].
      apply Z.mod_opp_l_z; [lia|done]. }
    pose proof (Z.div_mod (signed d) p ltac:(lia)) as Hdm. lia.
Qed.

Lemma pow10_lt_inv a b : 0 <= b -> 10 ^ a < 10 ^ b -> a < b.
Proof.
  intros Hb H. destruct (Z.le_gt_cases b a) as [Hle|]; [|done].
  assert (10 ^ b <= 10 ^ a) by (apply Z.pow_le_mono_r; lia). lia.
Qed.

Lemma fix_ctx_exp D :
  prec < ndigits (d_int D) ->
  d_exp D + (ndigits (d_int D) - prec) <= d_exp (fix_ctx D).
Proof.
  intros H. unfold fix_ctx. destruct (Z.leb_spec (ndigits (d_int D)) prec); [lia|].
  destruct (_ <? _); simpl; lia.
Qed.

(** Cutting a coefficient whose digits beyond the precision are zeros
    loses nothing. *)
Lemma fix_ctx_drop D k :
  0 < k -> ndigits (d_int D) = prec + k -> (d_int D mod 10 ^ Z.to_N k = 0)%N ->
  fix_ctx D = mkDecimal (d_sign D) (d_int D / 10 ^ Z.to_N k) (d_exp D + k).
Proof.
  intros Hk Hnd Hmod. unfold fix_ctx.
  destruct (Z.leb_spec (ndigits (d_int D)) prec); [lia|].
  replace (ndigits (d_int D) - prec) with k by lia.
  assert (Hp : (0 < 10 ^ Z.to_N k)%N) by (apply N.neq_0_lt_0, N.pow_nonzero; lia).
  assert (Hr : round_coeff ROUND_HALF_EVEN (d_int D) k = (d_int D / 10 ^ Z.to_N k)%N).
  { unfold round_coeff. cbv zeta. rewrite Hmod. change (2 * 0)%N with 0%N.
    destruct (N.compare_spec 0 (10 ^ Z.to_N k)); [lia|done|lia]. }
  rewrite Hr.
  assert (Hc0 : d_int D <> 0%N).
  { intros E. rewrite E, ndigits_0 in Hnd. unfold prec in *. lia. }
  pose proof (ndigits_bounds _ Hc0) as Hb. rewrite Hnd in Hb.
  assert (Hq : 10 ^ (prec - 1) <= Z.of_N (d_int D / 10 ^ Z.to_N k)%N < 10 ^ (prec - 1 + 1)).
  { apply div_pow10_bounds; [lia|unfold prec; lia|].
    replace (prec - 1 + k) with (prec + k - 1) by lia.
    replace (prec - 1 + 1 + k) with (prec + k) by lia. done. }
  replace (prec - 1 + 1) with prec in Hq by lia.
  assert (Hle : ndigits (d_int D / 10 ^ Z.to_N k) <= prec).
  { apply ndigits_le; [unfold prec; lia|lia]. }
  destruct (Z.ltb_spec prec (ndigits (d_int D / 10 ^ Z.to_N k))); [lia|done].
Qed.

Lemma abs_signed d : Z.abs (signed d) = Z.of_N (d_int d).
Proof. unfold signed. destruct (d_sign d); lia. Qed.

Lemma fix_ctx_exactly z D :
  exactly z D -> Z.abs z < 10 ^ 28 -> exactly z (fix_ctx D).
Proof.
  intros Hex Hz.
  destruct (Z.le_gt_cases (ndigits (d_int D)) prec) as [Hsmall|Hbig].
  { by rewrite fix_ctx_small. }
  assert (Hc : 10 ^ prec <= Z.of_N (d_int D)).
  { destruct (Z.le_gt_cases (10 ^ prec) (Z.of_N (d_int D))) as [|Hlt]; [done|].
    apply ndigits_le in Hlt; [lia|unfold prec; lia]. }
  destruct (Z.le_gt_cases (-2) (d_exp D)) as [He|He].
  { (* the coefficient is no longer than the cents *)
    specialize (Hex (-2) He ltac:(lia)). unfold aligned in Hex.
    change (-2 - -2) with 0 in Hex. rewrite Z.pow_0_r, Z.mul_1_r in Hex.
    pose proof (pow10_pos (d_exp D - -2) ltac:(lia)) as Hp.
    pose proof (abs_signed D) as Ha. unfold prec in Hc.
    assert (Z.abs z = Z.of_N (d_int D) * 10 ^ (d_exp D - -2)).
    { rewrite <- Hex, Z.abs_mul, Ha, (Z.abs_eq (10 ^ _)) by lia. done. }
    nia. }
  set (m := -2 - d_exp D).
  pose proof (Hex (d_exp D) ltac:(lia) ltac:(lia)) as Hs. unfold aligned in Hs.
  rewrite Z.sub_diag, Z.pow_0_r, Z.mul_1_r in Hs. fold m in Hs.
  assert (Hpm : 0 < 10 ^ m) by (apply pow10_pos; unfold m; lia).
  assert (Hint : Z.of_N (d_int D) = Z.abs z * 10 ^ m).
  { rewrite <- abs_signed, Hs, Z.abs_mul, (Z.abs_eq (10 ^ m)) by lia. done. }
  set (k := ndigits (d_int D) - prec).
  assert (Hk : 0 < k) by (unfold k; lia).
  assert (Hkm : k <= m).
  { assert (Hlt : Z.of_N (d_int D) < 10 ^ (prec + m)).
    { rewrite Hint, Z.pow_add_r by (unfold prec, m; lia). unfold prec. nia. }
    apply ndigits_le in Hlt; [unfold k; lia|unfold prec, m; lia]. }
  assert (Hsplit : 10 ^ m = 10 ^ (m - k) * 10 ^ k).
  { rewrite <- Z.pow_add_r by lia. f_equal. lia. }
  assert (Hpk : 0 < 10 ^ k) by (apply pow10_pos; lia).
  assert (HpkN : Z.of_N (10 ^ Z.to_N k) = 10 ^ k).
  { rewrite N2Z.inj_pow, Z2N.id by lia. done. }
  assert (Hmod : (d_int D mod 10 ^ Z.to_N k = 0)%N).
  { apply N2Z.inj. rewrite N2Z.inj_mod, HpkN, Hint, Hsplit, Z.mul_assoc.
    by rewrite Z.mod_mul by lia. }
  rewrite (fix_ctx_drop D k Hk ltac:(unfold k; lia) Hmod).
  apply (exactly_at _ _ (d_exp D)); [simpl; lia|lia|].
  unfold aligned, signed. cbn [d_sign d_int d_exp].
  replace (d_exp D + k - d_exp D) with k by lia.
  assert (Hq : Z.of_N (d_int D / 10 ^ Z.to_N k) = Z.abs z * 10 ^ (m - k)).
  { rewrite N2Z.inj_div, HpkN, Hint, Hsplit, Z.mul_assoc, Z.div_mul by lia. done. }
  rewrite Hq. fold m. rewrite Hsplit.
  unfold signed in Hs. destruct (d_sign D); rewrite Hint in Hs; nia.
Qed.

Lemma at_least_positive D : at_least (10 ^ 28) D -> d_sign D = false /\ d_int D <> 0%N.
Proof.
  intros H. set (e := Z.min (d_exp D) (-2)).
  specialize (H e ltac:(unfold e; lia) ltac:(unfold e; lia)).
  pose proof (pow10_pos (-2 - e) ltac:(unfold e; lia)).
  pose proof (pow10_pos (d_exp D - e) ltac:(unfold e; lia)).
  unfold aligned, signed in H. destruct (d_sign D); split; try done; nia.
Qed.

Lemma fix_ctx_at_least D : at_least (10 ^ 28) D -> at_least (10 ^ 28) (fix_ctx D).
Proof.
  intros H.
  destruct (Z.le_gt_cases (ndigits (d_int D)) prec) as [Hsmall|Hbig].
  { by rewrite fix_ctx_small. }
  destruct (at_least_positive D H) as [Hs Hc0].
  pose proof (fix_ctx_exp D ltac:(lia)) as Hexp.
  destruct (fix_ctx_big D ltac:(lia)) as [_ [Hint _]].
  pose proof (ndigits_bounds _ Hc0) as [_ Hhi].
  set (e := Z.min (d_exp D) (-2)).
  pose proof (H e ltac:(unfold e; lia) ltac:(unfold e; lia)) as He.
  unfold aligned, signed in He. rewrite Hs in He.
  (* the value has at least 27 digits before the point *)
  assert (Hnd : 27 <= ndigits (d_int D) + d_exp D).
  { assert (Hlt : 10 ^ (26 - e) < 10 ^ (ndigits (d_int D) + (d_exp D - e))).
    { replace (26 - e) with (28 + (-2 - e)) by lia.
      rewrite !Z.pow_add_r by (pose proof (ndigits_pos (d_int D)); unfold e; lia).
      pose proof (pow10_pos (d_exp D - e) ltac:(unfold e; lia)).
      eapply Z.le_lt_trans; [exact He|]. nia. }
    apply pow10_lt_inv in Hlt; [lia|].
    pose proof (ndigits_pos (d_int D)). unfold e. lia. }
  assert (Hexp' : -1 <= d_exp (fix_ctx D)) by (unfold prec in *; lia).
  apply (at_least_at _ _ (-2)); [lia|lia|].
  unfold aligned, signed. rewrite fix_ctx_sign, Hs.
  change (-2 - -2) with 0. rewrite Z.pow_0_r, Z.mul_1_r.
  assert (10 ^ 1 <= 10 ^ (d_exp (fix_ctx D) - -2)) by (apply Z.pow_le_mono_r; lia).
  change (10 ^ 28) with (10 ^ 27 * 10 ^ 1). unfold prec in Hint. simpl (28 - 1) in Hint.
  apply Z.mul_le_mono_nonneg; lia.
Qed.

End WholeCentsFacts.

Module WholeCentsTotals.
Import Dec Money MoneySpec DecFacts DecSigns MoneyFacts WholeCents WholeCentsFacts.

(** A sum before it is rounded to the context. *)
Lemma add_unrounded a b :
  exists D, Dec.add a b = fix_ctx D /\ d_exp D = Z.min (d_exp a) (d_exp b) /\
            forall e, e <= d_exp D -> aligned D e = aligned a e + aligned b e.
Proof.
  unfold Dec.add. set (e0 := Z.min (d_exp a) (d_exp b)).
  set (z := aligned a e0 + aligned b e0).
  assert (Hshift : forall D, d_exp D = e0 -> signed D = z ->
            forall e, e <= d_exp D -> aligned D e = aligned a e + aligned b e).
  { intros D HD Hs e He. rewrite (aligned_shift a e0 e), (aligned_shift b e0 e)
      by (unfold e0 in *; lia).
    unfold aligned at 1. rewrite Hs, HD. fold z. lia. }
  destruct (Z.eqb_spec z 0) as [Hz|Hz].
  - eexists. split; [reflexivity|]. split; [done|]. apply Hshift; [done|].
    unfold signed. simpl. destruct (_ && _); lia.
  - eexists. split; [reflexivity|]. split; [done|]. apply Hshift; [done|].
    unfold signed. simpl. destruct (Z.ltb_spec z 0); lia.
Qed.

Lemma add_exactly a b za zb :
  exactly za a -> exactly zb b -> Z.abs (za + zb) < 10 ^ 28 ->
  exactly (za + zb) (Dec.add a b).
Proof.
  intros Ha Hb Hfit. destruct (add_unrounded a b) as (D & -> & HeD & HD).
  apply fix_ctx_exactly; [|done].
  set (e := Z.min (d_exp D) (-2)).
  apply (exactly_at _ _ e); [unfold e; lia|unfold e; lia|].
  rewrite HD by (unfold e; lia).
  rewrite (Ha e), (Hb e) by (unfold e; lia). lia.
Qed.

Lemma add_at_least a b za zb :
  at_least za a -> at_least zb b -> 10 ^ 28 <= za + zb ->
  at_least (10 ^ 28) (Dec.add a b).
Proof.
  intros Ha Hb Hbig. destruct (add_unrounded a b) as (D & -> & HeD & HD).
  apply fix_ctx_at_least.
  set (e := Z.min (d_exp D) (-2)).
  apply (at_least_at _ _ e); [unfold e; lia|unfold e; lia|].
  rewrite HD by (unfold e; lia).
  pose proof (Ha e ltac:(unfold e; lia) ltac:(unfold e; lia)).
  pose proof (Hb e ltac:(unfold e; lia) ltac:(unfold e; lia)).
  pose proof (pow10_pos (-2 - e) ltac:(unfold e; lia)). nia.
Qed.

Lemma running_at_least d : running d -> at_least 0 d.
Proof.
  intros [(z & Hz & Hex)|H].
  - eapply exactly_at_least; [exact Hex|lia].
  - intros e He1 He2. specialize (H e He1 He2).
    pose proof (pow10_pos (-2 - e) ltac:(lia)). nia.
Qed.

Lemma running_add a b : running a -> running b -> running (Dec.add a b).
Proof.
  intros Ha Hb.
  destruct Ha as [(za & Hza & Ha)|Ha].
  - destruct Hb as [(zb & Hzb & Hb)|Hb].
    + destruct (Z.lt_ge_cases (za + zb) (10 ^ 28)) as [Hfit|Hbig].
      * left. exists (za + zb). split; [lia|]. apply add_exactly; [done|done|lia].
      * right. apply (add_at_least a b za zb); [|
          |lia]; eapply exactly_at_least; eauto; lia.
    + right. apply (add_at_least a b 0 (10 ^ 28)); [|done|lia].
      eapply exactly_at_least; [exact Ha|lia].
  - right. apply (add_at_least a b (10 ^ 28) 0); [done| |lia].
    by apply running_at_least.
Qed.

Lemma foldl_running xs : forall a,
  running a -> Forall running xs -> running (foldl Dec.add a xs).
Proof.
  induction xs as [|x xs IH]; intros a Ha Hxs; [done|].
  apply Forall_cons in Hxs as [Hx Hxs]. simpl. apply IH; [|done]. by apply running_add.
Qed.

Lemma running_zero_cents : running (mkDecimal false 0 (-2)).
Proof.
  left. exists 0. split; [lia|]. apply (exactly_at _ _ (-2)); simpl; [lia|lia|done].
Qed.

(** The terms of the two sums. *)
Lemma exactly_running z d : 0 <= z -> exactly z d -> running d.
Proof.
  intros Hz H. destruct (Z.lt_ge_cases z (10 ^ 28)).
  - left. exists z. split; [lia|done].
  - right. by eapply exactly_at_least.
Qed.

Lemma exactly_sign z d : exactly z d -> Z.sgn z = Z.sgn (signed d).
Proof.
  intros H. set (e := Z.min (d_exp d) (-2)).
  specialize (H e ltac:(unfold e; lia) ltac:(unfold e; lia)).
  rewrite <- (aligned_sgn d e) by (unfold e; lia). rewrite H.
  pose proof (pow10_pos (-2 - e) ltac:(unfold e; lia)).
  rewrite Z.sgn_mul, (Z.sgn_pos (10 ^ _)) by lia. lia.
Qed.

Lemma positive_running d :
  whole_cents d = true -> gtb d (of_Z 0) = true -> running d.
Proof.
  intros Hw Hpos. apply whole_exactly in Hw.
  apply gtb_zero_positive, signed_pos in Hpos.
  apply exactly_sign in Hw as Hs. rewrite (Z.sgn_pos (signed d)) in Hs by lia.
  apply (exactly_running (cents_value d)); [|done].
  destruct (Z.sgn_spec (cents_value d)) as [[? ?]|[[? ?]|[? ?]]]; lia.
Qed.

Lemma exactly_copy_negate z d : exactly z d -> exactly (- z) (copy_negate d).
Proof.
  intros H e He1 He2. rewrite aligned_copy_negate, (H e) by done. lia.
Qed.

Lemma exactly_copy_abs d : d_int d = 0%N -> exactly 0 (copy_abs d).
Proof.
  intros Hz e He1 He2. unfold aligned, signed, copy_abs. simpl. rewrite Hz. simpl. lia.
Qed.

Lemma abs_running d : whole_cents d = true -> running (Dec.abs d).
Proof.
  intros Hw. apply whole_exactly in Hw. set (z := cents_value d) in *.
  assert (Hpre : exists D, Dec.abs d = fix_ctx D /\ exactly (Z.abs z) D).
  { unfold Dec.abs, neg, pos. pose proof (exactly_sign _ _ Hw) as Hs.
    destruct (is_zero d) eqn:Hz.
    - apply is_zero_true in Hz.
      assert (z = 0).
      { unfold signed in Hs. rewrite Hz in Hs. destruct (d_sign d); simpl in Hs;
          destruct (Z.sgn_spec z) as [[? ?]|[[? ?]|[? ?]]]; lia. }
      exists (copy_abs d). split; [by destruct (d_sign d)|].
      replace (Z.abs z) with 0 by lia. by apply exactly_copy_abs.
    - apply is_zero_false in Hz. unfold signed in Hs.
      destruct (d_sign d) eqn:Hsg.
      + exists (copy_negate d). split; [done|].
        replace (Z.abs z) with (- z); [by apply exactly_copy_negate|].
        destruct (Z.sgn_spec z) as [[? ?]|[[? ?]|[? ?]]]; lia.
      + exists d. split; [done|].
        replace (Z.abs z) with z; [done|].
        destruct (Z.sgn_spec z) as [[? ?]|[[? ?]|[? ?]]]; lia. }
  destruct Hpre as (D & -> & HD).
  destruct (Z.lt_ge_cases (Z.abs z) (10 ^ 28)) as [Hfit|Hbig].
  - left. exists (Z.abs z). split; [lia|]. apply fix_ctx_exactly; [done|lia].
  - right. apply fix_ctx_at_least. by eapply exactly_at_least.
Qed.

(** Quantizing a value worth a whole number of cents. *)
Lemma cents_coeff_exactly z d : exactly z d -> Z.of_N (cents_coeff d) = Z.abs z.
Proof.
  intros H. destruct (Z.le_gt_cases (-2) (d_exp d)) as [He|He].
  - rewrite cents_coeff_exact by done.
    specialize (H (-2) He ltac:(lia)). unfold aligned in H.
    change (-2 - -2) with 0 in H. rewrite Z.pow_0_r, Z.mul_1_r in H.
    replace (d_exp d - -2) with (d_exp d + 2) in H by lia.
    pose proof (pow10_pos (d_exp d + 2) ltac:(lia)).
    rewrite <- H, Z.abs_mul, abs_signed, (Z.abs_eq (10 ^ _)) by lia. done.
  - pose proof (cents_coeff_half d He) as Hh. cbv zeta in Hh.
    specialize (H (d_exp d) ltac:(lia) ltac:(lia)). unfold aligned in H.
    rewrite Z.sub_diag, Z.pow_0_r, Z.mul_1_r in H.
    pose proof (pow10_pos (-2 - d_exp d) ltac:(lia)) as Hp.
    assert (Hi : Z.of_N (d_int d) = Z.abs z * 10 ^ (-2 - d_exp d)).
    { rewrite <- abs_signed, H, Z.abs_mul, (Z.abs_eq (10 ^ _)) by lia. done. }
    rewrite Hi in Hh. nia.
Qed.

Lemma cents_coeff_at_least d : at_least (10 ^ 28) d -> 10 ^ 28 <= Z.of_N (cents_coeff d).
Proof.
  intros H. destruct (at_least_positive d H) as [Hs _].
  destruct (Z.le_gt_cases (-2) (d_exp d)) as [He|He].
  - rewrite cents_coeff_exact by done.
    specialize (H (-2) He ltac:(lia)). unfold aligned, signed in H. rewrite Hs in H.
    change (-2 - -2) with 0 in H. rewrite Z.pow_0_r, Z.mul_1_r in H.
    replace (d_exp d - -2) with (d_exp d + 2) in H by lia. done.
  - pose proof (cents_coeff_half d He) as Hh. cbv zeta in Hh.
    specialize (H (d_exp d) ltac:(lia) ltac:(lia)). unfold aligned, signed in H.
    rewrite Hs, Z.sub_diag, Z.pow_0_r, Z.mul_1_r in H.
    pose proof (pow10_pos (-2 - d_exp d) ltac:(lia)) as Hp. nia.
Qed.

Lemma quantize_exactly z d q :
  exactly z d -> quantize_cents d = Ok q -> d_exp q = -2 /\ signed q = z.
Proof.
  intros H Hq. rewrite quantize_cents_closed in Hq.
  destruct (_ <? _)%N; [|done]. injection Hq as <-. split; [done|].
  pose proof (cents_coeff_exactly z d H) as Hc.
  pose proof (exactly_sign z d H) as Hs.
  unfold signed in *. cbn [d_sign d_int].
  destruct (d_sign d); destruct (Z.sgn_spec z) as [[? ?]|[[? ?]|[? ?]]];
    destruct (Z.sgn_spec (Z.of_N (d_int d))) as [[? ?]|[[? ?]|[? ?]]];
    destruct (Z.sgn_spec (- Z.of_N (d_int d))) as [[? ?]|[[? ?]|[? ?]]]; lia.
Qed.

Lemma quantize_running d q :
  running d -> quantize_cents d = Ok q ->
  exists z, 0 <= z < 10 ^ 28 /\ exactly z d /\ d_exp q = -2 /\ signed q = z.
Proof.
  intros [(z & Hz & Hex)|Hbig] Hq.
  - exists z. split; [done|]. split; [done|]. by eapply quantize_exactly.
  - rewrite quantize_cents_closed in Hq.
    pose proof (cents_coeff_at_least d Hbig) as Hc.
    destruct (N.ltb_spec (cents_coeff d) (10 ^ 28)) as [Hlt|]; [|done].
    apply N2Z.inj_lt in Hlt. rewrite N2Z.inj_pow in Hlt. simpl in Hlt, Hc. lia.
Qed.

Lemma sub_exactly a b za zb :
  exactly za a -> exactly zb b -> Z.abs (za - zb) < 10 ^ 28 ->
  exactly (za - zb) (sub a b).
Proof.
  intros Ha Hb Hfit. unfold sub. replace (za - zb) with (za + - zb) by lia.
  apply add_exactly; [done|by apply exactly_copy_negate|].
  by replace (za + - zb) with (za - zb) by lia.
Qed.

End WholeCentsTotals.

(** * Facts about sorting *)

Section SortFacts.
Context {A : Type}.
Implicit Types (lt : A -> A -> bool) (l : list A).

Lemma insert_sorted_perm lt x l : insert_sorted lt x l ≡ₚ x :: l.
Proof.
  induction l as [|y ys IH]; simpl; [done|].
  destruct (lt y x); [|done].
  rewrite IH. apply perm_swap.
Qed.

Lemma stable_sort_cons lt x l :
  stable_sort lt (x :: l) = insert_sorted lt x (stable_sort lt l).
Proof. reflexivity. Qed.

Lemma stable_sort_perm lt l : stable_sort lt l ≡ₚ l.
Proof.
  induction l as [|x xs IH]; [done|].
  by rewrite stable_sort_cons, insert_sorted_perm, IH.
Qed.

Lemma stable_sort_length lt l : List.length (stable_sort lt l) = List.length l.
Proof. apply Permutation_length, stable_sort_perm. Qed.

Lemma insert_sorted_ext lt lt' x l :
  (forall a b, lt a b = lt' a b) -> insert_sorted lt x l = insert_sorted lt' x l.
Proof. intros E. induction l as [|y ys IH]; simpl; [done|]. by rewrite E, IH. Qed.

Lemma stable_sort_ext lt lt' l :
  (forall a b, lt a b = lt' a b) -> stable_sort lt l = stable_sort lt' l.
Proof.
  intros E. induction l as [|x xs IH]; [done|].
  rewrite !stable_sort_cons, IH. by apply insert_sorted_ext.
Qed.
End SortFacts.

Lemma insert_sorted_fmap {A B} (f : A -> B) (ltA : A -> A -> bool)
    (ltB : B -> B -> bool) x l :
  (forall a b, ltB (f a) (f b) = ltA a b) ->
  insert_sorted ltB (f x) (f <$> l) = f <$> insert_sorted ltA x l.
Proof.
  intros E. induction l as [|y ys IH]; simpl; [done|].
  rewrite E. destruct (ltA y x); simpl; [|done]. f_equal. exact IH.
Qed.

(** Sorting commutes with a map that respects the order: sorting the keyed
    references is sorting the debts. *)
Lemma stable_sort_fmap {A B} (f : A -> B) (ltA : A -> A -> bool)
    (ltB : B -> B -> bool) l :
  (forall a b, ltB (f a) (f b) = ltA a b) ->
  stable_sort ltB (f <$> l) = f <$> stable_sort ltA l.
Proof.
  intros E. induction l as [|x xs IH]; [done|].
  rewrite fmap_cons, !stable_sort_cons, IH. by apply insert_sorted_fmap.
Qed.

(** * The payoff simulation: the store-level code against the value-level steps *)

Module PayoffFacts.
Import Dec Money PlansDebt PayoffSpec DecFacts.

(** ** Running the store monad *)

Lemma bind_run {A B} (m : M A) (k : A -> M B) h :
  (m ≫= k) h =
  match m h with
  | (h', Ok a) => k a h'
  | (h', Raise e) => (h', Raise e)
  end.
Proof. reflexivity. Qed.

Lemma ret_run {A} (a : A) h : (mret a : M A) h = (h, Ok a).
Proof. reflexivity. Qed.

Lemma get_debt_run h l d : h !! l = Some (ODebt d) -> get_debt l h = (h, Ok d).
Proof. intros H. unfold get_debt. by rewrite H. Qed.

Lemma get_list_run h l ls : h !! l = Some (OList ls) -> get_list l h = (h, Ok ls).
Proof. intros H. unfold get_list. by rewrite H. Qed.

Lemma set_balance_run h l d b :
  h !! l = Some (ODebt d) ->
  set_balance l b h = (<[l := ODebt (with_balance d b)]> h, Ok tt).
Proof. intros H. unfold set_balance. by rewrite H. Qed.

Lemma set_list_run h l ls ls' :
  h !! l = Some (OList ls) -> set_list l ls' h = (<[l := OList ls']> h, Ok tt).
Proof. intros H. unfold set_list. by rewrite H. Qed.

(** ** The debts a list of references denotes *)

Lemma debts_at_length h ls ds : debts_at h ls ds -> List.length ls = List.length ds.
Proof. apply Forall2_length. Qed.

Lemma debts_at_insert_other h ls ds l o :
  l ∉ ls -> debts_at h ls ds -> debts_at (<[l := o]> h) ls ds.
Proof.
  intros Hl H. induction H as [|l' d ls ds Hld H IH]; constructor.
  - rewrite lookup_insert_ne; [done|]. intros ->. apply Hl. by left.
  - apply IH. intros Hin. apply Hl. by right.
Qed.

Lemma debts_at_frame h h' ls ds :
  (forall l, l ∈ ls -> h' !! l = h !! l) -> debts_at h ls ds -> debts_at h' ls ds.
Proof.
  intros Hf H. induction H as [|l' d ls ds Hld H IH]; constructor.
  - rewrite Hf; [done|by left].
  - apply IH. intros l Hl. apply Hf. by right.
Qed.

Lemma debts_at_zip h ls ds :
  debts_at h ls ds ->
  Forall (fun p => h !! p.1 = Some (ODebt p.2)) (zip ls ds).
Proof. intros H. induction H; simpl; constructor; done. Qed.

Lemma debts_at_unzip h (ps : list (loc * Debt)) :
  Forall (fun p => h !! p.1 = Some (ODebt p.2)) ps ->
  debts_at h ps.*1 ps.*2.
Proof. intros H. induction H; simpl; constructor; done. Qed.

(** ** Loops that only read *)

Lemma comprehension_read {B} (f : loc -> M B) (g : loc -> Debt -> B) h ls ds :
  (forall l d, h !! l = Some (ODebt d) -> f l h = (h, Ok (g l d))) ->
  debts_at h ls ds ->
  comprehension ls f h = (h, Ok (zip_with g ls ds)).
Proof.
  intros Hf H. induction H as [|l d ls ds Hld H IH]; [done|].
  simpl. rewrite bind_run, (Hf l d Hld), bind_run, IH. done.
Qed.

Lemma any_of_read (p : loc -> M bool) (t : Debt -> bool) h ls ds :
  (forall l d, h !! l = Some (ODebt d) -> p l h = (h, Ok (t d))) ->
  debts_at h ls ds ->
  any_of ls p h = (h, Ok (existsb t ds)).
Proof.
  intros Hp H. induction H as [|l d ls ds Hld H IH]; [done|].
  simpl. rewrite bind_run, (Hp l d Hld). destruct (t d); [done|]. exact IH.
Qed.

Lemma all_of_read (p : loc -> M bool) (t : Debt -> bool) h ls ds :
  (forall l d, h !! l = Some (ODebt d) -> p l h = (h, Ok (t d))) ->
  debts_at h ls ds ->
  all_of ls p h = (h, Ok (forallb t ds)).
Proof.
  intros Hp H. induction H as [|l d ls ds Hld H IH]; [done|].
  simpl. rewrite bind_run, (Hp l d Hld). destruct (t d); [|done]. exact IH.
Qed.

(** ** Loops that update each debt in place

    When the references are pairwise distinct, a loop whose body rewrites
    the debt it visits by [f] maps [f] over the debts. *)

Lemma for_each_update (P : Debt -> Prop) (body : loc -> M unit)
    (f : Debt -> result Debt) :
  (forall l d h h', h !! l = Some (ODebt d) -> P d ->
     body l h = (h', Ok tt) ->
     exists d', f d = Ok d' /\ P d' /\ h' = <[l := ODebt d']> h) ->
  forall ls ds h h',
    NoDup ls -> debts_at h ls ds -> Forall P ds ->
    for_each ls body h = (h', Ok tt) ->
    exists ds', rmapM f ds = Ok ds' /\ debts_at h' ls ds' /\ Forall P ds' /\
                (forall l, l ∉ ls -> h' !! l = h !! l).
Proof.
  intros Hbody ls. induction ls as [|l ls IH]; intros ds h h' Hnd Hat HP Hrun.
  - inversion Hat; subst. simpl in Hrun. injection Hrun as <-.
    exists []. split; [done|]. split; [constructor|]. split; [constructor|done].
  - inversion Hat as [|? d ? ds0 Hld Hat0]; subst.
    apply NoDup_cons in Hnd as [Hl Hnd]. apply Forall_cons in HP as [HPd HP].
    simpl in Hrun. rewrite bind_run in Hrun.
    destruct (body l h) as [h1 [[]|e]] eqn:Hb; [|done].
    destruct (Hbody _ _ _ _ Hld HPd Hb) as (d' & Hf & HPd' & ->).
    destruct (IH ds0 _ _ Hnd (debts_at_insert_other _ _ _ _ _ Hl Hat0) HP Hrun)
      as (ds' & Hmap & Hat' & HP' & Hframe).
    exists (d' :: ds'). split; [|split; [|split]].
    + simpl. rewrite Hf. simpl. rewrite Hmap. done.
    + constructor; [|done]. rewrite Hframe by done. apply lookup_insert_eq.
    + by constructor.
    + intros l0 Hl0. apply not_elem_of_cons in Hl0 as [Hne Hl0].
      rewrite Hframe by done. by apply lookup_insert_ne.
Qed.

(** ** Balances stay at two decimal places

    Once the balance and the minimum payment of a debt are quantized, the
    sums and differences the loop forms are exact, and quantizing them
    again returns them unchanged (or raises, when they outgrow the
    precision). *)

Lemma quantize_cents_exp x y : quantize_cents x = Ok y -> d_exp y = -2.
Proof. intros H. by apply quantize_Ok in H as (? & _). Qed.

Lemma add_raw a b :
  exists D, d_exp D = Z.min (d_exp a) (d_exp b) /\ Dec.add a b = fix_ctx D.
Proof. unfold Dec.add. destruct (_ =? 0); eexists; (split; [|reflexivity]); done. Qed.

Lemma quantize_cents_add a b y :
  d_exp a = -2 -> d_exp b = -2 ->
  quantize_cents (Dec.add a b) = Ok y -> y = Dec.add a b.
Proof.
  intros Ha Hb. destruct (add_raw a b) as (D & HD & ->).
  rewrite Ha, Hb in HD. unfold quantize_cents.
  replace (-2) with (d_exp D) by (rewrite HD; done).
  intros H. apply quantize_fix_ctx_exact in H as [-> ->]. done.
Qed.

Lemma quantize_cents_sub a b y :
  d_exp a = -2 -> d_exp b = -2 -> quantize_cents (sub a b) = Ok y -> y = sub a b.
Proof. intros Ha Hb. unfold sub. by apply quantize_cents_add. Qed.

Lemma min_exp a b e : d_exp a = e -> d_exp b = e -> d_exp (Dec.min a b) = e.
Proof. intros. unfold Dec.min. by destruct (ltb b a). Qed.

Lemma with_balance_quantized d b :
  quantized d -> d_exp b = -2 -> quantized (with_balance d b).
Proof. intros [_ Hm] Hb. split; done. Qed.

(** ** The three passes *)

Lemma leb_zero d : leb d zero = negb (gtb d zero).
Proof. apply leb_zero_r. Qed.

Lemma gtb_zero d : gtb d zero = true <-> gt_zero d.
Proof. apply gtb_zero_positive. Qed.

Lemma apply_interest_sim ls ds h h' :
  NoDup ls -> debts_at h ls ds -> Forall quantized ds ->
  apply_interest ls h = (h', Ok tt) ->
  exists ds', rmapM accrue ds = Ok ds' /\ debts_at h' ls ds' /\
              Forall quantized ds' /\ (forall l, l ∉ ls -> h' !! l = h !! l).
Proof.
  apply for_each_update. clear. intros l d h h' Hld [Hb Hm] Hrun.
  rewrite bind_run, (get_debt_run _ _ _ Hld) in Hrun.
  unfold accrue. simpl in Hrun. rewrite (leb_zero (balance d)) in Hrun.
  destruct (gtb (balance d) zero) eqn:Hpos; simpl in Hrun.
  - change (of_Z 12) with (mkDecimal false 12 0).
    unfold _monthly_rate in Hrun. rewrite bind_run in Hrun. unfold lift at 1 in Hrun.
    destruct (div (apr d) (mkDecimal false 12 0)) as [rate|e]; [|done]. simpl.
    rewrite bind_run in Hrun. unfold lift at 1 in Hrun.
    destruct (quantize_cents (mul (balance d) rate)) as [i|e] eqn:Hi; [|done]. simpl.
    rewrite bind_run in Hrun. unfold lift at 1 in Hrun.
    destruct (quantize_cents (Dec.add (balance d) i)) as [b|e] eqn:Hq; [|done].
    rewrite (set_balance_run _ _ _ _ Hld) in Hrun. injection Hrun as <-.
    pose proof (quantize_cents_exp _ _ Hq) as Hexp.
    apply quantize_cents_add in Hq as ->; [|done|by eapply quantize_cents_exp].
    eexists. split; [done|]. split; [|done].
    by apply with_balance_quantized.
  - injection Hrun as <-. exists d. split; [done|]. split; [done|].
    symmetry. by apply insert_id.
Qed.

Lemma pay_minimums_sim ls ds h h' :
  NoDup ls -> debts_at h ls ds -> Forall quantized ds ->
  pay_minimums ls h = (h', Ok tt) ->
  debts_at h' ls (pay_minimum <$> ds) /\ Forall quantized (pay_minimum <$> ds) /\
  (forall l, l ∉ ls -> h' !! l = h !! l).
Proof.
  intros Hnd Hat HP Hrun.
  destruct (for_each_update quantized
              (fun l => d ← get_debt l;
                 if leb (balance d) zero then mret tt
                 else b ← lift (quantize_cents
                          (sub (balance d) (Dec.min (min_payment d) (balance d))));
                      set_balance l b)
              (fun d => Ok (pay_minimum d))) with (ls := ls) (ds := ds) (h := h) (h' := h')
    as (ds' & Hmap & Hat' & HP' & Hframe); try done.
  - clear. intros l d h h' Hld [Hb Hm] Hrun.
    rewrite bind_run, (get_debt_run _ _ _ Hld) in Hrun. simpl in Hrun.
    unfold pay_minimum. rewrite (leb_zero (balance d)) in Hrun.
    destruct (gtb (balance d) zero) eqn:Hpos; simpl in Hrun.
    + rewrite bind_run in Hrun. unfold lift at 1 in Hrun.
      destruct (quantize_cents _) as [b|e] eqn:Hq; [|done].
      rewrite (set_balance_run _ _ _ _ Hld) in Hrun. injection Hrun as <-.
      pose proof (quantize_cents_exp _ _ Hq) as Hexp.
      apply quantize_cents_sub in Hq as ->; [|done|by apply min_exp].
      eexists. split; [done|]. split; [|done]. by apply with_balance_quantized.
    + injection Hrun as <-. exists d. split; [done|]. split; [done|].
      symmetry. by apply insert_id.
  - assert (ds' = pay_minimum <$> ds) as ->; [|done].
    clear -Hmap. revert ds' Hmap. induction ds as [|d ds IH]; intros ds' Hmap.
    + by injection Hmap as <-.
    + simpl in Hmap. destruct (rmapM _ ds) as [ds0|e]; [|done].
      injection Hmap as <-. rewrite fmap_cons. f_equal. by apply IH.
Qed.

Lemma pay_extra_done ds rem : gtb rem zero = false -> pay_extra ds rem = ds.
Proof.
  intros H. induction ds as [|d ds IH]; simpl; [done|].
  rewrite H, andb_false_r. by rewrite IH.
Qed.

Lemma apply_extra_sim ls : forall ds rem h h',
  NoDup ls -> debts_at h ls ds -> Forall quantized ds -> d_exp rem = -2 ->
  apply_extra ls rem h = (h', Ok tt) ->
  debts_at h' ls (pay_extra ds rem) /\ Forall quantized (pay_extra ds rem) /\
  (forall l, l ∉ ls -> h' !! l = h !! l).
Proof.
  induction ls as [|l ls IH]; intros ds rem h h' Hnd Hat HP Hrem Hrun.
  - inversion Hat; subst. simpl in *. injection Hrun as <-. done.
  - inversion Hat as [|? d ? ds0 Hld Hat0]; subst.
    apply NoDup_cons in Hnd as [Hl Hnd]. apply Forall_cons in HP as [[Hb Hm] HP].
    simpl in Hrun. rewrite (leb_zero rem) in Hrun.
    destruct (gtb rem zero) eqn:Hrpos; simpl in Hrun.
    2:{ injection Hrun as <-. rewrite pay_extra_done by done.
        split; [done|]. split; [|done]. by constructor. }
    rewrite bind_run, (get_debt_run _ _ _ Hld) in Hrun. simpl in Hrun.
    rewrite (leb_zero (balance d)) in Hrun. simpl. rewrite Hrpos, andb_true_r.
    destruct (gtb (balance d) zero) eqn:Hpos; simpl in Hrun.
    + rewrite bind_run in Hrun. unfold lift at 1 in Hrun.
      destruct (quantize_cents (sub (balance d) _)) as [b|e] eqn:Hq; [|done].
      rewrite bind_run, (set_balance_run _ _ _ _ Hld) in Hrun.
      rewrite bind_run in Hrun. unfold lift at 1 in Hrun.
      destruct (quantize_cents (sub rem _)) as [rem'|e] eqn:Hq'; [|done].
      pose proof (quantize_cents_exp _ _ Hq) as Hexp.
      pose proof (quantize_cents_exp _ _ Hq') as Hexp'.
      apply quantize_cents_sub in Hq as ->; [|done|by apply min_exp].
      apply quantize_cents_sub in Hq' as ->; [|done|by apply min_exp].
      destruct (IH ds0 _ _ _ Hnd (debts_at_insert_other _ _ _ _ _ Hl Hat0) HP Hexp' Hrun)
        as (Hat' & HP' & Hframe).
      split; [|split].
      * constructor; [|done]. rewrite Hframe by done. apply lookup_insert_eq.
      * constructor; [|done]. by apply with_balance_quantized.
      * intros l0 Hl0. apply not_elem_of_cons in Hl0 as [Hne Hl0].
        rewrite Hframe by done. by apply lookup_insert_ne.
    + destruct (IH ds0 _ _ _ Hnd Hat0 HP Hrem Hrun) as (Hat' & HP' & Hframe).
      split; [|split].
      * constructor; [|done]. by rewrite Hframe.
      * by constructor.
      * intros l0 Hl0. apply not_elem_of_cons in Hl0 as [Hne Hl0]. by apply Hframe.
Qed.

(** ** Sorting in place *)

Lemma key_lt_precedes method a b :
  key_lt (sort_key method a) (sort_key method b) = precedes method a b.
Proof.
  unfold key_lt, sort_key, precedes, descends, ties_descending, eqb, ltb.
  destruct (String.eqb method "avalanche"); simpl.
  - destruct (cmp (neg (apr a)) (neg (apr b))); simpl; done.
  - destruct (cmp (balance a) (balance b)); simpl; done.
Qed.

Lemma zip_with_zip {A B C} (g : A -> B -> C) (l : list A) (k : list B) :
  zip_with g l k = (fun p => g p.1 p.2) <$> zip l k.
Proof.
  revert k. induction l as [|x l IH]; intros [|y k]; simpl; [done..|].
  by rewrite IH.
Qed.

Lemma sort_debts_sim debts method h ls ds :
  h !! debts = Some (OList ls) -> debts_at h ls ds ->
  exists ls',
    sort_debts debts method h = (<[debts := OList ls']> h, Ok tt) /\
    ls' ≡ₚ ls /\
    debts_at (<[debts := OList ls']> h) ls' (resort method ds).
Proof.
  intros HL Hat.
  pose proof (debts_at_length _ _ _ Hat) as Hlen.
  set (ltP := fun p q : loc * Debt => precedes method p.2 q.2).
  set (sorted := stable_sort ltP (zip ls ds)).
  assert (Hperm : sorted ≡ₚ zip ls ds) by apply stable_sort_perm.
  exists sorted.*1.
  assert (Hls : sorted.*1 ≡ₚ ls).
  { rewrite Hperm. rewrite fst_zip; [done|lia]. }
  assert (Hds : sorted.*2 = resort method ds).
  { unfold resort, sorted.
    rewrite <- (stable_sort_fmap snd ltP (precedes method)) by done.
    rewrite snd_zip; [done|lia]. }
  split; [|split; [done|]].
  - unfold sort_debts.
    rewrite bind_run, (get_list_run _ _ _ HL), bind_run.
    rewrite (comprehension_read _ (fun l d => (sort_key method d, l)) h ls ds); [|
      intros l d Hld; by rewrite bind_run, (get_debt_run _ _ _ Hld) | done].
    rewrite (set_list_run _ _ ls) by done.
    do 3 f_equal.
    rewrite zip_with_zip.
    rewrite (stable_sort_fmap (fun p : loc * Debt => (sort_key method p.2, p.1)) ltP).
    + rewrite <- list_fmap_compose. done.
    + intros a b. simpl. apply key_lt_precedes.
  - rewrite <- Hds. apply debts_at_insert_other.
    + intros Hin. rewrite Hls in Hin.
      apply list_elem_of_lookup in Hin as [i Hi].
      destruct (Forall2_lookup_l _ _ _ _ _ Hat Hi) as (d & _ & Hd). congruence.
    + apply debts_at_unzip. rewrite Hperm. by apply debts_at_zip.
Qed.

(** ** What a loop leaves alone, whether it completes or raises *)

Lemma set_balance_frame l b h l0 :
  l0 <> l -> (set_balance l b h).1 !! l0 = h !! l0.
Proof.
  intros Hne. unfold set_balance. destruct (h !! l) as [[d|ls]|]; simpl; [|done..].
  by rewrite lookup_insert_ne.
Qed.

Lemma for_each_frame (body : loc -> M unit) :
  (forall l h l0, l0 <> l -> (body l h).1 !! l0 = h !! l0) ->
  forall ls h l0, l0 ∉ ls -> (for_each ls body h).1 !! l0 = h !! l0.
Proof.
  intros Hbody ls. induction ls as [|l ls IH]; intros h l0 Hl0; [done|].
  apply not_elem_of_cons in Hl0 as [Hne Hl0].
  simpl. rewrite bind_run. specialize (Hbody l h l0 Hne).
  destruct (body l h) as [h1 [[]|e]]; simpl in *; [|done].
  by rewrite IH.
Qed.

Lemma apply_interest_frame ls h l0 :
  l0 ∉ ls -> (apply_interest ls h).1 !! l0 = h !! l0.
Proof.
  apply for_each_frame. clear. intros l h l0 Hne.
  rewrite bind_run. unfold get_debt. destruct (h !! l) as [[d|?]|] eqn:Hl; [|done..].
  destruct (leb _ _); [done|].
  rewrite bind_run. unfold lift at 1. destruct (_monthly_rate _); [|done].
  rewrite bind_run. unfold lift at 1. destruct (quantize_cents _); [|done].
  rewrite bind_run. unfold lift at 1. destruct (quantize_cents _); [|done].
  by apply set_balance_frame.
Qed.

Lemma pay_minimums_frame ls h l0 :
  l0 ∉ ls -> (pay_minimums ls h).1 !! l0 = h !! l0.
Proof.
  apply for_each_frame. clear. intros l h l0 Hne.
  rewrite bind_run. unfold get_debt. destruct (h !! l) as [[d|?]|] eqn:Hl; [|done..].
  destruct (leb _ _); [done|].
  rewrite bind_run. unfold lift at 1. destruct (quantize_cents _); [|done].
  by apply set_balance_frame.
Qed.

Lemma apply_extra_frame ls : forall rem h l0,
  l0 ∉ ls -> (apply_extra ls rem h).1 !! l0 = h !! l0.
Proof.
  induction ls as [|l ls IH]; intros rem h l0 Hl0; [done|].
  apply not_elem_of_cons in Hl0 as [Hne Hl0]. simpl.
  destruct (leb rem zero); [done|].
  rewrite bind_run. unfold get_debt. destruct (h !! l) as [[d|?]|] eqn:Hl; [|done..].
  destruct (leb _ _); [by apply IH|].
  rewrite bind_run. unfold lift at 1. destruct (quantize_cents _); [|done].
  rewrite bind_run. pose proof (set_balance_frame l a h l0 Hne) as Hs.
  destruct (set_balance l a h) as [h1 [[]|e]]; simpl in *; [|done].
  rewrite bind_run. unfold lift at 1. destruct (quantize_cents _); [|done].
  by rewrite IH.
Qed.

(** ** One month *)

Lemma live_list_not_debt h debts ls ds : live h debts ls ds -> debts ∉ ls.
Proof.
  intros (HL & _ & Hat & _) Hin.
  apply list_elem_of_lookup in Hin as [i Hi].
  destruct (Forall2_lookup_l _ _ _ _ _ Hat Hi) as (d & _ & Hd). congruence.
Qed.

Lemma snapshot_read month h ls ds :
  debts_at h ls ds -> snapshot month ls h = (h, Ok (snapshot_of month ds)).
Proof.
  intros Hat. unfold snapshot. rewrite bind_run.
  rewrite (comprehension_read _ (fun _ d => (name d, VStr (to_str (balance d)))) h ls ds);
    [|intros l d Hld; by rewrite bind_run, (get_debt_run _ _ _ Hld) | done].
  rewrite ret_run. unfold snapshot_of. do 3 f_equal.
  clear -Hat. induction Hat; simpl; [done|]. by f_equal.
Qed.

Lemma month_body_sim debts extra method month h ls ds h' snap :
  live h debts ls ds -> d_exp extra = -2 ->
  month_body debts extra method month h = (h', Ok snap) ->
  exists ls' ds',
    live h' debts ls' ds' /\ ls' ≡ₚ ls /\
    month_step method extra ds = Ok ds' /\
    snap = snapshot_of month ds'.
Proof.
  intros Hlive Hextra Hrun. destruct Hlive as (HL & Hnd & Hat & HP).
  destruct (sort_debts_sim debts method h ls ds HL Hat) as (ls1 & Hsort & Hperm & Hat1).
  unfold month_body in Hrun. rewrite bind_run, Hsort in Hrun.
  set (h1 := <[debts := OList ls1]> h) in *.
  assert (HL1 : h1 !! debts = Some (OList ls1)) by apply lookup_insert_eq.
  assert (Hnd1 : NoDup ls1) by (by rewrite Hperm).
  assert (HP1 : Forall quantized (resort method ds)).
  { unfold resort. by rewrite stable_sort_perm. }
  assert (Hnot : debts ∉ ls1) by (by apply (live_list_not_debt h1 debts ls1 (resort method ds))).
  rewrite bind_run, (get_list_run _ _ _ HL1), bind_run in Hrun.
  destruct (apply_interest ls1 h1) as [h2 [[]|e]] eqn:Hint; [|done].
  destruct (apply_interest_sim _ _ _ _ Hnd1 Hat1 HP1 Hint) as (ds2 & Hacc & Hat2 & HP2 & Hf2).
  rewrite bind_run in Hrun.
  destruct (pay_minimums ls1 h2) as [h3 [[]|e]] eqn:Hmin; [|done].
  destruct (pay_minimums_sim _ _ _ _ Hnd1 Hat2 HP2 Hmin) as (Hat3 & HP3 & Hf3).
  rewrite bind_run in Hrun.
  destruct (apply_extra ls1 extra h3) as [h4 [[]|e]] eqn:Hext; [|done].
  destruct (apply_extra_sim _ _ _ _ _ Hnd1 Hat3 HP3 Hextra Hext) as (Hat4 & HP4 & Hf4).
  rewrite (snapshot_read _ _ _ _ Hat4) in Hrun. injection Hrun as <- <-.
  exists ls1, (pay_extra (pay_minimum <$> ds2) extra).
  split; [|split; [done|split; [|done]]].
  - split; [|done]. by rewrite Hf4, Hf3, Hf2.
  - unfold month_step. by rewrite Hacc.
Qed.

(** The month leaves every object but the list and its debts alone, also
    when it raises. *)
Lemma month_body_frame debts extra method month h ls ds l0 :
  live h debts ls ds -> l0 <> debts -> l0 ∉ ls ->
  (month_body debts extra method month h).1 !! l0 = h !! l0.
Proof.
  intros Hlive Hne Hl0. pose proof Hlive as (HL & Hnd & Hat & HP).
  destruct (sort_debts_sim debts method h ls ds HL Hat) as (ls1 & Hsort & Hperm & Hat1).
  unfold month_body. rewrite bind_run, Hsort.
  set (h1 := <[debts := OList ls1]> h) in *.
  assert (HL1 : h1 !! debts = Some (OList ls1)) by apply lookup_insert_eq.
  assert (Hl1 : l0 ∉ ls1) by (by rewrite Hperm).
  assert (H1 : h1 !! l0 = h !! l0) by (by apply lookup_insert_ne).
  rewrite bind_run, (get_list_run _ _ _ HL1), bind_run.
  pose proof (apply_interest_frame ls1 h1 l0 Hl1) as F2.
  destruct (apply_interest ls1 h1) as [h2 [[]|e]]; simpl in F2; [|simpl; congruence].
  rewrite bind_run.
  pose proof (pay_minimums_frame ls1 h2 l0 Hl1) as F3.
  destruct (pay_minimums ls1 h2) as [h3 [[]|e]]; simpl in F3; [|simpl; congruence].
  rewrite bind_run.
  pose proof (apply_extra_frame ls1 extra h3 l0 Hl1) as F4.
  destruct (apply_extra ls1 extra h3) as [h4 [[]|e]]; simpl in F4; [|simpl; congruence].
  unfold snapshot. rewrite bind_run.
  assert (Hro : forall ls0 h0, (comprehension ls0
            (fun l => d ← get_debt l; mret (name d, VStr (to_str (balance d)))) h0).1 = h0).
  { clear. induction ls0 as [|l ls0 IH]; intros h0; [done|].
    simpl. rewrite bind_run, bind_run. unfold get_debt.
    destruct (h0 !! l) as [[d|?]|]; [|done..]. simpl. rewrite bind_run.
    specialize (IH h0). destruct (comprehension _ _ h0) as [hx [ys|e]]; simpl in *; by subst. }
  specialize (Hro ls1 h4). destruct (comprehension _ _ h4) as [h5 [ys|e]]; simpl in *; subst;
    congruence.
Qed.

End PayoffFacts.

(** * The payoff simulation: the loop and the whole call *)

Module PayoffLoop.
Import Dec Money PlansDebt PayoffSpec DecFacts PayoffFacts.

Lemma after_months_S method extra ds n s :
  after_months method extra ds n = Ok s ->
  after_months method extra ds (S n) = month_step method extra s.
Proof. intros H. simpl. by rewrite H. Qed.

Lemma exists_positive_all_paid ds :
  existsb (fun d => gtb (balance d) zero) ds = negb (all_paid_off ds).
Proof.
  unfold all_paid_off. induction ds as [|d ds IH]; [done|].
  simpl. rewrite IH, leb_zero. by destruct (gtb _ _).
Qed.

Lemma any_positive_read h debts ls ds :
  live h debts ls ds -> any_positive debts h = (h, Ok (negb (all_paid_off ds))).
Proof.
  intros (HL & _ & Hat & _). unfold any_positive.
  rewrite bind_run, (get_list_run _ _ _ HL).
  rewrite (any_of_read _ (fun d => gtb (balance d) zero) h ls ds);
    [|intros l d Hld; by rewrite bind_run, (get_debt_run _ _ _ Hld) | done].
  by rewrite exists_positive_all_paid.
Qed.

Lemma all_paid_read h debts ls ds :
  live h debts ls ds -> all_paid debts h = (h, Ok (all_paid_off ds)).
Proof.
  intros (HL & _ & Hat & _). unfold all_paid.
  rewrite bind_run, (get_list_run _ _ _ HL).
  by rewrite (all_of_read _ (fun d => leb (balance d) zero) h ls ds);
    [|intros l d Hld; by rewrite bind_run, (get_debt_run _ _ _ Hld) | done].
Qed.

Lemma while_loop_unfold fuel debts extra method month schedule :
  while_loop fuel debts extra method month schedule =
  if negb (month <? max_months) then mret (Some (month, schedule))
  else
    any_positive debts ≫= fun go : bool =>
    if negb go then mret (Some (month, schedule))
    else
      match fuel with
      | O => mret None
      | S fuel' =>
          month_body debts extra method (month + 1) ≫= fun snap =>
          while_loop fuel' debts extra method (month + 1) (schedule ++ [snap])
      end.
Proof. destruct fuel; reflexivity. Qed.

Section Loop.
Variables (method : string) (extra : Decimal) (ds0 : list Debt) (debts : loc).
Hypothesis Hextra : d_exp extra = -2.

Lemma while_loop_sim : forall fuel m schedule h ls ds h' out,
  live h debts ls ds ->
  after_months method extra ds0 m = Ok ds ->
  (m <= 600)%nat -> (600 - m <= fuel)%nat ->
  while_loop fuel debts extra method (Z.of_nat m) schedule h = (h', Ok out) ->
  exists n ls' ds' snaps,
    out = Some (Z.of_nat n, schedule ++ snaps) /\ (m <= n <= 600)%nat /\
    after_months method extra ds0 n = Ok ds' /\
    live h' debts ls' ds' /\ ls' ≡ₚ ls /\
    List.length snaps = (n - m)%nat /\
    (forall i, (m <= i < n)%nat ->
       exists s s', after_months method extra ds0 i = Ok s /\
                    all_paid_off s = false /\
                    month_step method extra s = Ok s' /\
                    Forall quantized s' /\
                    snaps !! (i - m)%nat = Some (snapshot_of (Z.of_nat i + 1) s')) /\
    (n = 600%nat \/ all_paid_off ds' = true).
Proof.
  assert (Hstop : forall m schedule h ls ds,
    live h debts ls ds -> after_months method extra ds0 m = Ok ds ->
    (m <= 600)%nat -> (m = 600%nat \/ all_paid_off ds = true) ->
    exists n ls' ds' snaps,
      Some (Z.of_nat m, schedule) = Some (Z.of_nat n, schedule ++ snaps) /\
      (m <= n <= 600)%nat /\
      after_months method extra ds0 n = Ok ds' /\
      live h debts ls' ds' /\ ls' ≡ₚ ls /\
      List.length snaps = (n - m)%nat /\
      (forall i, (m <= i < n)%nat ->
         exists s s', after_months method extra ds0 i = Ok s /\
                      all_paid_off s = false /\
                      month_step method extra s = Ok s' /\
                      Forall quantized s' /\
                      snaps !! (i - m)%nat = Some (snapshot_of (Z.of_nat i + 1) s')) /\
      (n = 600%nat \/ all_paid_off ds' = true)).
  { intros m schedule h ls ds Hlive Hm Hle Hor.
    exists m, ls, ds, []. rewrite app_nil_r.
    split; [done|]. split; [lia|]. split; [done|]. split; [done|]. split; [done|].
    split; [simpl; lia|]. split; [|done]. intros i Hi. lia. }
  induction fuel as [|fuel IH]; intros m schedule h ls ds h' out Hlive Hm Hle Hfuel Hrun;
    rewrite while_loop_unfold in Hrun; unfold max_months in Hrun.
  - (* no fuel is needed only at the cap *)
    assert (m = 600)%nat as -> by lia. simpl in Hrun. injection Hrun as <- <-.
    apply (Hstop _ _ _ ls ds); auto.
  - destruct (Z.ltb_spec (Z.of_nat m) 600) as [Hlt|Hge]; simpl in Hrun.
    2:{ injection Hrun as <- <-. apply (Hstop _ _ _ ls ds); auto. left. lia. }
    rewrite bind_run, (any_positive_read _ _ _ _ Hlive) in Hrun.
    rewrite negb_involutive in Hrun.
    destruct (all_paid_off ds) eqn:Hpaid.
    { injection Hrun as <- <-. apply (Hstop _ _ _ ls ds); auto. }
    rewrite bind_run in Hrun.
    destruct (month_body debts extra method (Z.of_nat m + 1) h) as [h1 [snap|e]] eqn:Hbody;
      [|done].
    destruct (month_body_sim _ _ _ _ _ _ _ _ _ Hlive Hextra Hbody)
      as (ls1 & ds1 & Hlive1 & Hperm1 & Hstep & ->).
    replace (Z.of_nat m + 1) with (Z.of_nat (S m)) in Hrun by lia.
    assert (Hm1 : after_months method extra ds0 (S m) = Ok ds1).
    { by rewrite (after_months_S _ _ _ _ _ Hm). }
    destruct (IH (S m) _ _ _ _ _ _ Hlive1 Hm1 ltac:(lia) ltac:(lia) Hrun)
      as (n & ls' & ds' & snaps & -> & Hn & Hafter & Hlive' & Hperm' & Hlen & Hsnaps & Hend).
    exists n, ls', ds', (snapshot_of (Z.of_nat (S m)) ds1 :: snaps).
    split; [by rewrite <- app_assoc|]. split; [lia|]. split; [done|].
    split; [done|]. split; [by rewrite Hperm'|]. split; [simpl; lia|].
    split; [|done].
    intros i Hi. destruct (decide (i = m)) as [->|Hne].
    + exists ds, ds1. rewrite Nat.sub_diag.
      replace (Z.of_nat m + 1) with (Z.of_nat (S m)) by lia.
      split; [done|]. split; [done|]. split; [done|]. split; [|done].
      by destruct Hlive1 as (_ & _ & _ & ?).
    + destruct (Hsnaps i ltac:(lia)) as (s & s' & H1 & H2 & H3 & H4 & H5).
      exists s, s'. split; [done|]. split; [done|]. split; [done|]. split; [done|].
      replace (i - m)%nat with (S (i - S m)) by lia. done.
Qed.

(** The loop leaves every object but the list and its debts alone. *)
Lemma while_loop_frame : forall fuel month schedule h ls ds l0,
  live h debts ls ds -> l0 <> debts -> l0 ∉ ls ->
  (while_loop fuel debts extra method month schedule h).1 !! l0 = h !! l0.
Proof.
  induction fuel as [|fuel IH]; intros month schedule h ls ds l0 Hlive Hne Hl0;
    rewrite while_loop_unfold.
  - destruct (negb _); [done|].
    rewrite bind_run, (any_positive_read _ _ _ _ Hlive). by destruct (negb _).
  - destruct (negb _); [done|].
    rewrite bind_run, (any_positive_read _ _ _ _ Hlive).
    destruct (negb (negb _)); [done|].
    rewrite bind_run.
    pose proof (month_body_frame debts extra method (month + 1) h ls ds l0 Hlive Hne Hl0) as F.
    destruct (month_body debts extra method (month + 1) h) as [h1 [snap|e]] eqn:Hbody;
      simpl in F; [|done].
    destruct (month_body_sim _ _ _ _ _ _ _ _ _ Hlive Hextra Hbody)
      as (ls1 & ds1 & Hlive1 & Hperm1 & _).
    rewrite (IH _ _ _ ls1 ds1); [done..|]. by rewrite Hperm1.
Qed.

(** With [max_months] of fuel the loop never runs dry, whatever the store
    holds. *)
Lemma while_loop_fuel : forall fuel month schedule h,
  600 - month <= Z.of_nat fuel ->
  (while_loop fuel debts extra method month schedule h).2 <> Ok None.
Proof.
  induction fuel as [|fuel IH]; intros month schedule h Hfuel;
    rewrite while_loop_unfold; unfold max_months.
  - destruct (Z.ltb_spec month 600); [lia|]. done.
  - destruct (Z.ltb_spec month 600); [|done]. simpl.
    rewrite bind_run. destruct (any_positive debts h) as [h1 [[]|e]]; simpl; [|done..].
    rewrite bind_run. destruct (month_body _ _ _ _ h1) as [h2 [snap|e]]; [|done].
    apply IH. lia.
Qed.
End Loop.

(** ** The defensive copy *)

Lemma debts_at_weaken h h' ls ds : h ⊆ h' -> debts_at h ls ds -> debts_at h' ls ds.
Proof.
  intros Hsub H. induction H as [|l d ls ds Hld H IH]; constructor; [|done].
  by eapply lookup_weaken.
Qed.

Lemma debts_at_inj h ls ds ds' : debts_at h ls ds -> debts_at h ls ds' -> ds = ds'.
Proof.
  intros H. revert ds'. induction H as [|l d ls ds Hld H IH]; intros ds' H';
    inversion H' as [|? d' ? ds0' Hld' H0']; subst; [done|].
  f_equal; [congruence|by apply IH].
Qed.

Lemma fresh_lookup (h : heap) : h !! fresh (dom h) = None.
Proof. apply not_elem_of_dom, is_fresh. Qed.

Lemma alloc_run o h : alloc o h = (<[fresh (dom h) := o]> h, Ok (fresh (dom h))).
Proof. reflexivity. Qed.

Lemma alloc_subseteq o (h : heap) : h ⊆ <[fresh (dom h) := o]> h.
Proof. apply insert_subseteq, fresh_lookup. Qed.

Lemma copy_debt_run h l d :
  h !! l = Some (ODebt d) ->
  copy_debt l h =
  match copy_of d with
  | Ok c => (<[fresh (dom h) := ODebt c]> h, Ok (fresh (dom h)))
  | Raise e => (h, Raise e)
  end.
Proof.
  intros Hld. unfold copy_debt, copy_of, to_decimal.
  rewrite bind_run, (get_debt_run _ _ _ Hld), bind_run. unfold lift at 1.
  destruct (quantize_cents (balance d)) as [b|e]; [|done]. simpl.
  rewrite bind_run. unfold lift at 1.
  destruct (quantize_cents (min_payment d)) as [m|e]; [|done]. done.
Qed.

Lemma copy_of_quantized d c : copy_of d = Ok c -> quantized c.
Proof.
  unfold copy_of. destruct (quantize_cents (balance d)) as [b|e] eqn:Hb; [|done]. simpl.
  destruct (quantize_cents (min_payment d)) as [m|e] eqn:Hm; [|done]. simpl.
  intros [= <-]. split; simpl; by eapply quantize_cents_exp.
Qed.

(** The copies are new objects: none of their references was in use. *)
Lemma copy_all ls : forall h h1 copies,
  comprehension ls copy_debt h = (h1, Ok copies) ->
  exists ds0,
    debts_at h1 copies ds0 /\ NoDup copies /\
    Forall (fun l => l ∉ dom h) copies /\ h ⊆ h1 /\ Forall quantized ds0 /\
    (forall ds, debts_at h ls ds -> rmapM copy_of ds = Ok ds0).
Proof.
  induction ls as [|l ls IH]; intros h h1 copies Hrun.
  - simpl in Hrun. injection Hrun as <- <-. exists [].
    split; [constructor|]. split; [constructor|]. split; [constructor|].
    split; [done|]. split; [constructor|].
    intros ds Hat. by inversion Hat.
  - simpl in Hrun. rewrite bind_run in Hrun.
    destruct (h !! l) as [[d|?]|] eqn:Hld;
      [|unfold copy_debt in Hrun; rewrite bind_run in Hrun; unfold get_debt in Hrun;
        rewrite Hld in Hrun; done..].
    rewrite (copy_debt_run _ _ _ Hld) in Hrun.
    destruct (copy_of d) as [c|e] eqn:Hc; [|done].
    set (l' := fresh (dom h)) in *. set (h' := <[l' := ODebt c]> h) in *.
    rewrite bind_run in Hrun.
    destruct (comprehension ls copy_debt h') as [h2 [copies'|e]] eqn:Hrest; [|done].
    injection Hrun as <- <-.
    destruct (IH _ _ _ Hrest) as (ds0 & Hat1 & Hnd & Hfresh & Hsub & HQ & Hval).
    assert (Hsub0 : h ⊆ h') by apply alloc_subseteq.
    assert (Hl' : h' !! l' = Some (ODebt c)) by apply lookup_insert_eq.
    exists (c :: ds0).
    split; [constructor; [by eapply lookup_weaken|done]|].
    split.
    { constructor; [|done]. intros Hin.
      rewrite Forall_forall in Hfresh. apply (Hfresh _ Hin).
      apply elem_of_dom. by eexists. }
    split.
    { constructor; [apply is_fresh|]. eapply Forall_impl; [exact Hfresh|].
      intros x Hx Hin. apply Hx. by eapply (subseteq_dom h h'). }
    split; [by etrans|].
    split; [constructor; [by eapply copy_of_quantized|done]|].
    intros ds Hat. inversion Hat as [|? d' ? ds' Hld' Hat']; subst.
    assert (d' = d) as -> by congruence.
    simpl. rewrite Hc. simpl.
    rewrite (Hval ds'); [done|]. by eapply debts_at_weaken.
Qed.

Lemma copy_all_keeps ls : forall h, h ⊆ (comprehension ls copy_debt h).1.
Proof.
  induction ls as [|l ls IH]; intros h; [done|].
  simpl. rewrite bind_run.
  destruct (h !! l) as [[d|?]|] eqn:Hld;
    [|unfold copy_debt; rewrite bind_run; unfold get_debt; rewrite Hld; done..].
  rewrite (copy_debt_run _ _ _ Hld).
  destruct (copy_of d) as [c|e]; [|done].
  rewrite bind_run. specialize (IH (<[fresh (dom h) := ODebt c]> h)).
  pose proof (alloc_subseteq (ODebt c) h) as Hsub.
  destruct (comprehension ls copy_debt _) as [h2 [copies|e]]; simpl in *; by etrans.
Qed.

(** Loops that only read leave the store as it is. *)
Lemma all_paid_store debts h : (all_paid debts h).1 = h.
Proof.
  unfold all_paid. rewrite bind_run. unfold get_list.
  destruct (h !! debts) as [[?|ls]|]; [done| |done].
  induction ls as [|l ls IH]; [done|].
  simpl. rewrite bind_run, bind_run. unfold get_debt.
  destruct (h !! l) as [[d|?]|]; [|done..]. simpl.
  destruct (leb _ _); [exact IH|done].
Qed.

(** ** The whole call *)

Lemma payoff_plan_sim h debts ls ds extra method h' out :
  h !! debts = Some (OList ls) -> debts_at h ls ds ->
  payoff_plan debts extra method h = (h', Ok out) ->
  exists r ds0 extra0 n final,
    out = Some r /\ run_of method ds extra r ds0 extra0 n final.
Proof.
  intros HL Hat Hrun. unfold payoff_plan, payoff_plan_fuel in Hrun.
  rewrite bind_run, (get_list_run _ _ _ HL), bind_run in Hrun.
  destruct (comprehension ls copy_debt h) as [h1 [copies|e]] eqn:Hcopy; [|done].
  destruct (copy_all _ _ _ _ Hcopy) as (ds0 & Hat1 & Hnd & Hfresh & Hsub & HQ & Hval).
  specialize (Hval ds Hat).
  rewrite bind_run, alloc_run, bind_run in Hrun. unfold lift at 1, to_decimal in Hrun.
  destruct (quantize_cents extra) as [extra0|e] eqn:Hextra; [|done].
  set (L := fresh (dom h1)) in *. set (h2 := <[L := OList copies]> h1) in *.
  assert (Hlive : live h2 L copies ds0).
  { split; [apply lookup_insert_eq|]. split; [done|]. split; [|done].
    eapply debts_at_weaken; [apply alloc_subseteq|done]. }
  rewrite bind_run in Hrun.
  destruct (while_loop _ L extra0 method 0 [] h2) as [h3 [[[month schedule]|]|e]] eqn:Hloop;
    [| |done].
  2:{ exfalso. pose proof (while_loop_fuel method extra0 L (Z.to_nat max_months) 0 [] h2) as Hf.
      rewrite Hloop in Hf. apply Hf; [|done]. unfold max_months. lia. }
  destruct (while_loop_sim method extra0 ds0 L (quantize_cents_exp _ _ Hextra)
              (Z.to_nat max_months) 0%nat [] h2 copies ds0 h3 _ Hlive eq_refl
              ltac:(lia) ltac:(unfold max_months; lia) Hloop)
    as (n & ls' & final & snaps & Hout & Hn & Hfinal & Hlive' & Hperm & Hlen & Hmonths & Hstop).
  injection Hout as -> ->.
  rewrite bind_run, (all_paid_read _ _ _ _ Hlive') in Hrun.
  injection Hrun as <- <-.
  eexists _, ds0, extra0, n, final. split; [done|].
  split; simpl; try done; try lia.
  intros i Hi. destruct (Hmonths i ltac:(lia)) as (s & s' & H1 & H2 & H3 & H4 & H5).
  exists s, s'. rewrite Nat.sub_0_r in H5. done.
Qed.

(** [payoff_plan] always comes back with a result or an exception: the
    fuel is enough on every store. *)
Lemma payoff_plan_total h debts extra method :
  (payoff_plan debts extra method h).2 <> Ok None.
Proof.
  unfold payoff_plan, payoff_plan_fuel.
  rewrite bind_run. destruct (get_list debts h) as [h0 [ls|e]]; [|done].
  rewrite bind_run. destruct (comprehension ls copy_debt h0) as [h1 [copies|e]]; [|done].
  rewrite bind_run, alloc_run, bind_run. unfold lift at 1.
  destruct (quantize_cents _) as [extra0|e]; [|done].
  rewrite bind_run.
  pose proof (while_loop_fuel method extra0 (fresh (dom h1)) (Z.to_nat max_months) 0 []
                (<[fresh (dom h1) := OList copies]> h1)) as Hf.
  destruct (while_loop _ _ _ _ _ _ _) as [h3 [[[month schedule]|]|e]]; [| |done].
  - rewrite bind_run. by destruct (all_paid _ h3) as [h4 [b|e]].
  - exfalso. apply Hf; [|done]. unfold max_months. lia.
Qed.

(** Whatever the call does, every object the store held before it is
    still there, unchanged. *)
Lemma payoff_plan_keeps h debts extra method :
  h ⊆ (payoff_plan debts extra method h).1.
Proof.
  unfold payoff_plan, payoff_plan_fuel.
  rewrite bind_run. unfold get_list. destruct (h !! debts) as [[?|ls]|] eqn:HL; [done| |done].
  rewrite bind_run. pose proof (copy_all_keeps ls h) as Hkeep.
  destruct (comprehension ls copy_debt h) as [h1 [copies|e]] eqn:Hcopy; [|done].
  simpl in Hkeep.
  destruct (copy_all _ _ _ _ Hcopy) as (ds0 & Hat1 & Hnd & Hfresh & Hsub & HQ & _).
  rewrite bind_run, alloc_run, bind_run. unfold lift at 1.
  set (L := fresh (dom h1)) in *. set (h2 := <[L := OList copies]> h1) in *.
  assert (Hsub2 : h ⊆ h2) by (etrans; [exact Hsub|apply alloc_subseteq]).
  destruct (quantize_cents _) as [extra0|e] eqn:Hextra; [|done].
  assert (Hlive : live h2 L copies ds0).
  { split; [apply lookup_insert_eq|]. split; [done|]. split; [|done].
    eapply debts_at_weaken; [apply alloc_subseteq|done]. }
  rewrite bind_run.
  assert (Hloop : h ⊆ (while_loop (Z.to_nat max_months) L extra0 method 0 [] h2).1).
  { apply map_subseteq_spec. intros l o Hlo.
    rewrite (while_loop_frame method extra0 L (quantize_cents_exp _ _ Hextra)
               _ _ _ h2 copies ds0); [by eapply lookup_weaken|done| |].
    - intros ->. pose proof (fresh_lookup h1) as Hf. fold L in Hf.
      rewrite (lookup_weaken _ _ _ _ Hlo Hsub) in Hf. done.
    - intros Hin. rewrite Forall_forall in Hfresh. apply (Hfresh _ Hin).
      apply elem_of_dom. by eexists. }
  destruct (while_loop _ _ _ _ _ _ _) as [h3 [[[month schedule]|]|e]]; [| done | done].
  rewrite bind_run. pose proof (all_paid_store L h3) as Hs.
  destruct (all_paid L h3) as [h4 [b|e]]; simpl in *; by subst.
Qed.

End PayoffLoop.

(** * The priority order *)

Module OrderFacts.
Import Dec Money PlansDebt PayoffSpec DecFacts DecSigns PayoffFacts WholeCentsFacts.

(** Comparison at any exponent both operands can be written with. *)
Lemma cmp_at a b e :
  e <= d_exp a -> e <= d_exp b -> cmp a b = (aligned a e ?= aligned b e).
Proof.
  intros Ha Hb. unfold cmp. set (e0 := Z.min (d_exp a) (d_exp b)).
  rewrite (aligned_shift a e0 e), (aligned_shift b e0 e) by (unfold e0; lia).
  pose proof (pow10_pos (e0 - e) ltac:(unfold e0; lia)).
  destruct (Z.compare_spec (aligned a e0) (aligned b e0)),
    (Z.compare_spec (aligned a e0 * 10 ^ (e0 - e)) (aligned b e0 * 10 ^ (e0 - e)));
    done || nia.
Qed.

Lemma ltb_at a b e :
  e <= d_exp a -> e <= d_exp b -> ltb a b = (aligned a e <? aligned b e).
Proof. intros Ha Hb. unfold ltb, Z.ltb. by rewrite (cmp_at a b e). Qed.

Lemma eqb_at a b e :
  e <= d_exp a -> e <= d_exp b -> eqb a b = (aligned a e =? aligned b e).
Proof.
  intros Ha Hb. unfold eqb. rewrite (cmp_at a b e) by done.
  destruct (Z.compare_spec (aligned a e) (aligned b e)), (Z.eqb_spec (aligned a e) (aligned b e));
    done || lia.
Qed.

(** The order on key tuples, in integers. *)
Lemma key_lt_at k1 k2 e :
  e <= d_exp k1.1 -> e <= d_exp k1.2 -> e <= d_exp k2.1 -> e <= d_exp k2.2 ->
  key_lt k1 k2 = true <->
  aligned k1.1 e < aligned k2.1 e \/
  (aligned k1.1 e = aligned k2.1 e /\ aligned k1.2 e < aligned k2.2 e).
Proof.
  intros H1 H2 H3 H4. unfold key_lt.
  rewrite (eqb_at _ _ e), !(ltb_at _ _ e) by done.
  destruct (Z.eqb_spec (aligned k1.1 e) (aligned k2.1 e)); simpl;
    rewrite Z.ltb_lt; lia.
Qed.

Lemma key_lt_asym k1 k2 : key_lt k1 k2 = true -> key_lt k2 k1 = false.
Proof.
  set (e := Z.min (Z.min (d_exp k1.1) (d_exp k1.2)) (Z.min (d_exp k2.1) (d_exp k2.2))).
  intros H. apply not_true_iff_false. intros H'.
  apply (key_lt_at _ _ e) in H; [|unfold e; lia..].
  apply (key_lt_at _ _ e) in H'; [|unfold e; lia..]. lia.
Qed.

Lemma key_lt_trans k1 k2 k3 :
  key_lt k2 k1 = false -> key_lt k3 k2 = false -> key_lt k3 k1 = false.
Proof.
  set (e := Z.min (Z.min (Z.min (d_exp k1.1) (d_exp k1.2)) (Z.min (d_exp k2.1) (d_exp k2.2)))
                  (Z.min (d_exp k3.1) (d_exp k3.2))).
  intros H1 H2. apply not_true_iff_false. intros H3.
  apply not_true_iff_false in H1, H2.
  rewrite (key_lt_at k2 k1 e) in H1 by (unfold e; lia).
  rewrite (key_lt_at k3 k2 e) in H2 by (unfold e; lia).
  rewrite (key_lt_at k3 k1 e) in H3 by (unfold e; lia). lia.
Qed.

(** Insertion keeps a list in order. *)
Section InOrder.
Variable lt : Debt -> Debt -> bool.
Hypothesis lt_asym : forall a b, lt a b = true -> lt b a = false.
Hypothesis lt_trans : forall a b c, lt b a = false -> lt c b = false -> lt c a = false.

Lemma insert_in_order x l :
  PayoffClaim.in_order lt l -> PayoffClaim.in_order lt (insert_sorted lt x l).
Proof.
  induction l as [|y ys IH]; simpl; [done|].
  intros [Hy Hys]. destruct (lt y x) eqn:Hyx; simpl.
  - split; [|by apply IH].
    rewrite insert_sorted_perm. constructor; [by apply lt_asym|done].
  - split; [|done]. constructor; [done|].
    eapply Forall_impl; [exact Hy|]. intros z Hz. simpl in Hz.
    by apply (lt_trans _ y).
Qed.

Lemma stable_sort_in_order l : PayoffClaim.in_order lt (stable_sort lt l).
Proof.
  induction l as [|x xs IH]; [done|]. rewrite stable_sort_cons. by apply insert_in_order.
Qed.
End InOrder.

Lemma resort_in_order method ds :
  PayoffClaim.in_order (precedes method) (resort method ds).
Proof.
  unfold resort. apply stable_sort_in_order.
  - intros a b. rewrite <- !key_lt_precedes. apply key_lt_asym.
  - intros a b c. rewrite <- !key_lt_precedes. apply key_lt_trans.
Qed.

(** On APRs the context holds as they are, the order of the negated keys is
    the descending order of the APRs. *)
Lemma aligned_neg d e :
  PayoffClaim.within_precision d = true -> aligned (neg d) e = - aligned d e /\
  d_exp (neg d) = d_exp d.
Proof.
  unfold PayoffClaim.within_precision. intros H. apply Z.leb_le in H.
  unfold neg. destruct (is_zero d) eqn:Hz.
  - apply is_zero_true in Hz. rewrite fix_ctx_small by done.
    unfold aligned, signed, copy_abs. simpl. rewrite Hz. by destruct (d_sign d).
  - rewrite fix_ctx_small by done. by rewrite aligned_copy_negate.
Qed.

Lemma cmp_neg a b :
  PayoffClaim.within_precision a = true -> PayoffClaim.within_precision b = true ->
  cmp (neg a) (neg b) = cmp b a.
Proof.
  intros Ha Hb. set (e := Z.min (d_exp a) (d_exp b)).
  destruct (aligned_neg a e Ha) as [Ea Ea'], (aligned_neg b e Hb) as [Eb Eb'].
  rewrite (cmp_at (neg a) (neg b) e), (cmp_at b a e) by (unfold e; lia).
  rewrite Ea, Eb. apply Z.compare_opp.
Qed.

Lemma precedes_as_claimed method a b :
  PayoffClaim.within_precision (apr a) = true ->
  PayoffClaim.within_precision (apr b) = true ->
  precedes method a b = PayoffClaim.precedes method a b.
Proof.
  intros Ha Hb. unfold precedes, PayoffClaim.precedes, descends, ties_descending, gtb, ltb, eqb.
  rewrite (cmp_neg _ _ Ha Hb). rewrite (cmp_antisym (apr a) (apr b)).
  destruct (String.eqb _ _); destruct (cmp (apr b) (apr a)); done.
Qed.

Lemma insert_sorted_ext_in {A} (lt lt' : A -> A -> bool) x l :
  Forall (fun y => lt y x = lt' y x) l -> insert_sorted lt x l = insert_sorted lt' x l.
Proof.
  induction 1 as [|y ys Hy _ IH]; simpl; [done|]. by rewrite Hy, IH.
Qed.

Lemma stable_sort_ext_in {A} (P : A -> Prop) (lt lt' : A -> A -> bool) l :
  (forall a b, P a -> P b -> lt a b = lt' a b) -> Forall P l ->
  stable_sort lt l = stable_sort lt' l.
Proof.
  intros E. induction 1 as [|x xs Hx Hxs IH]; [done|].
  rewrite !stable_sort_cons, IH. apply insert_sorted_ext_in.
  rewrite stable_sort_perm. eapply Forall_impl; [exact Hxs|]. intros y Hy. by apply E.
Qed.

Lemma resort_as_claimed method ds :
  Forall (fun d => PayoffClaim.within_precision (apr d) = true) ds ->
  resort method ds = PayoffClaim.resort method ds.
Proof.
  intros H. unfold resort, PayoffClaim.resort.
  eapply stable_sort_ext_in; [|exact H]. intros a b Ha Hb. by apply precedes_as_claimed.
Qed.

End OrderFacts.

(** * The payoff simulation: the claims *)

Module PayoffTheorems.
Import Dec Money PlansDebt PayoffSpec DecFacts DecSigns DecStr PayoffFacts PayoffLoop Examples.
Import OrderFacts Cases.

(** ** Balances that are not negative stay so *)

Lemma accrue_nonneg d d' : nonneg_debt d -> accrue d = Ok d' -> nonneg_debt d'.
Proof.
  intros [Hb Ha]. unfold accrue. destruct (gtb _ _); [|by intros [= <-]].
  destruct (div (apr d) (of_Z 12)) as [rate|e] eqn:Hr; [|done]. simpl.
  destruct (quantize_cents _) as [i|e] eqn:Hi; [|done]. simpl. intros [= <-].
  split; [|done]. simpl. apply add_nonneg; [done|].
  eapply quantize_nonneg; [|exact Hi]. apply mul_nonneg; [done|].
  eapply div_nonneg; [exact Ha| |exact Hr]. by left.
Qed.

Lemma rmapM_Forall {A B} (f : A -> result B) (P : A -> Prop) (Q : B -> Prop) l l' :
  (forall a b, P a -> f a = Ok b -> Q b) ->
  Forall P l -> rmapM f l = Ok l' -> Forall Q l'.
Proof.
  intros Hf H. revert l'. induction H as [|a l Ha H IH]; intros l' Hm.
  - injection Hm as <-. constructor.
  - simpl in Hm. destruct (f a) as [b|e] eqn:Hb; [|done]. simpl in Hm.
    destruct (rmapM f l) as [bs|e]; [|done]. injection Hm as <-.
    constructor; [by eapply Hf|by apply IH].
Qed.

Lemma pay_minimum_nonneg d : nonneg_debt d -> nonneg_debt (pay_minimum d).
Proof.
  intros [Hb Ha]. unfold pay_minimum. destruct (gtb _ _); [|done].
  split; [|done]. apply sub_min_nonneg.
Qed.

Lemma pay_extra_nonneg ds : forall rem, Forall nonneg_debt ds -> Forall nonneg_debt (pay_extra ds rem).
Proof.
  induction ds as [|d ds IH]; intros rem H; [constructor|].
  apply Forall_cons in H as [[Hb Ha] H]. simpl.
  destruct (_ && _); constructor; try by apply IH.
  - split; [|done]. simpl. apply sub_min_nonneg.
  - done.
Qed.

Lemma resort_Forall (P : Debt -> Prop) method ds :
  Forall P ds -> Forall P (resort method ds).
Proof. intros H. unfold resort. by rewrite stable_sort_perm. Qed.

Lemma month_step_nonneg method extra ds ds' :
  Forall nonneg_debt ds -> month_step method extra ds = Ok ds' -> Forall nonneg_debt ds'.
Proof.
  intros H. unfold month_step.
  destruct (rmapM accrue (resort method ds)) as [accrued|e] eqn:Hacc; [|done].
  simpl. intros [= <-]. apply pay_extra_nonneg, Forall_fmap.
  eapply Forall_impl; [|intros d Hd; apply pay_minimum_nonneg, Hd].
  eapply rmapM_Forall; [apply accrue_nonneg| |exact Hacc]. by apply resort_Forall.
Qed.

Lemma after_months_nonneg method extra ds n s :
  Forall nonneg_debt ds -> after_months method extra ds n = Ok s -> Forall nonneg_debt s.
Proof.
  intros H. revert s. induction n as [|n IH]; intros s; simpl.
  - by intros [= <-].
  - destruct (after_months method extra ds n) as [s0|e]; [|done]. simpl.
    intros Hs. eapply month_step_nonneg; [|exact Hs]. by apply IH.
Qed.

Lemma copy_of_nonneg d c :
  nonneg (balance d) -> nonneg (apr d) -> copy_of d = Ok c -> nonneg_debt c.
Proof.
  intros Hb Ha. unfold copy_of.
  destruct (quantize_cents (balance d)) as [b|e] eqn:Hq; [|done]. simpl.
  destruct (quantize_cents (min_payment d)) as [m|e]; [|done]. simpl.
  intros [= <-]. split; [|done]. simpl. eapply quantize_nonneg; [exact Hb|exact Hq].
Qed.

(** ** The APRs never change *)

Section Apr.
Variable Q : Decimal -> Prop.

Lemma accrue_apr d d' : Q (apr d) -> accrue d = Ok d' -> Q (apr d').
Proof.
  intros H. unfold accrue. destruct (gtb _ _); [|by intros [= <-]].
  destruct (div _ _) as [rate|e]; [|done]. simpl.
  destruct (quantize_cents _) as [i|e]; [|done]. simpl. by intros [= <-].
Qed.

Lemma pay_minimum_apr d : Q (apr d) -> Q (apr (pay_minimum d)).
Proof. intros H. unfold pay_minimum. by destruct (gtb _ _). Qed.

Lemma pay_extra_apr ds : forall rem,
  Forall (fun d => Q (apr d)) ds -> Forall (fun d => Q (apr d)) (pay_extra ds rem).
Proof.
  induction ds as [|d ds IH]; intros rem H; [constructor|].
  apply Forall_cons in H as [Hd H]. simpl.
  destruct (_ && _); constructor; try done; by apply IH.
Qed.

Lemma month_step_apr method extra ds ds' :
  Forall (fun d => Q (apr d)) ds -> month_step method extra ds = Ok ds' ->
  Forall (fun d => Q (apr d)) ds'.
Proof.
  intros H. unfold month_step.
  destruct (rmapM accrue (resort method ds)) as [accrued|e] eqn:Hacc; [|done].
  simpl. intros [= <-]. apply pay_extra_apr, Forall_fmap.
  eapply Forall_impl; [|intros d Hd; apply pay_minimum_apr, Hd].
  eapply rmapM_Forall; [apply accrue_apr| |exact Hacc]. by apply resort_Forall.
Qed.

Lemma after_months_apr method extra ds n s :
  Forall (fun d => Q (apr d)) ds -> after_months method extra ds n = Ok s ->
  Forall (fun d => Q (apr d)) s.
Proof.
  intros H. revert s. induction n as [|n IH]; intros s; simpl.
  - by intros [= <-].
  - destruct (after_months method extra ds n) as [s0|e]; [|done]. simpl.
    intros Hs. eapply month_step_apr; [|exact Hs]. by apply IH.
Qed.

Lemma copy_of_apr d c : Q (apr d) -> copy_of d = Ok c -> Q (apr c).
Proof.
  intros H. unfold copy_of.
  destruct (quantize_cents (balance d)) as [b|e]; [|done]. simpl.
  destruct (quantize_cents (min_payment d)) as [m|e]; [|done]. simpl.
  by intros [= <-].
Qed.
End Apr.

(** ** The claims *)

(** The result component of a call, for stating what a call that returns
    has returned. *)
Lemma payoff_plan_run h debts ls ds extra method r :
  h !! debts = Some (OList ls) -> debts_at h ls ds ->
  (payoff_plan debts extra method h).2 = Ok (Some r) ->
  exists ds0 extra0 n final, run_of method ds extra r ds0 extra0 n final.
Proof.
  intros HL Hat Hres.
  destruct (payoff_plan debts extra method h) as [h' out] eqn:Hrun. simpl in Hres. subst out.
  destruct (payoff_plan_sim _ _ _ _ _ _ _ _ HL Hat Hrun)
    as (r' & ds0 & extra0 & n & final & [= <-] & Hr).
  by exists ds0, extra0, n, final.
Qed.

(** C1, as far as it holds.  Every month of a call that returns is the
    transition of section 4.5 with the arithmetic in the code's order:
    starting from the quantized copies, entry [i] of the schedule is the
    snapshot of the debts after [month_step] has been applied to the debts
    after [i] months, that is, the debts re-sorted by the method's key,
    then the interest [quantizeCents(balance * rate)] with
    [rate = apr / 12] rounded to 28 digits first, then the minimums, then
    the extra payment down the sorted order; the snapshot lists every
    debt, in that order, with its balance as a string with two decimal
    places.  The sorted list is a rearrangement of the month's debts in
    which no debt strictly precedes one before it.  The key negates the
    APR with the context's rounding; when every APR passed in has at most
    28 digits the order is the one on the APRs themselves: APR descending
    with the balance ascending as tie-break for "avalanche", balance
    ascending with the APR descending as tie-break otherwise. *)
Theorem payoff_plan_month_transition h debts ls ds extra method r :
  h !! debts = Some (OList ls) -> debts_at h ls ds ->
  (payoff_plan debts extra method h).2 = Ok (Some r) ->
  exists ds0 extra0,
    rmapM copy_of ds = Ok ds0 /\ quantize_cents extra = Ok extra0 /\
    forall i, (i < List.length (r_schedule r))%nat ->
      exists before after,
        after_months method extra0 ds0 i = Ok before /\
        month_step method extra0 before = Ok after /\
        r_schedule r !! i = Some (snapshot_of (Z.of_nat i + 1) after) /\
        Forall (fun e => exists s, e.2 = VStr s /\ two_decimal_string s = true)
               (snap_debts (snapshot_of (Z.of_nat i + 1) after)) /\
        resort method before ≡ₚ before /\
        PayoffClaim.in_order (precedes method) (resort method before) /\
        (Forall (fun d => PayoffClaim.within_precision (apr d) = true) ds ->
         resort method before = PayoffClaim.resort method before).
Proof.
  intros HL Hat Hres.
  destruct (payoff_plan_run _ _ _ _ _ _ _ HL Hat Hres) as (ds0 & extra0 & n & final & Hr).
  exists ds0, extra0. split; [apply Hr|]. split; [apply Hr|].
  intros i Hi. rewrite (run_length _ _ _ _ _ _ _ _ Hr) in Hi.
  destruct (run_month _ _ _ _ _ _ _ _ Hr i Hi) as (s & s' & H1 & _ & H3 & HQ & H5).
  exists s, s'. split; [done|]. split; [done|]. split; [done|].
  split.
  { simpl. apply Forall_fmap. eapply Forall_impl; [exact HQ|].
    intros d [Hb _]. eexists. split; [reflexivity|]. by apply to_str_two_decimal. }
  split; [apply stable_sort_perm|]. split; [apply resort_in_order|].
  intros Hapr. apply resort_as_claimed.
  eapply (after_months_apr (fun a => PayoffClaim.within_precision a = true)); [|exact H1].
  eapply rmapM_Forall; [|exact Hapr|apply Hr].
  intros a b Ha. by apply (copy_of_apr (fun a => PayoffClaim.within_precision a = true)).
Qed.

Lemma payoff_plan_month_transition_witness :
  let h := two_debt_store debt_visa debt_store_card in
  let r := mkPayoffResult "avalanche" 4
             [mkSnapshot 1 [("store", VStr "79.00"); ("visa", VStr "253.00")];
              mkSnapshot 2 [("store", VStr "0.00"); ("visa", VStr "161.11")];
              mkSnapshot 3 [("store", VStr "0.00"); ("visa", VStr "12.72")];
              mkSnapshot 4 [("store", VStr "0.00"); ("visa", VStr "0.00")]] true in
  h !! 3%positive = Some (OList [1%positive; 2%positive]) /\
  debts_at h [1%positive; 2%positive] [debt_visa; debt_store_card] /\
  (payoff_plan 3%positive (cents 10000) "avalanche" h).2 = Ok (Some r) /\
  exists ds0 extra0,
    rmapM copy_of [debt_visa; debt_store_card] = Ok ds0 /\
    quantize_cents (cents 10000) = Ok extra0 /\
    forall i, (i < List.length (r_schedule r))%nat ->
      exists before after,
        after_months "avalanche" extra0 ds0 i = Ok before /\
        month_step "avalanche" extra0 before = Ok after /\
        r_schedule r !! i = Some (snapshot_of (Z.of_nat i + 1) after) /\
        Forall (fun e => exists s, e.2 = VStr s /\ two_decimal_string s = true)
               (snap_debts (snapshot_of (Z.of_nat i + 1) after)) /\
        resort "avalanche" before ≡ₚ before /\
        PayoffClaim.in_order (precedes "avalanche") (resort "avalanche" before) /\
        (Forall (fun d => PayoffClaim.within_precision (apr d) = true)
                [debt_visa; debt_store_card] ->
         resort "avalanche" before = PayoffClaim.resort "avalanche" before).
Proof.
  intros h r.
  assert (H1 : h !! 3%positive = Some (OList [1%positive; 2%positive])) by reflexivity.
  assert (H2 : debts_at h [1%positive; 2%positive] [debt_visa; debt_store_card])
    by (repeat constructor).
  assert (H3 : (payoff_plan 3%positive (cents 10000) "avalanche" h).2 = Ok (Some r))
    by (vm_compute; reflexivity).
  split; [exact H1|]. split; [exact H2|]. split; [exact H3|].
  exact (payoff_plan_month_transition h 3%positive [1%positive; 2%positive]
           [debt_visa; debt_store_card] (cents 10000) "avalanche" r H1 H2 H3).
Defined.

(** C1 as stated fails on two counts.  The interest is not
    [quantizeCents(balance * apr / 12)]: on 462.00 at an APR of 0.13 the
    code adds 5.00 (0.13 / 12 is rounded to
    0.01083333333333333333333333333 first) and, with a minimum payment of
    467.00, is done after one month, while the expression as worded, and
    the exact value 5.005, give 5.01 and leave 0.01.  And the order is not
    always APR descending: the APRs 1.0000000000000000000000000001 and 1
    tie once negated, so of 200.00 at the first and 100.00 at the second
    the extra payment of 50.00 goes to the second. *)
Lemma payoff_plan_interest_as_worded_differs :
  ((payoff_plan 2%positive (cents 0) "avalanche" (one_debt_store debt_thirteen)).2
     = Ok (Some (mkPayoffResult "avalanche" 1
                   [mkSnapshot 1 [("card", VStr "0.00")]] true)) /\
   PayoffClaim.interest (balance debt_thirteen) (apr debt_thirteen) = Ok (cents 501) /\
   PayoffClaim.exact_interest_cents (balance debt_thirteen) (apr debt_thirteen) = 501 /\
   (ds ← PayoffClaim.month_step "avalanche" (cents 0) [debt_thirteen];
    Ok (snapshot_of 1 ds)) = Ok (mkSnapshot 1 [("card", VStr "0.01")])) /\
  (gtb (apr debt_long_apr) (apr debt_short_apr) = true /\
   (exists r,
      (payoff_plan 3%positive (cents 5000) "avalanche"
         (two_debt_store debt_long_apr debt_short_apr)).2 = Ok (Some r) /\
      r_schedule r !! 0%nat
        = Some (mkSnapshot 1 [("B", VStr "58.33"); ("A", VStr "216.67")])) /\
   (ds ← PayoffClaim.month_step "avalanche" (cents 5000) [debt_long_apr; debt_short_apr];
    Ok (snapshot_of 1 ds))
     = Ok (mkSnapshot 1 [("A", VStr "166.67"); ("B", VStr "108.33")])).
Proof.
  split.
  - split; [vm_compute; reflexivity|]. split; [vm_compute; reflexivity|].
    split; [vm_compute; reflexivity|]. vm_compute; reflexivity.
  - split; [vm_compute; reflexivity|]. split; [|vm_compute; reflexivity].
    eexists. split; [vm_compute; reflexivity|]. reflexivity.
Qed.

(** C2, as far as it holds.  [payoff_plan] always comes back, with a
    result or with an exception: the loop needs no more than 600 rounds.
    When it returns a result, [months] is the number [n] of months
    simulated, at most 600, and the length of the schedule; [n] is the
    first month count at which every balance is <= 0 or the cap is
    reached; [done] tells whether every balance is <= 0 then.  A debt load
    that no month pays off gives [months = 600] and [done = false]. *)
Theorem payoff_plan_terminates h debts ls ds extra method :
  h !! debts = Some (OList ls) -> debts_at h ls ds ->
  (payoff_plan debts extra method h).2 <> Ok None /\
  forall r, (payoff_plan debts extra method h).2 = Ok (Some r) ->
    exists ds0 extra0 n final,
      rmapM copy_of ds = Ok ds0 /\ quantize_cents extra = Ok extra0 /\
      r_months r = Z.of_nat n /\ (n <= 600)%nat /\
      List.length (r_schedule r) = n /\
      after_months method extra0 ds0 n = Ok final /\
      (n = 600%nat \/ all_paid_off final = true) /\
      (forall i, (i < n)%nat ->
         exists s, after_months method extra0 ds0 i = Ok s /\ all_paid_off s = false) /\
      r_done r = all_paid_off final /\
      ((forall i s, (i <= 600)%nat -> after_months method extra0 ds0 i = Ok s ->
                    all_paid_off s = false) ->
       r_months r = 600 /\ r_done r = false).
Proof.
  intros HL Hat. split; [apply payoff_plan_total|].
  intros r Hres.
  destruct (payoff_plan_run _ _ _ _ _ _ _ HL Hat Hres) as (ds0 & extra0 & n & final & Hr).
  exists ds0, extra0, n, final.
  destruct Hr as [Hcopy HQ Hextra Hmeth Hmonths Hcap Hfinal Hdone Hlen Hmonth Hstop].
  split; [done|]. split; [done|]. split; [done|]. split; [done|]. split; [done|].
  split; [done|]. split; [done|]. split.
  { intros i Hi. destruct (Hmonth i Hi) as (s & s' & H1 & H2 & _). by exists s. }
  split; [done|].
  intros Hnever. pose proof (Hnever n final Hcap Hfinal) as Hopen.
  rewrite Hdone, Hmonths. split; [|done].
  destruct Hstop as [->|Hpaid]; [done|congruence].
Qed.

Lemma payoff_plan_terminates_witness :
  let h := one_debt_store debt_paid_at_once in
  h !! 2%positive = Some (OList [1%positive]) /\
  debts_at h [1%positive] [debt_paid_at_once] /\
  (payoff_plan 2%positive (cents 0) "avalanche" h).2 <> Ok None.
Proof.
  intros h.
  assert (H1 : h !! 2%positive = Some (OList [1%positive])) by reflexivity.
  assert (H2 : debts_at h [1%positive] [debt_paid_at_once]) by (repeat constructor).
  split; [exact H1|]. split; [exact H2|].
  exact (proj1 (payoff_plan_terminates h 2%positive [1%positive] [debt_paid_at_once]
                  (cents 0) "avalanche" H1 H2)).
Defined.

(** A debt of 1000.00 at 24% with a minimum payment of 10.00 is still
    owed, and larger, after 600 months. *)
Example payoff_plan_growing_debt :
  match (payoff_plan 2%positive (cents 0) "avalanche" (one_debt_store debt_growing)).2 with
  | Ok (Some r) =>
      r_months r = 600 /\ r_done r = false /\
      last (r_schedule r) = Some (mkSnapshot 600 [("card", VStr "72289738.46")])
  | _ => False
  end.
Proof. vm_compute. done. Qed.

(** C2 as stated fails: a debt of 100.00 at an APR of 12, with nothing
    paid, doubles every month; in month 80 its balance needs 29 digits and
    [quantize] raises [InvalidOperation].  The call returns no result, and
    so neither [months = 600] nor [done = false]. *)
Lemma payoff_plan_doubling_debt_raises :
  (payoff_plan 2%positive (cents 0) "avalanche" (one_debt_store debt_doubling)).2
    = Raise InvalidOperation /\
  ~ (exists r,
       (payoff_plan 2%positive (cents 0) "avalanche" (one_debt_store debt_doubling)).2
         = Ok (Some r) /\ r_months r = 600 /\ r_done r = false).
Proof.
  assert (H : (payoff_plan 2%positive (cents 0) "avalanche"
                 (one_debt_store debt_doubling)).2 = Raise InvalidOperation)
    by (vm_compute; reflexivity).
  split; [exact H|]. intros (r & Hr & _). rewrite H in Hr. discriminate.
Qed.

(** The same happens, later, at an APR of 120%. *)
Example payoff_plan_payday_debt_raises :
  (payoff_plan 2%positive (cents 0) "avalanche" (one_debt_store debt_payday)).2
    = Raise InvalidOperation.
Proof. vm_compute. reflexivity. Qed.

(** C8.  A call leaves every object the store held before it as it was,
    whether it returns or raises: in particular the caller's list still
    holds the same references, and the debts they denote are the same
    records, balances included.  What the call simulates is the copies:
    new objects, with balance and minimum payment quantized. *)
Theorem payoff_plan_defensive_copy h debts extra method :
  let h' := (payoff_plan debts extra method h).1 in
  (forall l o, h !! l = Some o -> h' !! l = Some o) /\
  (forall ls ds,
     h !! debts = Some (OList ls) -> debts_at h ls ds ->
     h' !! debts = Some (OList ls) /\ debts_at h' ls ds /\
     forall r, (payoff_plan debts extra method h).2 = Ok (Some r) ->
       exists ds0 extra0,
         rmapM copy_of ds = Ok ds0 /\ Forall quantized ds0 /\
         quantize_cents extra = Ok extra0 /\
         forall i, (i < List.length (r_schedule r))%nat ->
           exists after,
             after_months method extra0 ds0 (S i) = Ok after /\
             r_schedule r !! i = Some (snapshot_of (Z.of_nat i + 1) after)).
Proof.
  intros h'. pose proof (payoff_plan_keeps h debts extra method) as Hkeep. fold h' in Hkeep.
  split; [intros l o Hl; by eapply lookup_weaken|].
  intros ls ds HL Hat. split; [by eapply lookup_weaken|].
  split; [by eapply debts_at_weaken|].
  intros r Hres.
  destruct (payoff_plan_run _ _ _ _ _ _ _ HL Hat Hres) as (ds0 & extra0 & n & final & Hr).
  exists ds0, extra0. split; [apply Hr|]. split; [apply Hr|]. split; [apply Hr|].
  intros i Hi. rewrite (run_length _ _ _ _ _ _ _ _ Hr) in Hi.
  destruct (run_month _ _ _ _ _ _ _ _ Hr i Hi) as (s & s' & H1 & _ & H3 & _ & H5).
  exists s'. split; [|done]. by rewrite (after_months_S _ _ _ _ _ H1).
Qed.

Lemma payoff_plan_defensive_copy_witness :
  let h := one_debt_store debt_growing in
  let h' := (payoff_plan 2%positive (cents 5000) "snowball" h).1 in
  h !! 2%positive = Some (OList [1%positive]) /\
  debts_at h [1%positive] [debt_growing] /\
  h' !! 2%positive = Some (OList [1%positive]) /\
  debts_at h' [1%positive] [debt_growing].
Proof.
  intros h h'.
  assert (H1 : h !! 2%positive = Some (OList [1%positive])) by reflexivity.
  assert (H2 : debts_at h [1%positive] [debt_growing]) by (repeat constructor).
  split; [exact H1|]. split; [exact H2|].
  destruct (proj2 (payoff_plan_defensive_copy h 2%positive (cents 5000) "snowball")
              [1%positive] [debt_growing] H1 H2) as (H3 & H4 & _).
  split; [exact H3|exact H4].
Defined.

(** C10.  When the debts passed in have balances, APRs and minimum
    payments that are not negative, no balance is negative at any point of
    any month of a call that returns: not among the copies, not after the
    sort, the interest, the minimum payments or the extra payment, and so
    not in any snapshot of the schedule. *)
Theorem payoff_plan_balances_nonneg h debts ls ds extra method r :
  h !! debts = Some (OList ls) -> debts_at h ls ds ->
  Forall (fun d => leb zero (balance d) = true /\ leb zero (apr d) = true /\
                   leb zero (min_payment d) = true) ds ->
  (payoff_plan debts extra method h).2 = Ok (Some r) ->
  let ok := fun d : Debt => leb zero (balance d) = true in
  exists ds0 extra0,
    rmapM copy_of ds = Ok ds0 /\ quantize_cents extra = Ok extra0 /\
    Forall ok ds0 /\
    forall i, (i < List.length (r_schedule r))%nat ->
      exists before accrued,
        after_months method extra0 ds0 i = Ok before /\
        rmapM accrue (resort method before) = Ok accrued /\
        Forall ok before /\
        Forall ok (resort method before) /\
        Forall ok accrued /\
        Forall ok (pay_minimum <$> accrued) /\
        Forall ok (pay_extra (pay_minimum <$> accrued) extra0) /\
        r_schedule r !! i =
          Some (snapshot_of (Z.of_nat i + 1) (pay_extra (pay_minimum <$> accrued) extra0)) /\
        Forall (fun e => exists b, e.2 = VStr (to_str b) /\ leb zero b = true)
          (snap_debts (snapshot_of (Z.of_nat i + 1)
                         (pay_extra (pay_minimum <$> accrued) extra0))).
Proof.
  intros HL Hat Hin Hres ok.
  destruct (payoff_plan_run _ _ _ _ _ _ _ HL Hat Hres) as (ds0 & extra0 & n & final & Hr).
  assert (Hok : forall l, Forall nonneg_debt l -> Forall ok l).
  { intros l Hl. eapply Forall_impl; [exact Hl|]. intros d [Hb _]. by apply leb_zero_true. }
  assert (H0 : Forall nonneg_debt ds0).
  { eapply rmapM_Forall; [|exact Hin|apply Hr].
    intros d c (Hb & Ha & _) Hc. apply leb_zero_true in Hb, Ha.
    by eapply copy_of_nonneg. }
  exists ds0, extra0. split; [apply Hr|]. split; [apply Hr|]. split; [by apply Hok|].
  intros i Hi. rewrite (run_length _ _ _ _ _ _ _ _ Hr) in Hi.
  destruct (run_month _ _ _ _ _ _ _ _ Hr i Hi) as (s & s' & H1 & _ & H3 & _ & H5).
  unfold month_step in H3.
  destruct (rmapM accrue (resort method s)) as [accrued|e] eqn:Hacc; [|done].
  simpl in H3. injection H3 as <-.
  pose proof (after_months_nonneg _ _ _ _ _ H0 H1) as Hs.
  pose proof (resort_Forall nonneg_debt method s Hs) as Hsorted.
  assert (Hacc' : Forall nonneg_debt accrued)
    by (eapply rmapM_Forall; [apply accrue_nonneg|exact Hsorted|exact Hacc]).
  assert (Hmin : Forall nonneg_debt (pay_minimum <$> accrued)).
  { apply Forall_fmap. eapply Forall_impl; [exact Hacc'|].
    intros d Hd. by apply pay_minimum_nonneg. }
  pose proof (pay_extra_nonneg _ extra0 Hmin) as Hext.
  exists s, accrued. split; [done|]. split; [done|].
  split; [by apply Hok|]. split; [by apply Hok|]. split; [by apply Hok|].
  split; [by apply Hok|]. split; [by apply Hok|]. split; [done|].
  simpl. apply Forall_fmap. eapply Forall_impl; [exact Hext|].
  intros d [Hb _]. eexists. split; [reflexivity|]. by apply leb_zero_true.
Qed.

Lemma payoff_plan_balances_nonneg_witness :
  let h := one_debt_store debt_paid_at_once in
  let r := mkPayoffResult "avalanche" 1
             [mkSnapshot 1 [("card", VStr "0.00")]] true in
  h !! 2%positive = Some (OList [1%positive]) /\
  debts_at h [1%positive] [debt_paid_at_once] /\
  Forall (fun d => leb zero (balance d) = true /\ leb zero (apr d) = true /\
                   leb zero (min_payment d) = true) [debt_paid_at_once] /\
  (payoff_plan 2%positive (cents 0) "avalanche" h).2 = Ok (Some r) /\
  exists ds0 extra0,
    rmapM copy_of [debt_paid_at_once] = Ok ds0 /\
    quantize_cents (cents 0) = Ok extra0 /\
    Forall (fun d : Debt => leb zero (balance d) = true) ds0.
Proof.
  intros h r.
  assert (H1 : h !! 2%positive = Some (OList [1%positive])) by reflexivity.
  assert (H2 : debts_at h [1%positive] [debt_paid_at_once]) by (repeat constructor).
  assert (H3 : Forall (fun d => leb zero (balance d) = true /\ leb zero (apr d) = true /\
                   leb zero (min_payment d) = true) [debt_paid_at_once])
    by (repeat constructor).
  assert (H4 : (payoff_plan 2%positive (cents 0) "avalanche" h).2 = Ok (Some r))
    by (vm_compute; reflexivity).
  split; [exact H1|]. split; [exact H2|]. split; [exact H3|]. split; [exact H4|].
  destruct (payoff_plan_balances_nonneg h 2%positive [1%positive] [debt_paid_at_once]
              (cents 0) "avalanche" r H1 H2 H3 H4) as (ds0 & extra0 & Ha & Hb & Hc & _).
  exists ds0, extra0. split; [exact Ha|]. split; [exact Hb|exact Hc].
Defined.

End PayoffTheorems.

(** * Dictionaries in insertion order: grouping *)

Section DictFacts.
Context {A V : Type} (key : A -> string) (op : V -> A -> V) (default : V).

Lemma pick_cons_eq k x items : key x = k -> pick key k (x :: items) = x :: pick key k items.
Proof. intros <-. unfold pick. simpl. by rewrite String.eqb_refl. Qed.

Lemma pick_cons_ne k x items : key x <> k -> pick key k (x :: items) = pick key k items.
Proof.
  intros Hne. unfold pick. simpl.
  destruct (String.eqb_spec (key x) k); [done|done].
Qed.

Lemma dict_update_notin (f : V -> V) k d :
  k ∉ d.*1 -> dict_update default f k d = d ++ [(k, f default)].
Proof.
  induction d as [|[k' v] d IH]; intros Hk; [done|].
  simpl in *. apply not_elem_of_cons in Hk as [Hne Hk].
  destruct (String.eqb_spec k' k); [congruence|]. by rewrite IH.
Qed.

Lemma dict_update_in (f : V -> V) k d :
  k ∈ d.*1 -> NoDup d.*1 ->
  dict_update default f k d =
  (fun kv => if String.eqb kv.1 k then (kv.1, f kv.2) else kv) <$> d.
Proof.
  induction d as [|[k' v] d IH]; intros Hk Hnd; [by apply elem_of_nil in Hk|].
  simpl in *. apply NoDup_cons in Hnd as [Hk' Hnd].
  destruct (String.eqb_spec k' k) as [->|Hne].
  - f_equal. clear IH Hk Hnd. induction d as [|[k2 v2] d IH]; [done|].
    simpl in *. apply not_elem_of_cons in Hk' as [Hne Hk'].
    destruct (String.eqb_spec k2 k); [congruence|]. f_equal. by apply IH.
  - f_equal. apply IH; [|done]. apply elem_of_cons in Hk as [Hk|Hk]; [congruence|done].
Qed.

Lemma first_seen_cons k ks :
  first_seen (k :: ks) = k :: filter (fun k' => k' <> k) (first_seen ks).
Proof. reflexivity. Qed.

(** Folding [d[key x] = op d[key x] x] over the items groups them by key:
    keys already there keep their place and take their items in, new
    keys follow in the order they are first seen. *)
Lemma foldl_dstep items : forall d0,
  NoDup d0.*1 ->
  foldl (dstep key op default) d0 items =
  ((fun kv => (kv.1, foldl op kv.2 (pick key kv.1 items))) <$> d0)
  ++ ((fun k => (k, foldl op default (pick key k items)))
        <$> filter (fun k => k ∉ d0.*1) (first_seen (key <$> items))).
Proof.
  induction items as [|x items IH]; intros d0 Hnd.
  - simpl. rewrite app_nil_r. induction d0 as [|[k v] d0 IHd]; [done|].
    simpl. f_equal. apply IHd. by apply NoDup_cons in Hnd as [_ ?].
  - change (foldl (dstep key op default) d0 (x :: items))
      with (foldl (dstep key op default) (dict_update default (fun v => op v x) (key x) d0) items).
    rewrite fmap_cons, first_seen_cons.
    destruct (decide (key x ∈ d0.*1)) as [Hin|Hout].
    + rewrite dict_update_in by done.
      set (d1 := (fun kv => if String.eqb kv.1 (key x) then (kv.1, op kv.2 x) else kv) <$> d0).
      assert (Hkeys : d1.*1 = d0.*1).
      { unfold d1. rewrite <- list_fmap_compose. apply list_fmap_ext.
        intros i [k v] _. simpl. by destruct (String.eqb k (key x)). }
      rewrite IH by (by rewrite Hkeys). rewrite Hkeys. f_equal.
      * unfold d1. rewrite <- list_fmap_compose. apply list_fmap_ext.
        intros i [k v] _. cbn [compose fst snd].
        destruct (String.eqb_spec k (key x)) as [->|Hne]; cbn [fst snd].
        -- by rewrite pick_cons_eq.
        -- by rewrite pick_cons_ne.
      * rewrite filter_cons_False by (intros H; by apply H).
        rewrite list_filter_filter.
        rewrite (list_filter_iff (fun k => (k ∉ d0.*1) /\ k <> key x) (fun k => k ∉ d0.*1)).
        2:{ intros k. split; [by intros [? _]|]. intros Hk. split; [done|].
            intros ->. by apply Hk. }
        apply Forall_fmap_ext_1. apply Forall_forall. intros k Hk.
        apply list_elem_of_filter in Hk as [Hk _].
        rewrite pick_cons_ne; [done|]. intros E. apply Hk. by rewrite <- E.
    + rewrite dict_update_notin by done.
      rewrite IH.
      2:{ rewrite fmap_app. simpl. apply NoDup_app. split; [done|]. split.
          - intros k Hk Hk'. apply list_elem_of_singleton in Hk'. by subst.
          - apply NoDup_singleton. }
      rewrite fmap_app, <- app_assoc. f_equal.
      * apply Forall_fmap_ext_1. apply Forall_forall. intros [k v] Hkv. cbn [fst snd].
        rewrite pick_cons_ne; [done|]. intros E. apply Hout.
        apply list_elem_of_fmap. exists (k, v). by split.
      * cbn [fmap list_fmap app fst snd]. rewrite filter_cons_True by done.
        rewrite fmap_cons. f_equal.
        -- by rewrite pick_cons_eq.
        -- rewrite list_filter_filter, fmap_app. cbn [fmap list_fmap fst].
           rewrite (list_filter_iff (fun k => k ∉ d0.*1 ++ [key x])
                      (fun k => (k ∉ d0.*1) /\ k <> key x)).
           2:{ intros k. rewrite not_elem_of_app, list_elem_of_singleton. done. }
           apply Forall_fmap_ext_1. apply Forall_forall. intros k Hk.
           apply list_elem_of_filter in Hk as [[_ Hk] _].
           rewrite pick_cons_ne; [done|]. intros E. by apply Hk.
Qed.

Lemma foldl_dstep_nil items :
  foldl (dstep key op default) [] items =
  (fun k => (k, foldl op default (pick key k items))) <$> first_seen (key <$> items).
Proof.
  rewrite foldl_dstep by constructor. simpl. f_equal.
  induction (first_seen (key <$> items)) as [|k ks IH]; [done|].
  rewrite filter_cons_True by apply not_elem_of_nil. by rewrite IH.
Qed.
End DictFacts.

(** * The analytics against their specification *)

Module AnalyticsFacts.
Import Dec Money Datetime Analytics AnalyticsSpec DecFacts.

Lemma rmapM_fmap {A B C} (f : B -> result C) (g : A -> B) l :
  rmapM f (g <$> l) = rmapM (fun x => f (g x)) l.
Proof. induction l as [|x l IH]; [done|]. rewrite fmap_cons. cbn [rmapM]. by rewrite IH. Qed.

Lemma rmapM_ext {A B} (f g : A -> result B) l :
  (forall x, f x = g x) -> rmapM f l = rmapM g l.
Proof. intros E. induction l as [|x l IH]; [done|]. cbn [rmapM]. by rewrite E, IH. Qed.

Lemma foldl_fmap_l {A B C} (f : A -> B -> A) (g : C -> B) a l :
  foldl f a (g <$> l) = foldl (fun a x => f a (g x)) a l.
Proof. revert a. induction l as [|x l IH]; intros a; [done|]. rewrite fmap_cons. cbn [foldl]. by rewrite IH. Qed.

(** ** [summarize_transactions] *)

(** The three accumulators of the loop, each on its own. *)
Lemma foldl_summarize txns : forall acc,
  foldl summarize_step acc txns =
  mkTotals
    (foldl Dec.add (acc_income acc)
       (amount <$> List.filter (fun t => gtb (amount t) zero) txns))
    (foldl Dec.add (acc_expense acc)
       (abs_amount <$> List.filter (fun t => leb (amount t) zero) txns))
    (foldl (dstep category_key (fun v t => Dec.add v (abs_amount t)) zero_cents)
       (acc_categories acc) txns).
Proof.
  induction txns as [|t txns IH]; intros acc; [by destruct acc|].
  simpl. rewrite IH. unfold summarize_step at 1 2 3. simpl.
  unfold zero. rewrite (leb_zero_r (amount t)).
  destruct (gtb (amount t) (of_Z 0)); simpl; done.
Qed.

Theorem summarize_transactions_spec_eq txns :
  summarize_transactions txns = summary_of txns.
Proof.
  unfold summarize_transactions, summary_of, money_string.
  rewrite foldl_summarize. simpl.
  rewrite foldl_dstep_nil.
  fold (income_of txns). fold (expense_of txns).
  unfold income_of, expense_of, sum_from.
  destruct (quantize_cents (foldl Dec.add zero_cents (amount <$> _))) as [i|e]; [|done].
  simpl.
  destruct (quantize_cents (foldl Dec.add zero_cents (abs_amount <$> _))) as [x|e]; [|done].
  simpl.
  destruct (quantize_cents (sub _ _)) as [n|e]; [|done]. simpl.
  rewrite rmapM_fmap.
  rewrite (rmapM_ext _ (fun k => v ← (q ← quantize_cents (category_total_of k txns);
                                      Ok (VStr (to_str q))); Ok (k, v))).
  - done.
  - intros k. simpl. unfold category_total_of, sum_from. rewrite foldl_fmap_l.
    unfold pick. by destruct (quantize_cents _).
Qed.

(** ** [detect_recurring] *)

Lemma foldl_snoc {A} (l acc : list A) : foldl (fun ts t => ts ++ [t]) acc l = acc ++ l.
Proof.
  revert acc. induction l as [|x l IH]; intros acc; simpl; [by rewrite app_nil_r|].
  rewrite IH, <- app_assoc. done.
Qed.

Lemma group_step_eq d t :
  group_step d t =
  if grouped t then dstep group_key (fun ts t => ts ++ [t]) [] d t else d.
Proof.
  unfold group_step, grouped, group_key, merchant_key, dstep.
  destruct (merchant t) as [m|]; [|done]. by destruct (String.eqb m "").
Qed.

Lemma foldl_group_step txns : forall d,
  foldl group_step d txns =
  foldl (dstep group_key (fun ts t => ts ++ [t]) []) d (List.filter grouped txns).
Proof.
  induction txns as [|t txns IH]; intros d; [done|].
  cbn [foldl List.filter]. rewrite group_step_eq.
  destruct (grouped t); [|apply IH]. cbn [foldl]. apply IH.
Qed.

Lemma group_keys txns : group_key <$> List.filter grouped txns = omap merchant_key txns.
Proof.
  induction txns as [|t txns IH]; [done|].
  cbn [List.filter omap list_omap]. unfold grouped at 1.
  destruct (merchant_key t) as [m|] eqn:E; [|exact IH].
  rewrite fmap_cons, IH. unfold group_key. by rewrite E.
Qed.

Lemma pick_group m txns : pick group_key m (List.filter grouped txns) = group_of m txns.
Proof.
  unfold pick, group_of. induction txns as [|t txns IH]; [done|].
  cbn [List.filter]. unfold grouped at 1, has_merchant at 1.
  destruct (merchant_key t) as [m'|] eqn:E; [|exact IH].
  cbn [List.filter]. unfold group_key at 1. rewrite E. cbn [default].
  by rewrite IH.
Qed.

(** The dictionary of groups: every merchant in first-seen order with its
    transactions in input order. *)
Lemma groups_spec txns :
  foldl group_step [] txns =
  (fun m => (m, group_of m txns)) <$> first_seen (omap merchant_key txns).
Proof.
  rewrite foldl_group_step, foldl_dstep_nil, group_keys.
  apply list_fmap_ext. intros i m _. by rewrite foldl_snoc, pick_group.
Qed.

Lemma intervals_of_deltas g : intervals_of g = deltas g.
Proof.
  unfold deltas. induction g as [|a [|b g] IH]; [done..|].
  change (intervals_of (a :: b :: g))
    with (days_between (date b) (date a) :: intervals_of (b :: g)).
  rewrite IH. done.
Qed.

Lemma recurring_entry_spec m g :
  recurring_entry m g =
  if monthly g then
    avg ← mean_abs g; q ← quantize_cents avg; Ok (Some (m, VDec q))
  else Ok None.
Proof.
  unfold recurring_entry, monthly, median_delta, mean_abs.
  destruct (Nat.ltb_spec (List.length g) 2) as [Hlt|Hge].
  { destruct (Nat.leb_spec 2 (List.length g)); [lia|done]. }
  destruct (Nat.leb_spec 2 (List.length g)); [|lia]. cbn [andb].
  rewrite intervals_of_deltas. fold (by_date g).
  destruct (deltas (by_date g)) as [|x xs] eqn:Hd; [done|].
  set (sorted := stable_sort Z.ltb (x :: xs)).
  assert (Hlen : List.length sorted = S (List.length xs))
    by (unfold sorted; by rewrite stable_sort_length).
  destruct (sorted !! (List.length sorted / 2)%nat) as [median|] eqn:Hmed.
  - destruct (_ && _); [|done].
    unfold sum_abs, sum_from. rewrite foldl_fmap_l.
    replace (List.length (by_date g)) with (List.length g)
      by (unfold by_date; by rewrite stable_sort_length).
    done.
  - apply lookup_ge_None in Hmed.
    pose proof (Nat.div_lt (List.length sorted) 2 ltac:(lia) ltac:(lia)). lia.
Qed.

Lemma recurring_loop_spec (f : string -> list Transaction -> bool)
    (k : string -> list Transaction -> result (string * pyval)) gs :
  (forall m g, recurring_entry m g = if f m g then (e ← k m g; Ok (Some e)) else Ok None) ->
  forall acc,
  recurring_loop gs acc =
  (es ← rmapM (fun g => k g.1 g.2) (List.filter (fun g => f g.1 g.2) gs); Ok (acc ++ es)).
Proof.
  intros Hentry. induction gs as [|[m g] gs IH]; intros acc.
  - simpl. by rewrite app_nil_r.
  - simpl. rewrite Hentry. destruct (f m g); simpl.
    + destruct (k m g) as [e|err]; simpl; [|done]. rewrite IH.
      destruct (rmapM _ _) as [es|err]; simpl; [|done]. by rewrite <- app_assoc.
    + apply IH.
Qed.

Lemma filter_fmap_list {A B} (p : B -> bool) (g : A -> B) l :
  List.filter p (g <$> l) = g <$> List.filter (fun x => p (g x)) l.
Proof.
  induction l as [|x l IH]; [done|]. rewrite fmap_cons. simpl.
  destruct (p (g x)); simpl; by rewrite IH.
Qed.

Theorem detect_recurring_spec_eq txns : detect_recurring txns = recurring_of txns.
Proof.
  unfold detect_recurring, recurring_of. rewrite groups_spec.
  rewrite (recurring_loop_spec (fun _ g => monthly g)
             (fun m g => avg ← mean_abs g; q ← quantize_cents avg; Ok (m, VDec q))).
  2:{ intros m g. rewrite recurring_entry_spec. destruct (monthly g); [|done].
      destruct (mean_abs g) as [avg|e]; [|done]. simpl.
      by destruct (quantize_cents avg). }
  rewrite filter_fmap_list, rmapM_fmap. simpl.
  by destruct (rmapM _ _).
Qed.

End AnalyticsFacts.

(** * The analytics: the claims *)

Module AnalyticsTheorems.
Import Dec Money Datetime Analytics AnalyticsSpec.
Import DecFacts DecSigns DecStr DecParse DecTotals AnalyticsFacts Examples.
Import WholeCents WholeCentsFacts WholeCentsTotals Cases.

(** C5.  [summarize_transactions] returns what the specification says:
    the quantized sum of the amounts > 0, the quantized sum of the absolute
    values of the amounts <= 0, the quantized difference of the two
    unquantized sums, and for every category, in first-seen order and with
    "Uncategorized" for a missing one, the quantized sum of its absolute
    amounts; all of them as strings, and an exception where [quantize]
    raises one.  Nothing summarized gives three zero totals and no
    category. *)
Theorem summarize_transactions_spec txns :
  summarize_transactions txns = summary_of txns /\
  summarize_transactions [] =
    Ok (mkSummary (VStr "0.00") (VStr "0.00") (VStr "0.00") []).
Proof. split; [apply summarize_transactions_spec_eq|reflexivity]. Qed.

Example summarize_statement :
  summarize_transactions statement =
  Ok (mkSummary (VStr "2500.00") (VStr "67.97") (VStr "2432.03")
        [("subscriptions", VStr "47.97"); ("Uncategorized", VStr "20.00");
         ("income", VStr "2500.00")]).
Proof. vm_compute. reflexivity. Qed.

(** C4.  [detect_recurring] reports exactly the merchants, in first-seen
    order, whose group of transactions has at least two members and, once
    sorted by date, a sorted list of day-deltas whose element at index
    [floor(n/2)] lies in [27, 33]; each with the quantized mean of the
    absolute amounts of its group.  Transactions without a merchant belong
    to no group, and a merchant with one transaction is not reported. *)
Theorem detect_recurring_spec txns :
  detect_recurring txns = recurring_of txns /\
  forall out, detect_recurring txns = Ok out ->
    out.*1 = List.filter (fun m => monthly (group_of m txns))
                         (first_seen (omap merchant_key txns)) /\
    forall m, List.length (group_of m txns) = 1%nat -> m ∉ out.*1.
Proof.
  split; [apply detect_recurring_spec_eq|].
  intros out Hout. rewrite detect_recurring_spec_eq in Hout. unfold recurring_of in Hout.
  assert (Hkeys : out.*1 = List.filter (fun m => monthly (group_of m txns))
                             (first_seen (omap merchant_key txns))).
  { revert out Hout.
    induction (List.filter _ _) as [|m ms IH]; intros out Hout.
    - by injection Hout as <-.
    - cbn [rmapM] in Hout.
      destruct (mean_abs (group_of m txns)) as [avg|e]; [|done]. simpl in Hout.
      destruct (quantize_cents avg) as [q|e]; [|done]. simpl in Hout.
      destruct (rmapM _ ms) as [rest|e]; [|done]. injection Hout as <-.
      simpl. f_equal. by apply IH. }
  split; [done|].
  intros m Hlen Hin. rewrite Hkeys in Hin.
  apply list_elem_of_In, filter_In in Hin as [_ Hm].
  unfold monthly in Hm. rewrite Hlen in Hm. done.
Qed.

Lemma detect_recurring_spec_witness :
  detect_recurring statement
    = Ok [("netflix", VDec (mkDecimal false 1599 (-2)))] /\
  List.length (group_of "shop" statement) = 1%nat /\
  "shop" ∉ [("netflix", VDec (mkDecimal false 1599 (-2)))].*1.
Proof.
  assert (H1 : detect_recurring statement
                 = Ok [("netflix", VDec (mkDecimal false 1599 (-2)))])
    by (vm_compute; reflexivity).
  assert (H2 : List.length (group_of "shop" statement) = 1%nat) by reflexivity.
  split; [exact H1|]. split; [exact H2|].
  exact (proj2 (proj2 (detect_recurring_spec statement) _ H1) "shop" H2).
Defined.

(** ** The reported totals *)

Lemma money_string_exact d q :
  quantize_cents d = Ok q -> exact_decimal_string (VStr (to_str q)).
Proof.
  intros Hq. apply quantize_Ok in Hq as (He & _).
  exists (to_str q). split; [done|]. split; [by apply to_str_two_decimal|].
  exists (signed q). by apply cents_of_to_str.
Qed.

Lemma summarize_transactions_inv txns s :
  summarize_transactions txns = Ok s ->
  exists inc exp i e n cats,
    inc = income_of txns /\ exp = expense_of txns /\
    quantize_cents inc = Ok i /\ quantize_cents exp = Ok e /\
    quantize_cents (sub inc exp) = Ok n /\
    rmapM (fun k => v ← money_string (category_total_of k txns); Ok (k, v))
          (first_seen (category_key <$> txns)) = Ok cats /\
    s = mkSummary (VStr (to_str i)) (VStr (to_str e)) (VStr (to_str n)) cats.
Proof.
  rewrite summarize_transactions_spec_eq. unfold summary_of, money_string.
  destruct (quantize_cents (income_of txns)) as [i|?] eqn:Hi; [|done]. simpl.
  destruct (quantize_cents (expense_of txns)) as [e|?] eqn:He; [|done]. simpl.
  destruct (quantize_cents (sub _ _)) as [n|?] eqn:Hn; [|done]. simpl.
  destruct (rmapM _ _) as [cats|?] eqn:Hc; [|done]. simpl.
  intros [= <-]. by eexists _, _, i, e, n, cats.
Qed.

Lemma income_running txns :
  Forall (fun t => whole_cents (amount t) = true) txns -> running (income_of txns).
Proof.
  intros Hw. apply foldl_running; [apply running_zero_cents|].
  apply Forall_fmap, Forall_forall. intros t Ht.
  apply list_elem_of_In, filter_In in Ht as [Ht Hpos].
  rewrite Forall_forall in Hw. apply positive_running; [|done].
  apply Hw. by apply list_elem_of_In.
Qed.

Lemma expense_running txns :
  Forall (fun t => whole_cents (amount t) = true) txns -> running (expense_of txns).
Proof.
  intros Hw. apply foldl_running; [apply running_zero_cents|].
  apply Forall_fmap, Forall_forall. intros t Ht.
  apply list_elem_of_In, filter_In in Ht as [Ht _].
  rewrite Forall_forall in Hw. apply abs_running. apply Hw. by apply list_elem_of_In.
Qed.

(** C6, as far as it holds.  When every amount is a whole number of cents,
    with whatever exponent it is written ([12], [-4.5], [0], [15.99],
    [1.500]), the three totals that [summarize_transactions] reports
    satisfy [net_cash_flow = total_income - total_expense] exactly. *)
Theorem summarize_net_identity txns s :
  Forall (fun t => whole_cents (amount t) = true) txns ->
  summarize_transactions txns = Ok s ->
  exists i e n,
    cents_of (total_income s) = Some i /\
    cents_of (total_expense s) = Some e /\
    cents_of (net_cash_flow s) = Some n /\
    n = i - e.
Proof.
  intros Hw Hs.
  destruct (summarize_transactions_inv _ _ Hs)
    as (inc & exp & i & e & n & cats & -> & -> & Hi & He & Hn & _ & ->).
  destruct (quantize_running _ _ (income_running txns Hw) Hi) as (zi & Hzi & Hxi & Hie & His).
  destruct (quantize_running _ _ (expense_running txns Hw) He) as (ze & Hze & Hxe & Hee & Hes).
  assert (Hsub : exactly (zi - ze) (sub (income_of txns) (expense_of txns))).
  { apply sub_exactly; [done|done|lia]. }
  destruct (quantize_exactly _ _ _ Hsub Hn) as [Hne Hns].
  exists zi, ze, (zi - ze). simpl. rewrite !cents_of_to_str by done.
  rewrite His, Hes, Hns. done.
Qed.

Lemma summarize_net_identity_witness :
  Forall (fun t => whole_cents (amount t) = true) mixed_statement /\
  summarize_transactions mixed_statement =
    Ok (mkSummary (VStr "13.50") (VStr "20.49") (VStr "-6.99")
          [("Uncategorized", VStr "33.99")]) /\
  exists i e n,
    cents_of (VStr "13.50") = Some i /\ cents_of (VStr "20.49") = Some e /\
    cents_of (VStr "-6.99") = Some n /\ n = i - e.
Proof.
  assert (H1 : Forall (fun t => whole_cents (amount t) = true) mixed_statement)
    by (repeat constructor).
  assert (H2 : summarize_transactions mixed_statement =
    Ok (mkSummary (VStr "13.50") (VStr "20.49") (VStr "-6.99")
          [("Uncategorized", VStr "33.99")])) by (vm_compute; reflexivity).
  split; [exact H1|]. split; [exact H2|].
  exact (summarize_net_identity mixed_statement _ H1 H2).
Defined.

(** C6 as stated fails: with 10.004 received and 5.005 spent the report
    reads income 10.00, expense 5.01 and net 5.00, and 10.00 - 5.01 is
    4.99. *)
Lemma summarize_net_identity_fails :
  exists s,
    summarize_transactions sub_cent_statement = Ok s /\
    cents_of (total_income s) = Some 1000 /\
    cents_of (total_expense s) = Some 501 /\
    cents_of (net_cash_flow s) = Some 500 /\
    500 <> 1000 - 501.
Proof.
  eexists. split; [vm_compute; reflexivity|].
  split; [reflexivity|]. split; [reflexivity|]. split; [reflexivity|]. lia.
Qed.

End AnalyticsTheorems.

(** * The normalizer *)

Module NormalizerTheorems.
Import Dec Datetime Strptime Normalizer NormalizerSpec Examples.

Lemma strptime_raises s fmt e :
  strptime s fmt = Raise e -> exists msg, e = ValueError msg.
Proof.
  unfold strptime.
  destruct (regex_match fmt _) as [[caps [|c rest]]|]; [|intros [= <-]; by eexists ..].
  destruct (valid_date _ _ _); [done|]. intros [= <-]. by eexists.
Qed.

Lemma try_formats_cons fmt rest s :
  try_formats (fmt :: rest) s =
    match parses_as fmt s with
    | Some t => Ok t
    | None => try_formats rest s
    end.
Proof.
  unfold parses_as. simpl.
  destruct (strptime s fmt) as [t|e] eqn:H; [done|].
  by destruct (strptime_raises _ _ _ H) as (msg & ->).
Qed.

Lemma parse_date_parsed s : _parse_date (VStr s) = parsed_date s.
Proof.
  unfold _parse_date, formats, parsed_date, first_match.
  rewrite !try_formats_cons.
  destruct (parses_as fmt_iso s); [done|].
  destruct (parses_as fmt_us s); [done|].
  by destruct (parses_as fmt_intl s).
Qed.

Lemma blank_get raw k : blank raw k = negb (truthy (get raw k)).
Proof. unfold blank, get. by destruct (raw !! k). Qed.

Lemma no_date_field raw : no_date raw = true -> truthy (date_field raw) = false.
Proof.
  unfold no_date, date_fields, date_field, py_or. simpl.
  rewrite !blank_get, !andb_true_iff, !negb_true_iff.
  intros (H1 & H2 & H3 & _). by rewrite H1, H2, H3.
Qed.

(** C9.  The date parser gives a string to the ISO format first, then to
    month/day/year, then to day/month/year, and returns what the first
    format that matches makes of it; when none matches it raises the error
    that names the string.  So "03/04/2025" is the fourth of March.  A
    record whose date-bearing field holds the string (the first of [date],
    [timestamp], [datetime] that is not blank) is normalized with that
    date, and fails with that error when no format matches. *)
Theorem parse_date_priority s :
  _parse_date (VStr s) = parsed_date s /\
  (forall t, parses_as fmt_iso s = Some t -> _parse_date (VStr s) = Ok t) /\
  (forall t, parses_as fmt_iso s = None -> parses_as fmt_us s = Some t ->
             _parse_date (VStr s) = Ok t) /\
  (forall t, parses_as fmt_iso s = None -> parses_as fmt_us s = None ->
             parses_as fmt_intl s = Some t -> _parse_date (VStr s) = Ok t) /\
  (parses_as fmt_iso s = None -> parses_as fmt_us s = None ->
   parses_as fmt_intl s = None ->
   _parse_date (VStr s) = Raise (ValueError ("Unable to parse date: " +:+ s))) /\
  _parse_date (VStr "03/04/2025") = Ok (mkDatetime 2025 3 4 0 0 0 0) /\
  forall Decimal_of_str raw,
    date_field raw = VStr s -> s <> "" ->
    (first_match s = None ->
     normalize_transaction Decimal_of_str raw = Raise (date_parse_error s)) /\
    (forall t, first_match s = Some t ->
     normalize_transaction Decimal_of_str raw = finish Decimal_of_str raw (Some t)).
Proof.
  pose proof (parse_date_parsed s) as Hp.
  split; [exact Hp|].
  unfold parsed_date, first_match in Hp.
  split; [intros t H1; by rewrite Hp, H1|].
  split; [intros t H1 H2; by rewrite Hp, H1, H2|].
  split; [intros t H1 H2 H3; by rewrite Hp, H1, H2, H3|].
  split; [intros H1 H2 H3; by rewrite Hp, H1, H2, H3|].
  split; [reflexivity|].
  intros D raw Hf Hs.
  assert (Ht : truthy (VStr s) = true).
  { simpl. destruct s; [done|reflexivity]. }
  unfold normalize_transaction, parse_date_field. rewrite Hf, Ht, parse_date_parsed.
  unfold parsed_date. split.
  - by intros ->.
  - by intros t ->.
Qed.

Lemma parse_date_priority_witness :
  (date_field raw_unreadable = VStr "14.03.2025" /\
   first_match "14.03.2025" = None /\
   normalize_transaction decimal_of_plain raw_unreadable
     = Raise (ValueError "Unable to parse date: 14.03.2025")) /\
  (date_field raw_us = VStr "03/04/2025" /\
   first_match "03/04/2025" = Some (mkDatetime 2025 3 4 0 0 0 0) /\
   normalize_transaction decimal_of_plain raw_us
     = Ok (mkNormalized (Some (mkDatetime 2025 3 4 0 0 0 0)) (VStr "coffee")
             (mkDecimal true 450 (-2)) "USD" VNone (VStr "  coffee shop ") VNone)) /\
  (parses_as fmt_iso "13/04/2025" = None /\ parses_as fmt_us "13/04/2025" = None /\
   _parse_date (VStr "13/04/2025") = Ok (mkDatetime 2025 4 13 0 0 0 0)).
Proof.
  split; [|split].
  - split; [reflexivity|]. split; [reflexivity|].
    apply (proj2 (proj2 (proj2 (proj2 (proj2 (proj2 (parse_date_priority "14.03.2025"))))))
             decimal_of_plain raw_unreadable); [reflexivity|discriminate|reflexivity].
  - split; [reflexivity|]. split; [reflexivity|].
    etransitivity.
    + apply (proj2 (proj2 (proj2 (proj2 (proj2 (proj2 (parse_date_priority "03/04/2025"))))))
               decimal_of_plain raw_us); [reflexivity|discriminate|reflexivity].
    + reflexivity.
  - split; [reflexivity|]. split; [reflexivity|].
    apply (proj1 (proj2 (proj2 (proj2 (parse_date_priority "13/04/2025")))));
      reflexivity.
Defined.

(** Where day and month are both at most twelve, both slash formats match
    and the first number is taken for the month. *)
Example slash_dates_month_first :
  forallb (fun a => forallb (fun b =>
      match _parse_date (VStr (slash_date a b)), parses_as fmt_intl (slash_date a b) with
      | Ok t, Some t' =>
          (month t =? Z.of_nat a) && (day t =? Z.of_nat b) &&
          (day t' =? Z.of_nat a) && (month t' =? Z.of_nat b)
      | _, _ => false
      end) up_to_twelve) up_to_twelve = true.
Proof. vm_compute. reflexivity. Qed.

Example parse_date_examples :
  _parse_date (VStr "2025-03-14") = Ok (mkDatetime 2025 3 14 0 0 0 0) /\
  _parse_date (VStr "2025-1-5") = Ok (mkDatetime 2025 1 5 0 0 0 0) /\
  _parse_date (VStr "2025-02-30") = Raise (ValueError "Unable to parse date: 2025-02-30") /\
  _parse_date (VStr "2025-01-05x") = Raise (ValueError "Unable to parse date: 2025-01-05x") /\
  _parse_date (VStr "") = Raise (ValueError "Unable to parse date: ") /\
  _parse_date (VInt 20250314) = Raise TypeError.
Proof. repeat split; reflexivity. Qed.

Lemma finish_raises D raw date e :
  finish D raw date = Raise e ->
  e = AttributeError \/ exists v, raw !! "amount" = Some v /\ D (py_str v) = Raise e.
Proof.
  unfold finish.
  destruct (merchant_of raw) as [m|e1] eqn:Hm; simpl.
  2:{ intros [= <-]. left. unfold merchant_of in Hm.
      destruct (truthy _); [done|].
      destruct (get_or _ _ _); try by inversion Hm.
      by destruct (String.eqb _ _). }
  destruct (amount_of D raw) as [a|e2] eqn:Ha; simpl.
  2:{ intros [= <-]. right. unfold amount_of, _to_decimal, get in Ha.
      destruct (raw !! "amount") as [v|]; [|done]. exists v. split; [done|].
      by destruct v. }
  destruct (currency_of raw) as [c|e3] eqn:Hc; simpl; [done|].
  intros [= <-]. left. unfold currency_of in Hc.
  by destruct (get_or _ _ _); inversion Hc.
Qed.

(** C3, as the code has it.  A record in which every date-bearing field is
    missing (or blank: [None], an empty string) does not reach the date
    parser: it is normalized as the rest of the record is, with no date.
    Every transaction returned for it has the date [None], and it can fail
    only where another field does: a description or currency that is not a
    string, or an amount that does not read as a decimal. *)
Theorem normalize_without_date Decimal_of_str raw :
  no_date raw = true ->
  normalize_transaction Decimal_of_str raw = finish Decimal_of_str raw None /\
  (forall n, normalize_transaction Decimal_of_str raw = Ok n -> n_date n = None) /\
  (forall e, normalize_transaction Decimal_of_str raw = Raise e ->
     e = AttributeError \/
     exists v, raw !! "amount" = Some v /\ Decimal_of_str (py_str v) = Raise e) /\
  (forall m a c,
     merchant_of raw = Ok m -> amount_of Decimal_of_str raw = Ok a ->
     currency_of raw = Ok c ->
     normalize_transaction Decimal_of_str raw =
       Ok (mkNormalized None m a c (get raw "category")
             (get_or raw "description" (VStr "")) (get raw "account"))).
Proof.
  intros Hn. apply no_date_field in Hn.
  assert (Heq : normalize_transaction Decimal_of_str raw = finish Decimal_of_str raw None).
  { unfold normalize_transaction, parse_date_field. by rewrite Hn. }
  split; [exact Heq|]. rewrite Heq. split; [|split].
  - unfold finish. intros n.
    destruct (merchant_of raw); [|done]. simpl.
    destruct (amount_of _ raw); [|done]. simpl.
    destruct (currency_of raw); [|done]. simpl. by intros [= <-].
  - apply finish_raises.
  - intros m a c Hm Ha Hc. unfold finish. by rewrite Hm, Ha, Hc.
Qed.

Lemma normalize_without_date_witness :
  no_date raw_blank_date = true /\
  normalize_transaction decimal_of_plain raw_blank_date =
    Ok (mkNormalized None (VStr "Grocer") (mkDecimal false 0 0) "USD" VNone (VStr "") VNone).
Proof.
  split; [reflexivity|].
  apply (proj2 (proj2 (proj2 (normalize_without_date decimal_of_plain raw_blank_date
                                eq_refl)))); reflexivity.
Defined.

(** The record with no field at all is normalized, with no date. *)
Lemma normalize_empty_record :
  (forall key, key ∈ date_fields -> raw_empty !! key = None) /\
  normalize_transaction decimal_of_plain raw_empty =
    Ok (mkNormalized None (VStr "Unknown") (mkDecimal false 0 0) "USD" VNone (VStr "") VNone) /\
  ~ exists e, normalize_transaction decimal_of_plain raw_empty = Raise e.
Proof.
  split; [intros key _; apply lookup_empty|].
  split; [reflexivity|]. intros [e He]. discriminate He.
Qed.

End NormalizerTheorems.

(** * Money at the interface *)

Module InterfaceTheorems.
Import Dec Money PlansDebt PayoffSpec Analytics AnalyticsSpec Examples.
Import DecFacts DecStr DecParse PayoffTheorems AnalyticsTheorems.

Lemma recurring_entry_decimal m txns e :
  recurring_entry m txns = Ok (Some e) -> cents_object e.2.
Proof.
  unfold recurring_entry.
  destruct (_ <? _)%nat; [done|].
  destruct (intervals_of _); [done|].
  destruct (_ !! _); [|done].
  destruct (_ && _); [|done].
  destruct (div _ _) as [avg|]; [|done]. simpl.
  destruct (quantize_cents avg) as [q|] eqn:Hq; [|done]. simpl.
  intros [= <-]. exists q. split; [done|].
  by apply quantize_Ok in Hq as (He & _).
Qed.

Lemma recurring_loop_decimal groups : forall acc out,
  Forall (fun e => cents_object e.2) acc ->
  recurring_loop groups acc = Ok out ->
  Forall (fun e : string * pyval => cents_object e.2) out.
Proof.
  induction groups as [|[m txns] rest IH]; intros acc out Hacc; simpl.
  - by intros [= <-].
  - destruct (recurring_entry m txns) as [[e|]|] eqn:He; [| |done]; simpl.
    + apply IH. apply Forall_app. split; [done|].
      constructor; [|done]. by eapply recurring_entry_decimal.
    + by apply IH.
Qed.

Lemma snapshot_exact month ds :
  Forall quantized ds ->
  Forall (fun e : string * pyval => exact_decimal_string e.2)
         (snap_debts (snapshot_of month ds)).
Proof.
  intros HQ. simpl. apply Forall_fmap. eapply Forall_impl; [exact HQ|].
  intros d [Hb _]. simpl. exists (to_str (balance d)).
  split; [done|]. split; [by apply to_str_two_decimal|].
  exists (signed (balance d)). by apply cents_of_to_str.
Qed.

(** C7, as the code has it.  The totals and the category totals of
    [summarize_transactions], and the balances in every snapshot of a
    [payoff_plan] schedule, are strings with two decimal places that read
    back as a whole number of cents.  The average amounts of
    [detect_recurring] are not strings: each is a [Decimal] object with
    two places, as the function's signature says. *)
Theorem money_at_interface :
  (forall txns s,
     summarize_transactions txns = Ok s ->
     exact_decimal_string (total_income s) /\
     exact_decimal_string (total_expense s) /\
     exact_decimal_string (net_cash_flow s) /\
     Forall (fun e => exact_decimal_string e.2) (category_totals s)) /\
  (forall h debts ls ds extra method r,
     h !! debts = Some (OList ls) -> debts_at h ls ds ->
     (payoff_plan debts extra method h).2 = Ok (Some r) ->
     Forall (fun snap => Forall (fun e => exact_decimal_string e.2) (snap_debts snap))
            (r_schedule r)) /\
  (forall txns out,
     detect_recurring txns = Ok out ->
     Forall (fun e => cents_object e.2 /\ is_str e.2 = false) out).
Proof.
  split; [|split].
  - intros txns s Hs.
    destruct (summarize_transactions_inv _ _ Hs)
      as (inc & exp & i & e & n & cats & -> & -> & Hi & He & Hn & Hc & ->). simpl.
    split; [by eapply money_string_exact|].
    split; [by eapply money_string_exact|].
    split; [by eapply money_string_exact|].
    eapply (rmapM_Forall _ (fun _ => True)); [|by apply Forall_true|exact Hc].
    intros k [k' v] _. unfold money_string.
    destruct (quantize_cents (category_total_of k txns)) as [q|] eqn:Hq; [|done].
    simpl. intros [= _ <-]. simpl. by eapply money_string_exact.
  - intros h debts ls ds extra method r HL Hat Hres.
    destruct (payoff_plan_run _ _ _ _ _ _ _ HL Hat Hres) as (ds0 & extra0 & n & final & Hr).
    apply Forall_lookup. intros i snap Hi.
    assert (Hlt : (i < n)%nat).
    { rewrite <- (run_length _ _ _ _ _ _ _ _ Hr). by eapply lookup_lt_Some. }
    destruct (run_month _ _ _ _ _ _ _ _ Hr i Hlt) as (s & s' & _ & _ & _ & HQ & H3).
    assert (Hsnap : Some snap = Some (snapshot_of (Z.of_nat i + 1) s'))
      by (rewrite <- Hi; exact H3).
    injection Hsnap as ->. by apply snapshot_exact.
  - intros txns out Hout.
    eapply Forall_impl; [eapply recurring_loop_decimal; [|exact Hout]; constructor|].
    intros e (q & Hq & He). split; [by exists q|]. by rewrite Hq.
Qed.

Lemma money_at_interface_witness :
  let s := mkSummary (VStr "2500.00") (VStr "67.97") (VStr "2432.03")
             [("subscriptions", VStr "47.97"); ("Uncategorized", VStr "20.00");
              ("income", VStr "2500.00")] in
  let h := one_debt_store debt_paid_at_once in
  let r := mkPayoffResult "avalanche" 1 [mkSnapshot 1 [("card", VStr "0.00")]] true in
  let out := [("netflix", VDec (mkDecimal false 1599 (-2)))] in
  (summarize_transactions statement = Ok s /\
   exact_decimal_string (net_cash_flow s)) /\
  (h !! 2%positive = Some (OList [1%positive]) /\
   debts_at h [1%positive] [debt_paid_at_once] /\
   (payoff_plan 2%positive (cents 0) "avalanche" h).2 = Ok (Some r) /\
   Forall (fun snap => Forall (fun e => exact_decimal_string e.2) (snap_debts snap))
          (r_schedule r)) /\
  (detect_recurring statement = Ok out /\
   Forall (fun e => cents_object e.2 /\ is_str e.2 = false) out).
Proof.
  intros s h r out.
  assert (Hs : summarize_transactions statement = Ok s) by (vm_compute; reflexivity).
  assert (H1 : h !! 2%positive = Some (OList [1%positive])) by reflexivity.
  assert (H2 : debts_at h [1%positive] [debt_paid_at_once]) by (repeat constructor).
  assert (H3 : (payoff_plan 2%positive (cents 0) "avalanche" h).2 = Ok (Some r))
    by (vm_compute; reflexivity).
  assert (Ho : detect_recurring statement = Ok out) by (vm_compute; reflexivity).
  split; [|split].
  - split; [exact Hs|].
    exact (proj1 (proj2 (proj2 (proj1 money_at_interface statement s Hs)))).
  - split; [exact H1|]. split; [exact H2|]. split; [exact H3|].
    exact (proj1 (proj2 money_at_interface) h 2%positive [1%positive]
             [debt_paid_at_once] (cents 0) "avalanche" r H1 H2 H3).
  - split; [exact Ho|].
    exact (proj2 (proj2 money_at_interface) statement out Ho).
Defined.

(** The amount [detect_recurring] reports for the statement's subscription
    is a [Decimal], not a string. *)
Lemma detect_recurring_returns_decimal :
  detect_recurring statement = Ok [("netflix", VDec (mkDecimal false 1599 (-2)))] /\
  ~ exact_decimal_string (VDec (mkDecimal false 1599 (-2))).
Proof.
  split; [vm_compute; reflexivity|]. intros (s & Hs & _). discriminate Hs.
Qed.

End InterfaceTheorems.

(** * Rounding to cents, and adding *)

Module MoneyExtras.
Import Dec Money MoneySpec DecFacts MoneyFacts Examples Cases.








End MoneyExtras.

(** * The payoff simulation: more of what the code does *)

Module PayoffMoreFacts.
Import Dec Money PlansDebt PayoffSpec PayoffShape DecFacts DecSigns PayoffFacts PayoffLoop.
Import PayoffTheorems MoneyFacts.

Local Abbreviation ro := raises_only_invalid.

Lemma fix_ctx_nonzero d : d_int d <> 0%N -> d_int (fix_ctx d) <> 0%N.
Proof.
  intros Hd. destruct (fix_ctx_cases d) as [->|[_ [Hlo _]]]; [done|].
  assert (0 < 10 ^ (prec - 1)) by (apply pow10_pos; unfold prec; lia). lia.
Qed.

Lemma pow10_N_pos k : (0 < 10 ^ k)%N.
Proof. apply N.neq_0_lt_0, N.pow_nonzero. lia. Qed.

(** The quotient by twelve is computed with enough digits never to vanish. *)
Lemma monthly_rate_quotient c :
  c <> 0%N ->
  let shift := ndigits 12 - ndigits c + prec + 1 in
  let num := if 0 <=? shift then (c * 10 ^ Z.to_N shift)%N else c in
  let den := if 0 <=? shift then 12%N else (12 * 10 ^ Z.to_N (- shift))%N in
  (num / den)%N <> 0%N.
Proof.
  intros Hc shift num den.
  assert (Hden : (den <= num)%N).
  { pose proof (ndigits_bounds c Hc) as [Hlo _]. pose proof (ndigits_pos c) as Hn1.
    assert (Hs : shift = 31 - ndigits c) by (unfold shift, prec; by vm_compute (ndigits 12); lia).
    unfold num, den. apply N2Z.inj_le.
    destruct (Z.leb_spec 0 shift) as [H0|H0].
    - rewrite N2Z.inj_mul, N2Z.inj_pow, Z2N.id by lia. change (Z.of_N 12) with 12.
      change (Z.of_N 10) with 10.
      assert (H30 : 10 ^ 30 <= Z.of_N c * 10 ^ shift).
      { replace 30 with ((ndigits c - 1) + shift) by lia.
        rewrite Z.pow_add_r by lia.
        apply Z.mul_le_mono_nonneg_r; [apply Z.pow_nonneg; lia|done]. }
      assert (12 <= 10 ^ 30) by (apply Z.leb_le; reflexivity). lia.
    - rewrite N2Z.inj_mul, N2Z.inj_pow, Z2N.id by lia. change (Z.of_N 12) with 12.
      change (Z.of_N 10) with 10.
      assert (H2 : 12 * 10 ^ (- shift) <= 10 ^ (2 + - shift)).
      { rewrite Z.pow_add_r by lia. change (10 ^ 2) with 100.
        assert (0 < 10 ^ (- shift)) by (apply pow10_pos; lia). lia. }
      assert (H3 : 10 ^ (2 + - shift) <= 10 ^ (ndigits c - 1)).
      { apply Z.pow_le_mono_r; lia. }
      lia. }
  assert (Hpos : (0 < den)%N).
  { unfold den. destruct (0 <=? shift); [lia|]. pose proof (pow10_N_pos (Z.to_N (- shift))). lia. }
  intros Hq. apply N.div_small_iff in Hq; lia.
Qed.

Lemma monthly_rate_returns apr :
  exists rate, _monthly_rate apr = Ok rate /\ d_sign rate = d_sign apr /\
               is_zero rate = is_zero apr.
Proof.
  unfold _monthly_rate, div. cbn [is_zero d_int d_sign d_exp]. change (12 =? 0)%N with false.
  cbn iota. rewrite xorb_false_r.
  destruct (is_zero apr) eqn:Hz.
  - eexists. split; [reflexivity|]. rewrite fix_ctx_sign. split; [done|].
    rewrite fix_ctx_zero by done. done.
  - apply is_zero_false in Hz. pose proof (monthly_rate_quotient _ Hz) as Hq. cbv zeta in Hq.
    set (shift := ndigits 12 - ndigits (d_int apr) + prec + 1) in *.
    set (num := if 0 <=? shift then (d_int apr * 10 ^ Z.to_N shift)%N else d_int apr) in *.
    set (den := if 0 <=? shift then 12%N else (12 * 10 ^ Z.to_N (- shift))%N) in *.
    set (q := (num / den)%N) in *.
    destruct (N.eqb_spec (num mod den) 0) as [Hr|Hr].
    + destruct (strip_zeros _ q _) as [q' e'] eqn:Hs.
      eexists. split; [reflexivity|]. rewrite fix_ctx_sign. split; [done|].
      apply is_zero_false, fix_ctx_nonzero. simpl.
      intros H0. apply Hq. eapply strip_zeros_zero. by rewrite Hs.
    + eexists. split; [reflexivity|]. rewrite fix_ctx_sign. split; [done|].
      apply is_zero_false, fix_ctx_nonzero. cbn [d_int].
      destruct (q mod 5 =? 0)%N; lia.
Qed.

(** The copies are made whenever the monetary fields can be quantized. *)
Lemma copy_all_run ls : forall h ds ds0,
  debts_at h ls ds -> rmapM copy_of ds = Ok ds0 ->
  exists h1 copies, comprehension ls copy_debt h = (h1, Ok copies).
Proof.
  induction ls as [|l ls IH]; intros h ds ds0 Hat Hcopy.
  - by eexists _, _.
  - inversion Hat as [|? d ? ds' Hld Hat']; subst. simpl in Hcopy.
    destruct (copy_of d) as [c|e] eqn:Hc; [|done]. simpl in Hcopy.
    destruct (rmapM copy_of ds') as [cs|e] eqn:Hcs; [|done].
    simpl. rewrite bind_run, (copy_debt_run _ _ _ Hld), Hc, bind_run.
    destruct (IH (<[fresh (dom h) := ODebt c]> h) ds' cs) as (h1 & copies & ->);
      [eapply debts_at_weaken; [apply alloc_subseteq|done]|done|].
    by eexists _, _.
Qed.

Lemma quantize_cents_not_positive b q :
  quantize_cents b = Ok q -> leb b zero = true -> leb q zero = true.
Proof.
  intros Hq Hb. rewrite leb_zero in *. apply negb_true_iff in Hb. apply negb_true_iff.
  destruct (gtb q zero) eqn:Hg; [|done]. apply gtb_zero in Hg as [Hs Hi].
  destruct (gtb b zero) eqn:Hgb; [done|].
  assert (Hnb : ~ gt_zero b) by (intros H; apply gtb_zero in H; congruence).
  unfold quantize_cents in Hq.
  destruct (N.eq_dec (d_int b) 0) as [H0|H0].
  - rewrite quantize_zero in Hq by done. injection Hq as Hq. subst q. by simpl in Hi.
  - apply quantize_Ok in Hq as (_ & Hsign & _). exfalso. apply Hnb. split; [congruence|done].
Qed.

Lemma copy_of_not_positive d c :
  copy_of d = Ok c -> leb (balance d) zero = true -> leb (balance c) zero = true.
Proof.
  unfold copy_of.
  destruct (quantize_cents (balance d)) as [b|e] eqn:Hb; [|done]. simpl.
  destruct (quantize_cents (min_payment d)) as [m|e] eqn:Hm; [|done]. simpl.
  intros [= <-]. simpl. by eapply quantize_cents_not_positive.
Qed.

Lemma copy_of_all_paid ds : forall ds0,
  rmapM copy_of ds = Ok ds0 -> all_paid_off ds = true -> all_paid_off ds0 = true.
Proof.
  induction ds as [|d ds IH]; intros ds0 Hc Hp.
  - by injection Hc as <-.
  - cbn [rmapM] in Hc.
    destruct (copy_of d) as [c|e] eqn:Hcd; [|done]. simpl in Hc.
    destruct (rmapM copy_of ds) as [cs|e] eqn:Hcs; [|done]. simpl in Hc.
    injection Hc as <-. unfold all_paid_off in *. simpl in *.
    apply andb_true_iff in Hp as [H1 H2]. apply andb_true_iff.
    split; [by eapply copy_of_not_positive|by apply IH].
Qed.

Lemma Forall_all_paid ds :
  Forall (fun d => leb (balance d) zero = true) ds -> all_paid_off ds = true.
Proof. induction 1 as [|d l Hd _ IH]; [done|]. unfold all_paid_off in *. simpl. by rewrite Hd. Qed.

Lemma bind_ext {A B} (m : M A) (k k' : A -> M B) h :
  (forall a h', k a h' = k' a h') -> (m ≫= k) h = (m ≫= k') h.
Proof. intros E. rewrite !bind_run. destruct (m h) as [h' [a|e]]; [apply E|done]. Qed.

Lemma apply_extra_nothing ls rem h :
  leb rem zero = true -> apply_extra ls rem h = (h, Ok tt).
Proof. intros H. destruct ls; simpl; [done|]. by rewrite H. Qed.

Lemma month_body_no_extra debts e e' method month h :
  leb e zero = true -> leb e' zero = true ->
  month_body debts e method month h = month_body debts e' method month h.
Proof.
  intros He He'. unfold month_body.
  apply bind_ext. intros _ h1. apply bind_ext. intros ls h2.
  apply bind_ext. intros _ h3. apply bind_ext. intros _ h4.
  rewrite !bind_run, !apply_extra_nothing by done. done.
Qed.

Lemma while_loop_no_extra debts e e' method fuel : forall month schedule h,
  leb e zero = true -> leb e' zero = true ->
  while_loop fuel debts e method month schedule h =
  while_loop fuel debts e' method month schedule h.
Proof.
  induction fuel as [|fuel IH]; intros month schedule h He He'; rewrite !while_loop_unfold.
  - done.
  - destruct (negb (month <? max_months)); [done|].
    apply bind_ext. intros go h1. destruct (negb go); [done|].
    rewrite !bind_run, (month_body_no_extra debts e e') by done.
    destruct (month_body _ _ _ _ _) as [h2 [snap|x]]; [|done]. by apply IH.
Qed.

Lemma comprehension_ext {A B} (f g : A -> M B) ls : forall h,
  (forall x h, f x h = g x h) -> comprehension ls f h = comprehension ls g h.
Proof.
  induction ls as [|x ls IH]; intros h E; [done|]. simpl.
  rewrite !bind_run, E. destruct (g x h) as [h' [y|e]]; [|done].
  rewrite !bind_run, IH by done. done.
Qed.

Lemma sort_key_other method d :
  method <> "avalanche" -> sort_key method d = sort_key "snowball" d.
Proof.
  intros H. unfold sort_key. apply String.eqb_neq in H. by rewrite H.
Qed.

Lemma sort_debts_other debts method h :
  method <> "avalanche" -> sort_debts debts method h = sort_debts debts "snowball" h.
Proof.
  intros H. unfold sort_debts. apply bind_ext. intros ls h1.
  rewrite !bind_run.
  rewrite (comprehension_ext _ (fun l => d ← get_debt l; mret (sort_key "snowball" d, l))).
  - done.
  - intros l h'. apply bind_ext. intros d h''. by rewrite sort_key_other.
Qed.

Lemma month_body_other debts e method month h :
  method <> "avalanche" ->
  month_body debts e method month h = month_body debts e "snowball" month h.
Proof. intros H. unfold month_body. rewrite !bind_run, sort_debts_other by done. done. Qed.

Lemma while_loop_other debts e method fuel : forall month schedule h,
  method <> "avalanche" ->
  while_loop fuel debts e method month schedule h =
  while_loop fuel debts e "snowball" month schedule h.
Proof.
  induction fuel as [|fuel IH]; intros month schedule h Hm; rewrite !while_loop_unfold.
  - done.
  - destruct (negb (month <? max_months)); [done|].
    apply bind_ext. intros go h1. destruct (negb go); [done|].
    rewrite !bind_run, month_body_other by done.
    destruct (month_body _ _ _ _ _) as [h2 [snap|x]]; [|done]. by apply IH.
Qed.

Lemma accrue_name d d' : accrue d = Ok d' -> name d' = name d.
Proof.
  unfold accrue. destruct (gtb _ _); [|by intros [= <-]].
  destruct (div _ _) as [rate|]; [|done]. simpl.
  destruct (quantize_cents _) as [i|]; [|done]. simpl. by intros [= <-].
Qed.

Lemma rmapM_names (f : Debt -> result Debt) ds : forall ds',
  (forall d d', f d = Ok d' -> name d' = name d) ->
  rmapM f ds = Ok ds' -> name <$> ds' = name <$> ds.
Proof.
  induction ds as [|d ds IH]; intros ds' Hf H.
  - by injection H as <-.
  - cbn [rmapM] in H. destruct (f d) as [d'|] eqn:Hd; [|done]. simpl in H.
    destruct (rmapM f ds) as [l|] eqn:Hl; [|done]. simpl in H. injection H as <-.
    rewrite !fmap_cons. f_equal; [by apply Hf|by apply IH].
Qed.

Lemma pay_minimum_name d : name (pay_minimum d) = name d.
Proof. unfold pay_minimum. by destruct (gtb _ _). Qed.

Lemma pay_extra_names ds : forall rem, name <$> pay_extra ds rem = name <$> ds.
Proof.
  induction ds as [|d ds IH]; intros rem; [done|]. simpl.
  destruct (_ && _); rewrite !fmap_cons, IH; done.
Qed.

Lemma month_step_names method extra s s' :
  month_step method extra s = Ok s' -> name <$> s' ≡ₚ name <$> s.
Proof.
  unfold month_step. destruct (rmapM accrue _) as [acc|] eqn:Ha; [|done]. simpl.
  intros [= <-]. rewrite pay_extra_names, <- list_fmap_compose.
  rewrite (list_fmap_ext (name ∘ pay_minimum) name) by (intros ? ? ?; apply pay_minimum_name).
  rewrite (rmapM_names _ _ _ accrue_name Ha).
  apply fmap_Permutation, stable_sort_perm.
Qed.

Lemma after_months_names method extra ds0 n : forall s,
  after_months method extra ds0 n = Ok s -> name <$> s ≡ₚ name <$> ds0.
Proof.
  induction n as [|n IH]; intros s; simpl.
  - by intros [= <-].
  - destruct (after_months method extra ds0 n) as [s0|] eqn:H0; [|done]. simpl.
    intros Hs. etrans; [by eapply month_step_names|by apply IH].
Qed.

Lemma copy_of_name d c : copy_of d = Ok c -> name c = name d.
Proof.
  unfold copy_of. destruct (quantize_cents (balance d)) as [b|]; [|done]. simpl.
  destruct (quantize_cents (min_payment d)) as [m|]; [|done]. simpl. by intros [= <-].
Qed.

Lemma shape_refl h : shape_kept h h.
Proof. intros l. split; [done|]. intros ls H. by exists ls. Qed.

Lemma shape_trans h1 h2 h3 : shape_kept h1 h2 -> shape_kept h2 h3 -> shape_kept h1 h3.
Proof.
  intros H12 H23 l. split.
  - intros H. apply H23, H12, H.
  - intros ls H. destruct (proj2 (H12 l) ls H) as (ls2 & H2 & P2).
    destruct (proj2 (H23 l) ls2 H2) as (ls3 & H3 & P3). exists ls3. split; [done|by etrans].
Qed.

Lemma ro_ret {A} (a : A) h : ro (mret a) h.
Proof. split; [apply shape_refl|done]. Qed.

Lemma ro_bind {A B} (m : M A) (k : A -> M B) h :
  ro m h ->
  (forall a h', m h = (h', Ok a) -> shape_kept h h' -> ro (k a) h') ->
  ro (m ≫= k) h.
Proof.
  intros [Hs Hr] Hk. unfold raises_only_invalid. rewrite bind_run.
  destruct (m h) as [h' [a|e]] eqn:Hm; simpl in *.
  - destruct (Hk a h' eq_refl Hs) as [Hs' Hr']. split; [by eapply shape_trans|done].
  - done.
Qed.

Lemma ro_lift {A} (r : result A) h :
  (forall e, r = Raise e -> e = InvalidOperation) -> ro (lift r) h.
Proof. intros Hr. split; [apply shape_refl|]. simpl. destruct r; [done|by apply Hr]. Qed.

Lemma ro_get_debt l h : is_debt h l -> ro (get_debt l) h.
Proof.
  intros [d Hd]. unfold raises_only_invalid. rewrite (get_debt_run _ _ _ Hd).
  split; [apply shape_refl|done].
Qed.

Lemma shape_insert_debt h l d :
  is_debt h l -> shape_kept h (<[l := ODebt d]> h).
Proof.
  intros [d0 Hd0] l'. destruct (decide (l' = l)) as [->|Hne].
  - split; [intros _; exists d; apply lookup_insert_eq|]. intros ls H. congruence.
  - unfold is_debt. rewrite lookup_insert_ne by done. split; [done|]. intros ls H. by exists ls.
Qed.

Lemma ro_set_balance l b h : is_debt h l -> ro (set_balance l b) h.
Proof.
  intros Hl. pose proof Hl as [d Hd]. unfold raises_only_invalid.
  rewrite (set_balance_run _ _ _ _ Hd). split; [by apply shape_insert_debt|done].
Qed.

Lemma shape_insert_list h l ls ls' :
  h !! l = Some (OList ls) -> ls' ≡ₚ ls -> shape_kept h (<[l := OList ls']> h).
Proof.
  intros Hl Hp l'. destruct (decide (l' = l)) as [->|Hne].
  - split; [intros [d Hd]; congruence|]. intros ls0 H.
    assert (ls0 = ls) as -> by congruence. exists ls'. split; [apply lookup_insert_eq|done].
  - unfold is_debt. rewrite lookup_insert_ne by done. split; [done|]. intros ls0 H. by exists ls0.
Qed.

Lemma ro_set_list l ls ls' h :
  h !! l = Some (OList ls) -> ls' ≡ₚ ls -> ro (set_list l ls') h.
Proof.
  intros Hl Hp. unfold raises_only_invalid. rewrite (set_list_run _ _ _ _ Hl).
  split; [by eapply shape_insert_list|done].
Qed.

Lemma shape_alloc h o : shape_kept h (<[fresh (dom h) := o]> h).
Proof.
  intros l. pose proof (fresh_lookup h) as Hf.
  destruct (decide (l = fresh (dom h))) as [->|Hne].
  - split; [intros [d Hd]; congruence|]. intros ls H. congruence.
  - unfold is_debt. rewrite lookup_insert_ne by done. split; [done|]. intros ls H. by exists ls.
Qed.

Lemma ro_alloc o h : ro (alloc o) h.
Proof. unfold raises_only_invalid. rewrite alloc_run. split; [apply shape_alloc|done]. Qed.

Lemma Forall_is_debt_shape h h' ls :
  shape_kept h h' -> Forall (is_debt h) ls -> Forall (is_debt h') ls.
Proof. intros Hs Hd. eapply Forall_impl; [exact Hd|]. intros l. apply Hs. Qed.

Lemma holds_debts_shape h h' debts ls :
  shape_kept h h' -> holds_debts h debts ls -> holds_debts h' debts ls.
Proof.
  intros Hs [(ls' & Hl & Hp) Hd]. split; [|by eapply Forall_is_debt_shape].
  destruct (proj2 (Hs debts) _ Hl) as (ls2 & H2 & P2). exists ls2. split; [done|by etrans].
Qed.

Lemma ro_for_each (body : loc -> M unit) ls :
  (forall l h, is_debt h l -> ro (body l) h) ->
  forall h, Forall (is_debt h) ls -> ro (for_each ls body) h.
Proof.
  intros Hb. induction ls as [|l ls IH]; intros h Hd; simpl; [apply ro_ret|].
  apply Forall_cons in Hd as [Hl Hd]. apply ro_bind; [by apply Hb|].
  intros _ h' _ Hs. apply IH. by eapply Forall_is_debt_shape.
Qed.

Lemma ro_comprehension {B} (f : loc -> M B) ls :
  (forall l h, is_debt h l -> ro (f l) h) ->
  forall h, Forall (is_debt h) ls -> ro (comprehension ls f) h.
Proof.
  intros Hf. induction ls as [|l ls IH]; intros h Hd; simpl; [apply ro_ret|].
  apply Forall_cons in Hd as [Hl Hd]. apply ro_bind; [by apply Hf|].
  intros y h' _ Hs. apply ro_bind; [apply IH; by eapply Forall_is_debt_shape|].
  intros ys h'' _ _. apply ro_ret.
Qed.

Lemma ro_any_of (p : loc -> M bool) ls :
  (forall l h, is_debt h l -> ro (p l) h) ->
  forall h, Forall (is_debt h) ls -> ro (any_of ls p) h.
Proof.
  intros Hp. induction ls as [|l ls IH]; intros h Hd; simpl; [apply ro_ret|].
  apply Forall_cons in Hd as [Hl Hd]. apply ro_bind; [by apply Hp|].
  intros b h' _ Hs. destruct b; [apply ro_ret|]. apply IH. by eapply Forall_is_debt_shape.
Qed.

Lemma ro_all_of (p : loc -> M bool) ls :
  (forall l h, is_debt h l -> ro (p l) h) ->
  forall h, Forall (is_debt h) ls -> ro (all_of ls p) h.
Proof.
  intros Hp. induction ls as [|l ls IH]; intros h Hd; simpl; [apply ro_ret|].
  apply Forall_cons in Hd as [Hl Hd]. apply ro_bind; [by apply Hp|].
  intros b h' _ Hs. destruct b; [|apply ro_ret]. apply IH. by eapply Forall_is_debt_shape.
Qed.

Lemma ro_read {B} (g : Debt -> B) l h :
  is_debt h l -> ro (d ← get_debt l; mret (g d)) h.
Proof. intros Hl. apply ro_bind; [by apply ro_get_debt|]. intros. apply ro_ret. Qed.

Lemma quantize_cents_raises v e : quantize_cents v = Raise e -> e = InvalidOperation.
Proof. rewrite quantize_cents_closed. destruct (_ <? _)%N; [done|]. by intros [= <-]. Qed.

Lemma monthly_rate_raises apr e : _monthly_rate apr = Raise e -> e = InvalidOperation.
Proof. destruct (monthly_rate_returns apr) as (r & -> & _). done. Qed.

Lemma ro_quantize v h : ro (lift (quantize_cents v)) h.
Proof. apply ro_lift, quantize_cents_raises. Qed.

Lemma ro_update l h (f : Debt -> M unit) :
  is_debt h l ->
  (forall d h', is_debt h' l -> ro (f d) h') ->
  ro (d ← get_debt l; f d) h.
Proof.
  intros Hl Hf. apply ro_bind; [by apply ro_get_debt|].
  intros d h' _ Hs. apply Hf. by apply Hs.
Qed.

Lemma ro_apply_interest ls h : Forall (is_debt h) ls -> ro (apply_interest ls) h.
Proof.
  apply ro_for_each. clear. intros l h Hl. apply ro_update; [done|].
  intros d h1 H1. destruct (leb _ _); [apply ro_ret|].
  apply ro_bind; [apply ro_lift, monthly_rate_raises|]. intros rate h2 _ S2.
  apply ro_bind; [apply ro_quantize|]. intros i h3 _ S3.
  apply ro_bind; [apply ro_quantize|]. intros b h4 _ S4.
  apply ro_set_balance. apply S4, S3, S2, H1.
Qed.

Lemma ro_pay_minimums ls h : Forall (is_debt h) ls -> ro (pay_minimums ls) h.
Proof.
  apply ro_for_each. clear. intros l h Hl. apply ro_update; [done|].
  intros d h1 H1. destruct (leb _ _); [apply ro_ret|].
  apply ro_bind; [apply ro_quantize|]. intros b h2 _ S2.
  apply ro_set_balance. apply S2, H1.
Qed.

Lemma ro_apply_extra ls : forall rem h, Forall (is_debt h) ls -> ro (apply_extra ls rem) h.
Proof.
  induction ls as [|l ls IH]; intros rem h Hd; simpl; [apply ro_ret|].
  apply Forall_cons in Hd as [Hl Hd].
  destruct (leb rem zero); [apply ro_ret|].
  apply ro_bind; [by apply ro_get_debt|]. intros d h1 _ S1.
  destruct (leb (balance d) zero); [apply IH; by eapply Forall_is_debt_shape|].
  apply ro_bind; [apply ro_quantize|]. intros b h2 _ S2.
  apply ro_bind; [apply ro_set_balance; apply S2, S1, Hl|]. intros _ h3 _ S3.
  apply ro_bind; [apply ro_quantize|]. intros rem' h4 _ S4.
  apply IH. eapply Forall_is_debt_shape; [|exact Hd].
  eauto using shape_trans.
Qed.

Lemma ro_snapshot month ls h : Forall (is_debt h) ls -> ro (snapshot month ls) h.
Proof.
  intros Hd. apply ro_bind.
  - apply ro_comprehension; [|done]. intros l h' Hl. by apply ro_read.
  - intros. apply ro_ret.
Qed.

(** The keys are computed beside the references, which come back in the
    order they went in. *)
Lemma keyed_refs {K} (key : Debt -> K) ls : forall h h' keyed,
  comprehension ls (fun l => d ← get_debt l; mret (key d, l)) h = (h', Ok keyed) ->
  keyed.*2 = ls.
Proof.
  induction ls as [|l ls IH]; intros h h' keyed; simpl.
  - by intros [= <- <-].
  - rewrite !bind_run. unfold get_debt at 1.
    destruct (h !! l) as [[d|?]|]; [|done..]. rewrite ret_run, bind_run.
    destruct (comprehension ls _ h) as [h1 [ks|e]] eqn:Hk; [|done].
    rewrite ret_run. intros [= <- <-]. rewrite fmap_cons. simpl. f_equal. by eapply IH.
Qed.

Lemma ro_sort_debts debts method ls h :
  holds_debts h debts ls -> ro (sort_debts debts method) h.
Proof.
  intros [(ls' & Hl & Hp) Hd]. unfold sort_debts.
  apply ro_bind.
  { unfold raises_only_invalid. rewrite (get_list_run _ _ _ Hl). split; [apply shape_refl|done]. }
  intros ls0 h1 Hrun S1. rewrite (get_list_run _ _ _ Hl) in Hrun. injection Hrun as <- <-.
  assert (Hd' : Forall (is_debt h) ls') by (by rewrite Hp).
  apply ro_bind.
  { apply ro_comprehension; [|done]. intros l h' Hl'. by apply ro_read. }
  intros keyed h2 Hk S2. apply keyed_refs in Hk.
  destruct (proj2 (S2 debts) _ Hl) as (ls2 & H2 & P2).
  eapply ro_set_list; [exact H2|].
  rewrite P2, <- Hk. apply fmap_Permutation, stable_sort_perm.
Qed.

Lemma ro_get_list_debts debts ls h :
  holds_debts h debts ls -> ro (get_list debts) h.
Proof.
  intros [(ls' & Hl & Hp) Hd]. unfold raises_only_invalid.
  rewrite (get_list_run _ _ _ Hl). split; [apply shape_refl|done].
Qed.

Lemma get_list_debts debts ls h h' ls' :
  holds_debts h debts ls -> get_list debts h = (h', Ok ls') ->
  h' = h /\ Forall (is_debt h) ls'.
Proof.
  intros [(ls0 & Hl & Hp) Hd]. rewrite (get_list_run _ _ _ Hl). intros [= <- <-].
  split; [done|]. by rewrite Hp.
Qed.

Lemma ro_month_body debts extra method month ls h :
  holds_debts h debts ls -> ro (month_body debts extra method month) h.
Proof.
  intros Hh. unfold month_body.
  apply ro_bind; [by eapply ro_sort_debts|]. intros _ h1 _ S1.
  pose proof (holds_debts_shape _ _ _ _ S1 Hh) as Hh1.
  apply ro_bind; [by eapply ro_get_list_debts|]. intros ls1 h2 Hrun S2.
  destruct (get_list_debts _ _ _ _ _ Hh1 Hrun) as [-> Hd1].
  apply ro_bind; [by apply ro_apply_interest|]. intros _ h3 _ S3.
  apply ro_bind; [apply ro_pay_minimums; by eapply Forall_is_debt_shape|]. intros _ h4 _ S4.
  apply ro_bind.
  { apply ro_apply_extra. eapply Forall_is_debt_shape; [|exact Hd1]. eauto using shape_trans. }
  intros _ h5 _ S5. apply ro_snapshot.
  eapply Forall_is_debt_shape; [|exact Hd1]. eauto using shape_trans.
Qed.

Lemma ro_any_positive debts ls h : holds_debts h debts ls -> ro (any_positive debts) h.
Proof.
  intros Hh. unfold any_positive.
  apply ro_bind; [by eapply ro_get_list_debts|]. intros ls1 h1 Hrun S1.
  destruct (get_list_debts _ _ _ _ _ Hh Hrun) as [-> Hd1].
  apply ro_any_of; [|done]. intros l h' Hl. by apply ro_read.
Qed.

Lemma ro_all_paid debts ls h : holds_debts h debts ls -> ro (all_paid debts) h.
Proof.
  intros Hh. unfold all_paid.
  apply ro_bind; [by eapply ro_get_list_debts|]. intros ls1 h1 Hrun S1.
  destruct (get_list_debts _ _ _ _ _ Hh Hrun) as [-> Hd1].
  apply ro_all_of; [|done]. intros l h' Hl. by apply ro_read.
Qed.

Lemma ro_while_loop debts extra method ls fuel : forall month schedule h,
  holds_debts h debts ls -> ro (while_loop fuel debts extra method month schedule) h.
Proof.
  induction fuel as [|fuel IH]; intros month schedule h Hh; rewrite while_loop_unfold.
  - destruct (negb _); [apply ro_ret|].
    apply ro_bind; [by eapply ro_any_positive|]. intros go h1 _ S1.
    destruct (negb go); apply ro_ret.
  - destruct (negb _); [apply ro_ret|].
    apply ro_bind; [by eapply ro_any_positive|]. intros go h1 _ S1.
    destruct (negb go); [apply ro_ret|].
    pose proof (holds_debts_shape _ _ _ _ S1 Hh) as Hh1.
    apply ro_bind; [by eapply ro_month_body|]. intros snap h2 _ S2.
    apply IH. by eapply holds_debts_shape.
Qed.

Lemma ro_copy_debt l h : is_debt h l -> ro (copy_debt l) h.
Proof.
  intros Hl. unfold copy_debt. apply ro_bind; [by apply ro_get_debt|]. intros d h1 _ S1.
  apply ro_bind; [apply ro_quantize|]. intros b h2 _ S2.
  apply ro_bind; [apply ro_quantize|]. intros m h3 _ S3. apply ro_alloc.
Qed.

Lemma debts_at_is_debt h ls ds : debts_at h ls ds -> Forall (is_debt h) ls.
Proof. induction 1 as [|l d ls ds Hld _ IH]; constructor; [by exists d|done]. Qed.

Lemma ro_payoff_plan h debts ls ds extra method :
  h !! debts = Some (OList ls) -> debts_at h ls ds ->
  ro (payoff_plan debts extra method) h.
Proof.
  intros HL Hat. unfold payoff_plan, payoff_plan_fuel.
  apply ro_bind.
  { unfold raises_only_invalid. rewrite (get_list_run _ _ _ HL). split; [apply shape_refl|done]. }
  intros ls0 h0 Hrun _. rewrite (get_list_run _ _ _ HL) in Hrun. injection Hrun as <- <-.
  apply ro_bind.
  { apply ro_comprehension; [apply ro_copy_debt|by eapply debts_at_is_debt]. }
  intros copies h1 Hcopy S1.
  destruct (copy_all _ _ _ _ Hcopy) as (ds0 & Hat1 & _).
  apply ro_bind; [apply ro_alloc|]. intros L h2 Halloc S2.
  rewrite alloc_run in Halloc. injection Halloc as <- <-.
  assert (Hh : holds_debts (<[fresh (dom h1) := OList copies]> h1) (fresh (dom h1)) copies).
  { split; [exists copies; split; [apply lookup_insert_eq|done]|].
    eapply Forall_is_debt_shape; [exact S2|]. by eapply debts_at_is_debt. }
  apply ro_bind; [apply ro_quantize|]. intros extra0 h3 Hq S3.
  unfold lift in Hq. injection Hq as <- _.
  apply ro_bind; [by eapply ro_while_loop|]. intros out h4 _ S4.
  destruct out as [[month schedule]|]; [|apply ro_ret].
  apply ro_bind; [eapply ro_all_paid; by eapply holds_debts_shape|].
  intros. apply ro_ret.
Qed.
End PayoffMoreFacts.

Module PayoffExtras.
Import Dec Money PlansDebt PayoffSpec PayoffShape DecFacts DecSigns PayoffFacts PayoffLoop.
Import PayoffTheorems MoneyFacts PayoffMoreFacts Examples Cases.












End PayoffExtras.

(** * The analytics: more of what the code does *)

Module CentsFacts.
Import Dec Money Analytics AnalyticsSpec AnalyticsCents DecFacts DecSigns DecTotals MoneyFacts.
Import AnalyticsFacts DecParse.

Lemma p28 : 10 ^ prec = 10 * 10 ^ (prec - 1).
Proof. reflexivity. Qed.

Lemma p27_pos : 0 < 10 ^ (prec - 1).
Proof. reflexivity. Qed.

Lemma add_result_nonneg z s e :
  0 <= z ->
  (if z =? 0 then fix_ctx (mkDecimal (false && s) 0 e)
   else fix_ctx (mkDecimal (z <? 0) (Z.to_N (Z.abs z)) e))
  = fix_ctx (mkDecimal false (Z.to_N z) e).
Proof.
  intros Hz. destruct (Z.eqb_spec z 0) as [->|Hne]; [done|].
  replace (z <? 0) with false by (symmetry; apply Z.ltb_ge; lia).
  by rewrite Z.abs_eq.
Qed.

Lemma fix_ctx_tracks z :
  0 <= z -> tracks z (fix_ctx (mkDecimal false (Z.to_N z) (-2))).
Proof.
  intros Hz. destruct (Z.lt_ge_cases z (10 ^ 28)) as [Hs|Hb].
  - left. split; [done|]. apply fix_ctx_small. apply ndigits_le; [unfold prec; lia|].
    simpl. rewrite Z2N.id by lia. done.
  - right. split; [lia|]. apply fix_ctx_oversized; [lia| |done].
    change (10 ^ (prec - 1)) with (10 ^ 27). 
    assert (10 ^ 27 <= 10 ^ 28) by (apply Z.leb_le; reflexivity). lia.
Qed.

Lemma add_as_fix a x :
  d_sign a = false ->
  let e := Z.min (d_exp a) (d_exp x) in
  0 <= aligned a e + aligned x e ->
  Dec.add a x = fix_ctx (mkDecimal false (Z.to_N (aligned a e + aligned x e)) e).
Proof.
  intros Hs e Hz. unfold Dec.add. fold e. rewrite Hs. by apply add_result_nonneg.
Qed.

Lemma aligned_cents x : d_exp x = -2 -> aligned x (-2) = signed x.
Proof. intros <-. apply aligned_same. Qed.

Lemma add_tracks za a zx x :
  0 <= za -> tracks za a -> term zx x -> tracks (za + zx) (Dec.add a x).
Proof.
  intros Hza Ha [Hzx Hx].
  pose proof p27_pos as H27.
  assert (H2728 : 10 ^ (prec - 1) <= 10 ^ 28) by (apply Z.leb_le; reflexivity).
  assert (Hsa : d_sign a = false).
  { destruct Ha as [[_ ->]|[_ (_ & _ & H)]]; done. }
  rewrite add_as_fix; [|done|].
  - set (e := Z.min (d_exp a) (d_exp x)).
    destruct Ha as [[Has ->]|[Hab Hao]], Hx as [[Hxe Hxs]|[Hxb Hxo]].
    + (* both exact *)
      assert (e = -2) as -> by (unfold e; simpl; lia).
      rewrite !aligned_cents, Hxs, signed_mk, Z2N.id by done.
      apply fix_ctx_tracks. lia.
    + (* the term is oversized *)
      pose proof Hxo as (Hxe & _ & _).
      assert (e = -2) as -> by (unfold e; simpl; lia).
      destruct (aligned_oversized x (-2) Hxo ltac:(lia)) as [_ H]. specialize (H ltac:(lia)).
      rewrite aligned_cents, signed_mk, Z2N.id by done.
      right. split; [lia|].
      apply fix_ctx_oversized; unfold prec in *; lia.
    + (* the total is oversized *)
      pose proof Hao as (Hae & _ & _).
      assert (e = -2) as -> by (unfold e; lia).
      destruct (aligned_oversized a (-2) Hao ltac:(lia)) as [_ H]. specialize (H ltac:(lia)).
      rewrite (aligned_cents x), Hxs by done.
      right. split; [lia|].
      apply fix_ctx_oversized; unfold prec in *; lia.
    + pose proof Hao as (Hae & _ & _). pose proof Hxo as (Hxe & _ & _).
      destruct (aligned_oversized a e Hao ltac:(unfold e; lia)) as [H1 _].
      destruct (aligned_oversized x e Hxo ltac:(unfold e; lia)) as [H2 _].
      right. split; [lia|]. apply fix_ctx_oversized; [unfold e; lia|lia|unfold e; lia].
  - cbv zeta. apply Z.add_nonneg_nonneg.
    + destruct Ha as [[Has ->]|[Hab Hao]].
      * unfold aligned. rewrite signed_mk. apply Z.mul_nonneg_nonneg; [lia|].
        apply Z.pow_nonneg. lia.
      * apply aligned_total_nonneg. by right.
    + destruct Hx as [[Hxe Hxs]|[Hxb Hxo]].
      * apply aligned_total_nonneg. left. split; [done|lia].
      * apply aligned_total_nonneg. by right.
Qed.

Lemma gtb_zero_signed d : gtb d (of_Z 0) = (0 <? signed d).
Proof.
  unfold gtb, ltb. rewrite cmp_zero_l.
  destruct (Z.compare_spec 0 (signed d)); destruct (Z.ltb_spec 0 (signed d)); done || lia.
Qed.

Lemma amount_term d : d_exp d = -2 -> 0 < signed d -> term (signed d) d.
Proof. intros He Hs. split; [lia|]. by left. Qed.

Lemma abs_term d : d_exp d = -2 -> term (Z.abs (signed d)) (Dec.abs d).
Proof.
  intros He. split; [lia|].
  assert (Habs : Dec.abs d = fix_ctx (mkDecimal false (d_int d) (-2))).
  { unfold Dec.abs, neg, pos, copy_abs, copy_negate.
    destruct d as [[|] c e]; simpl in *; subst e; destruct (is_zero _); done. }
  assert (Hv : Z.abs (signed d) = Z.of_N (d_int d)).
  { unfold signed. destruct (d_sign d); lia. }
  rewrite Habs, Hv.
  pose proof (fix_ctx_tracks (Z.of_N (d_int d)) ltac:(lia)) as Ht.
  rewrite N2Z.id in Ht. destruct Ht as [[Hs ->]|[Hb Ho]].
  - left. split; [done|]. rewrite signed_mk. lia.
  - right. done.
Qed.

Lemma foldl_tracks (f : Transaction -> Decimal) (g : Transaction -> Z) ts : forall za a,
  0 <= za -> tracks za a -> Forall (fun t => term (g t) (f t)) ts ->
  tracks (za + Zsum (g <$> ts)) (foldl Dec.add a (f <$> ts)).
Proof.
  induction ts as [|t ts IH]; intros za a Hza Ha Hts.
  - simpl. by rewrite Z.add_0_r.
  - apply Forall_cons in Hts as [Ht Hts]. rewrite !fmap_cons. cbn [foldl Zsum foldr].
    rewrite Z.add_assoc. apply IH; [destruct Ht; lia| |done]. by apply add_tracks.
Qed.

Lemma tracks_zero : tracks 0 zero_cents.
Proof. left. split; [done|reflexivity]. Qed.

Lemma Zsum_nonneg l : Forall (fun z => 0 <= z) l -> 0 <= Zsum l.
Proof. induction 1; simpl; lia. Qed.

(** Terms that count for nothing can be left out of a sum. *)
Lemma Zsum_filter {A} (p : A -> bool) (g w : A -> Z) l :
  (forall x, w x = if p x then g x else 0) ->
  Zsum (g <$> List.filter p l) = Zsum (w <$> l).
Proof.
  intros Hw. induction l as [|x l IH]; [done|]. rewrite fmap_cons. simpl. rewrite Hw.
  destruct (p x); [rewrite fmap_cons; simpl|]; lia.
Qed.

Section Totals.
Variable txns : list Transaction.
Hypothesis Hcents : Forall (fun t => d_exp (amount t) = -2) txns.

Lemma income_tracks : tracks (income_cents txns) (income_of txns).
Proof.
  unfold income_of, sum_from, income_cents.
  rewrite <- (Zsum_filter (fun t => gtb (amount t) zero) cents_in).
  2:{ intros t. unfold zero. rewrite gtb_zero_signed. unfold cents_in.
      destruct (Z.ltb_spec 0 (signed (amount t))); lia. }
  rewrite <- (Z.add_0_l (Zsum _)). apply foldl_tracks; [done|apply tracks_zero|].
  apply Forall_forall. intros t Ht. apply list_elem_of_In, filter_In in Ht as [Hin Hp].
  apply list_elem_of_In in Hin. rewrite Forall_forall in Hcents.
  unfold zero in Hp. rewrite gtb_zero_signed in Hp. apply Z.ltb_lt in Hp.
  apply amount_term; [by apply Hcents|done].
Qed.

Lemma expense_tracks : tracks (expense_cents txns) (expense_of txns).
Proof.
  unfold expense_of, sum_from, expense_cents.
  rewrite <- (Zsum_filter (fun t => leb (amount t) zero) (fun t => Z.abs (cents_in t))).
  2:{ intros t. unfold zero. rewrite leb_zero_r, gtb_zero_signed. unfold cents_in.
      destruct (Z.ltb_spec 0 (signed (amount t))); simpl; lia. }
  rewrite <- (Z.add_0_l (Zsum _)). apply foldl_tracks; [done|apply tracks_zero|].
  apply Forall_forall. intros t Ht. apply list_elem_of_In, filter_In in Ht as [Hin Hp].
  apply list_elem_of_In in Hin. rewrite Forall_forall in Hcents.
  apply abs_term. by apply Hcents.
Qed.

Lemma category_tracks k : tracks (category_cents k txns) (category_total_of k txns).
Proof.
  unfold category_total_of, sum_from, category_cents.
  rewrite <- (Zsum_filter (fun t => String.eqb (category_key t) k)
                          (fun t => Z.abs (cents_in t))) by done.
  rewrite <- (Z.add_0_l (Zsum _)). apply foldl_tracks; [done|apply tracks_zero|].
  apply Forall_forall. intros t Ht. apply list_elem_of_In, filter_In in Ht as [Hin Hp].
  apply list_elem_of_In in Hin. rewrite Forall_forall in Hcents.
  apply abs_term. by apply Hcents.
Qed.
End Totals.

Lemma income_cents_nonneg txns : 0 <= income_cents txns.
Proof. apply Zsum_nonneg, Forall_fmap, Forall_true. intros t. simpl. lia. Qed.

Lemma expense_cents_nonneg txns : 0 <= expense_cents txns.
Proof. apply Zsum_nonneg, Forall_fmap, Forall_true. intros t. simpl. lia. Qed.

Lemma category_cents_nonneg k txns : 0 <= category_cents k txns.
Proof.
  apply Zsum_nonneg, Forall_fmap, Forall_true. intros t. simpl.
  destruct (String.eqb _ _); lia.
Qed.

Lemma cents_decimal_nonneg z : 0 <= z -> cents_decimal z = mkDecimal false (Z.to_N z) (-2).
Proof.
  intros Hz. unfold cents_decimal.
  replace (z <? 0) with false by (symmetry; apply Z.ltb_ge; lia). by rewrite Z.abs_eq.
Qed.

Lemma cents_decimal_fixed z :
  Z.abs z < 10 ^ 28 -> quantize_cents (cents_decimal z) = Ok (cents_decimal z).
Proof.
  intros Hz. apply quantize_cents_fixed; [done|].
  apply ndigits_le; [unfold prec; lia|]. simpl. rewrite Z2N.id by lia. done.
Qed.

Lemma money_string_cents z :
  Z.abs z < 10 ^ 28 -> money_string (cents_decimal z) = Ok (VStr (cents_string z)).
Proof. intros Hz. unfold money_string. by rewrite cents_decimal_fixed. Qed.

(** A total is reported when it fits, and refused when it does not. *)
Lemma money_string_tracks z d :
  0 <= z -> tracks z d ->
  money_string d = if fits z then Ok (VStr (cents_string z)) else Raise InvalidOperation.
Proof.
  intros Hz Ht. unfold money_string, fits. rewrite Z.abs_eq by done.
  destruct Ht as [[Hs ->]|[Hb Ho]].
  - replace (z <? 10 ^ 28) with true by (symmetry; apply Z.ltb_lt; lia).
    rewrite <- cents_decimal_nonneg by done.
    rewrite cents_decimal_fixed by lia. done.
  - replace (z <? 10 ^ 28) with false by (symmetry; apply Z.ltb_ge; lia).
    destruct Ho as (He & Hi & _). unfold quantize_cents.
    rewrite quantize_big_raises; [done|lia|done].
Qed.

Lemma sub_cents i e :
  0 <= i < 10 ^ 28 -> 0 <= e < 10 ^ 28 ->
  sub (mkDecimal false (Z.to_N i) (-2)) (mkDecimal false (Z.to_N e) (-2))
  = cents_decimal (i - e).
Proof.
  intros Hi He. unfold sub, Dec.add, copy_negate. cbn [d_exp d_sign d_int].
  change (Z.min (-2) (-2)) with (-2).
  unfold aligned. cbn [d_exp]. rewrite Z.sub_diag, !Z.mul_1_r, !signed_mk.
  cbn [negb]. rewrite !Z2N.id by lia.
  unfold cents_decimal.
  destruct (Z.eqb_spec (i + - e) 0) as [H0|H0].
  - replace (i - e) with 0 by lia. simpl. by rewrite fix_ctx_zero.
  - replace (i + - e) with (i - e) by lia. apply fix_ctx_small.
    apply ndigits_le; [unfold prec; lia|]. simpl. rewrite Z2N.id by lia.
    unfold prec. lia.
Qed.

Lemma categories_in_cents txns ks :
  Forall (fun t => d_exp (amount t) = -2) txns ->
  rmapM (fun k => v ← money_string (category_total_of k txns); Ok (k, v)) ks =
  if forallb (fun k => fits (category_cents k txns)) ks
  then Ok ((fun k => (k, VStr (cents_string (category_cents k txns)))) <$> ks)
  else Raise InvalidOperation.
Proof.
  intros Hc. induction ks as [|k ks IH]; [done|]. cbn [rmapM forallb].
  rewrite (money_string_tracks (category_cents k txns));
    [|apply category_cents_nonneg|by apply category_tracks].
  destruct (fits (category_cents k txns)); [|done]. simpl. rewrite IH.
  destruct (forallb _ ks); done.
Qed.

Lemma summarize_in_cents txns :
  Forall (fun t => d_exp (amount t) = -2) txns ->
  summarize_transactions txns = summary_in_cents txns.
Proof.
  intros Hc. rewrite summarize_transactions_spec_eq. unfold summary_of, summary_in_cents.
  pose proof (income_cents_nonneg txns) as Hi0. pose proof (expense_cents_nonneg txns) as He0.
  pose proof (income_tracks txns Hc) as Hi. pose proof (expense_tracks txns Hc) as He.
  rewrite (money_string_tracks _ _ Hi0 Hi).
  destruct (fits (income_cents txns)) eqn:Fi; [|done]. simpl.
  rewrite (money_string_tracks _ _ He0 He).
  destruct (fits (expense_cents txns)) eqn:Fe; [|done]. simpl.
  unfold fits in Fi, Fe. rewrite Z.abs_eq in Fi, Fe by done.
  apply Z.ltb_lt in Fi, Fe.
  destruct Hi as [[_ ->]|[Hb _]]; [|lia]. destruct He as [[_ ->]|[Hb _]]; [|lia].
  rewrite sub_cents by lia.
  rewrite money_string_cents by lia. simpl.
  fold (categories_of txns). rewrite categories_in_cents by done.
  destruct (forallb _ _); done.
Qed.

Lemma first_seen_elem_of k ks : k ∈ first_seen ks <-> k ∈ ks.
Proof.
  induction ks as [|k0 ks IH]; [done|]. rewrite first_seen_cons, !elem_of_cons.
  rewrite list_elem_of_filter, IH. destruct (decide (k = k0)); tauto.
Qed.

Lemma first_seen_NoDup ks : NoDup (first_seen ks).
Proof.
  induction ks as [|k0 ks IH]; [constructor|]. rewrite first_seen_cons. constructor.
  - rewrite list_elem_of_filter. tauto.
  - by apply NoDup_filter.
Qed.

Lemma first_seen_perm ks ks' : ks ≡ₚ ks' -> first_seen ks ≡ₚ first_seen ks'.
Proof.
  intros Hp. apply NoDup_Permutation; [apply first_seen_NoDup..|].
  intros k. rewrite !first_seen_elem_of. by rewrite Hp.
Qed.

Lemma Zsum_perm l l' : l ≡ₚ l' -> Zsum l = Zsum l'.
Proof. induction 1; simpl; lia. Qed.

Lemma Zsum_add {A} (f g : A -> Z) l :
  Zsum ((fun x => f x + g x) <$> l) = Zsum (f <$> l) + Zsum (g <$> l).
Proof. induction l as [|x l IH]; [done|]. rewrite !fmap_cons. simpl. lia. Qed.

Lemma Zsum_zero {A} (l : list A) : Zsum ((fun _ => 0) <$> l) = 0.
Proof. induction l as [|x l IH]; [done|]. rewrite fmap_cons. simpl. lia. Qed.

Lemma Zsum_indicator (ks : list string) k0 w :
  NoDup ks -> k0 ∈ ks ->
  Zsum ((fun k => if String.eqb k0 k then w else 0) <$> ks) = w.
Proof.
  induction 1 as [|k ks Hk Hnd IH]; intros Hin; [by apply elem_of_nil in Hin|].
  rewrite fmap_cons. simpl. destruct (String.eqb_spec k0 k) as [->|Hne].
  - rewrite (list_fmap_ext _ (fun _ => 0) ks); [rewrite Zsum_zero; lia|].
    intros i k' Hk'. destruct (String.eqb_spec k k') as [->|]; [|done].
    exfalso. apply Hk. by eapply list_elem_of_lookup_2.
  - apply elem_of_cons in Hin as [?|Hin]; [done|]. rewrite IH by done. lia.
Qed.

(** Summing by key and then over the keys is summing over everything. *)
Lemma Zsum_by_key {A} (key : A -> string) (w : A -> Z) ks ts :
  NoDup ks -> Forall (fun t => key t ∈ ks) ts ->
  Zsum ((fun k => Zsum ((fun t => if String.eqb (key t) k then w t else 0) <$> ts)) <$> ks)
  = Zsum (w <$> ts).
Proof.
  intros Hnd. induction 1 as [|t ts Ht Hts IH].
  - simpl. apply Zsum_zero.
  - rewrite (list_fmap_ext _
      (fun k => (if String.eqb (key t) k then w t else 0)
                + Zsum ((fun t => if String.eqb (key t) k then w t else 0) <$> ts)) ks)
      by done.
    rewrite Zsum_add, IH, (Zsum_indicator ks (key t) (w t) Hnd Ht). done.
Qed.

Lemma categories_total txns :
  Zsum ((fun k => category_cents k txns) <$> categories_of txns)
  = income_cents txns + expense_cents txns.
Proof.
  unfold category_cents, categories_of.
  rewrite (Zsum_by_key category_key (fun t => Z.abs (cents_in t))).
  - unfold income_cents, expense_cents. rewrite <- Zsum_add.
    apply (f_equal Zsum), list_fmap_ext. intros i t _. lia.
  - apply first_seen_NoDup.
  - apply Forall_forall. intros t Ht. apply first_seen_elem_of.
    apply list_elem_of_fmap. by exists t.
Qed.

Lemma cents_of_cents_string z : cents_of (VStr (cents_string z)) = Some z.
Proof.
  unfold cents_of, cents_string. rewrite cents_of_to_str by done. f_equal.
  unfold cents_decimal. rewrite signed_mk.
  destruct (Z.ltb_spec z 0); rewrite Z2N.id; lia.
Qed.

Lemma summary_in_cents_Ok txns s :
  summary_in_cents txns = Ok s ->
  s = mkSummary (VStr (cents_string (income_cents txns)))
        (VStr (cents_string (expense_cents txns)))
        (VStr (cents_string (income_cents txns - expense_cents txns)))
        ((fun k => (k, VStr (cents_string (category_cents k txns)))) <$> categories_of txns).
Proof. unfold summary_in_cents. destruct (_ && _); [|done]. by intros [= <-]. Qed.

Lemma forallb_perm {A} (p : A -> bool) l l' : l ≡ₚ l' -> forallb p l = forallb p l'.
Proof.
  induction 1 as [|x l l' _ IH|x y l|l1 l2 l3 _ IH1 _ IH2]; simpl.
  - done.
  - by rewrite IH.
  - by rewrite !andb_assoc, (andb_comm (p y)).
  - congruence.
Qed.

Lemma forallb_ext' {A} (p q : A -> bool) l : (forall x, p x = q x) -> forallb p l = forallb q l.
Proof. intros E. induction l as [|x l IH]; simpl; [done|]. by rewrite E, IH. Qed.

Section Reorder.
Variables txns txns' : list Transaction.
Hypothesis Hperm : txns ≡ₚ txns'.

Lemma income_cents_perm : income_cents txns = income_cents txns'.
Proof. apply Zsum_perm, fmap_Permutation, Hperm. Qed.

Lemma expense_cents_perm : expense_cents txns = expense_cents txns'.
Proof. apply Zsum_perm, fmap_Permutation, Hperm. Qed.

Lemma category_cents_perm k : category_cents k txns = category_cents k txns'.
Proof. apply Zsum_perm, fmap_Permutation, Hperm. Qed.

Lemma categories_of_perm : categories_of txns ≡ₚ categories_of txns'.
Proof. apply first_seen_perm, fmap_Permutation, Hperm. Qed.
End Reorder.
End CentsFacts.

Module RecurringFacts.
Import Dec Money Datetime Analytics AnalyticsSpec AnalyticsCents DecFacts DecSigns DecTotals.
Import MoneyFacts CentsFacts AnalyticsFacts DecParse PayoffMoreFacts.

Lemma abs_sign d : d_sign (Dec.abs d) = false.
Proof.
  unfold Dec.abs, neg, pos. destruct (d_sign d) eqn:Hs; destruct (is_zero d);
    rewrite fix_ctx_sign; simpl; by rewrite ?Hs.
Qed.

Lemma abs_nonneg d : nonneg (Dec.abs d).
Proof. left. apply abs_sign. Qed.

Lemma foldl_add_nonneg xs : forall a,
  nonneg a -> Forall nonneg xs -> nonneg (foldl Dec.add a xs).
Proof.
  induction xs as [|x xs IH]; intros a Ha Hxs; [done|].
  apply Forall_cons in Hxs as [Hx Hxs]. simpl. apply IH; [by apply add_nonneg|done].
Qed.

Lemma zero_cents_nonneg : nonneg zero_cents.
Proof. by left. Qed.

Lemma income_of_nonneg txns : nonneg (income_of txns).
Proof.
  apply foldl_add_nonneg; [apply zero_cents_nonneg|]. apply Forall_fmap, Forall_forall.
  intros t Ht. apply list_elem_of_In, filter_In in Ht as [_ Hp].
  simpl. apply positive_nonneg. by apply gtb_zero_positive.
Qed.

Lemma expense_of_nonneg txns : nonneg (expense_of txns).
Proof.
  apply foldl_add_nonneg; [apply zero_cents_nonneg|]. apply Forall_fmap, Forall_true.
  intros t. apply abs_nonneg.
Qed.

Lemma category_total_nonneg k txns : nonneg (category_total_of k txns).
Proof.
  apply foldl_add_nonneg; [apply zero_cents_nonneg|]. apply Forall_fmap, Forall_true.
  intros t. apply abs_nonneg.
Qed.

Lemma money_string_nonneg d v :
  nonneg d -> money_string d = Ok v -> exists c, cents_of v = Some c /\ 0 <= c.
Proof.
  intros Hd. unfold money_string.
  destruct (quantize_cents d) as [q|] eqn:Hq; [|done]. simpl. intros [= <-].
  exists (signed q). split.
  - simpl. apply cents_of_to_str. by apply quantize_Ok in Hq as (He & _).
  - apply signed_nonneg. by eapply quantize_nonneg.
Qed.

Lemma summary_of_Ok txns s :
  summary_of txns = Ok s ->
  money_string (income_of txns) = Ok (total_income s) /\
  money_string (expense_of txns) = Ok (total_expense s) /\
  money_string (sub (income_of txns) (expense_of txns)) = Ok (net_cash_flow s) /\
  rmapM (fun k => v ← money_string (category_total_of k txns); Ok (k, v))
        (first_seen (category_key <$> txns)) = Ok (category_totals s).
Proof.
  unfold summary_of.
  destruct (money_string (income_of txns)) as [i|]; [|done]. simpl.
  destruct (money_string (expense_of txns)) as [e|]; [|done]. simpl.
  destruct (money_string (sub _ _)) as [n|]; [|done]. simpl.
  destruct (rmapM _ _) as [cats|]; [|done]. simpl. by intros [= <-].
Qed.

Lemma money_string_raises d e : money_string d = Raise e -> e = InvalidOperation.
Proof.
  unfold money_string. destruct (quantize_cents d) as [q|x] eqn:Hq; [done|].
  simpl. intros [= <-]. by eapply quantize_cents_raises.
Qed.

Lemma monthly_length g : monthly g = true -> (2 <= List.length g)%nat.
Proof. unfold monthly. intros H. apply andb_true_iff in H as [H _]. by apply Nat.leb_le. Qed.

Lemma div_returns a b : is_zero b = false -> exists r, div a b = Ok r.
Proof.
  intros Hb. unfold div. rewrite Hb. cbv zeta.
  destruct (is_zero a); [by eexists|].
  match goal with |- context [if (?c =? 0)%N then _ else _] => destruct (c =? 0)%N end.
  - match goal with |- context [strip_zeros ?f ?c ?e] => destruct (strip_zeros f c e) end.
    by eexists.
  - by eexists.
Qed.

Lemma mean_abs_returns g :
  (1 <= List.length g)%nat -> exists avg, mean_abs g = Ok avg /\ nonneg avg.
Proof.
  intros Hlen. unfold mean_abs.
  set (n := of_Z (Z.of_nat (List.length g))).
  assert (Hn : is_zero n = false).
  { apply is_zero_false. unfold n, of_Z. simpl. lia. }
  assert (Hnn : nonneg n).
  { left. unfold n, of_Z. simpl. apply Z.ltb_ge. lia. }
  assert (Hs : nonneg (sum_from zero (abs_amount <$> by_date g))).
  { apply foldl_add_nonneg; [by left|]. apply Forall_fmap, Forall_true. intros t. apply abs_nonneg. }
  destruct (div_returns (sum_from zero (abs_amount <$> by_date g)) n Hn) as [avg Hd].
  exists avg. split; [done|]. eapply div_nonneg; [| |exact Hd]; done.
Qed.

Lemma filter_monthly_Forall (p : string -> bool) ks :
  Forall (fun m => p m = true) (List.filter p ks).
Proof. apply Forall_forall. intros m Hm. by apply list_elem_of_In, filter_In in Hm as [_ H]. Qed.

Lemma recurring_entries txns (ms : list string) : forall out,
  Forall (fun m => monthly (group_of m txns) = true) ms ->
  rmapM (fun m => avg ← mean_abs (group_of m txns); q ← quantize_cents avg; Ok (m, VDec q)) ms
    = Ok out ->
  out.*1 = ms /\
  Forall (fun e => exists q, e.2 = VDec q /\ d_exp q = -2 /\ nonneg q) out.
Proof.
  induction ms as [|m ms IH]; intros out Hm Hout.
  - injection Hout as <-. by split.
  - apply Forall_cons in Hm as [Hm Hms]. cbn [rmapM] in Hout.
    destruct (mean_abs_returns (group_of m txns)) as (avg & Havg & Hnn).
    { apply monthly_length in Hm. lia. }
    rewrite Havg in Hout. simpl in Hout.
    destruct (quantize_cents avg) as [q|e] eqn:Hq; [|done]. simpl in Hout.
    destruct (rmapM _ ms) as [rest|e] eqn:Hrest; [|done]. simpl in Hout. injection Hout as <-.
    destruct (IH rest Hms eq_refl) as [Hk Hv]. split; [rewrite fmap_cons; simpl; by f_equal|].
    constructor; [|done]. exists q. split; [done|].
    split; [by apply quantize_Ok in Hq as (He & _)|by eapply quantize_nonneg].
Qed.

Lemma recurring_raises txns (ms : list string) e :
  Forall (fun m => monthly (group_of m txns) = true) ms ->
  rmapM (fun m => avg ← mean_abs (group_of m txns); q ← quantize_cents avg; Ok (m, VDec q)) ms
    = Raise e ->
  e = InvalidOperation.
Proof.
  induction ms as [|m ms IH]; intros Hm Hout; [done|].
  apply Forall_cons in Hm as [Hm Hms]. cbn [rmapM] in Hout.
  destruct (mean_abs_returns (group_of m txns)) as (avg & Havg & Hnn).
  { apply monthly_length in Hm. lia. }
  rewrite Havg in Hout. simpl in Hout.
  destruct (quantize_cents avg) as [q|x] eqn:Hq.
  - simpl in Hout. destruct (rmapM _ ms) as [rest|x] eqn:Hrest; [done|].
    simpl in Hout. injection Hout as <-. by apply IH.
  - simpl in Hout. injection Hout as <-. by eapply quantize_cents_raises.
Qed.

Lemma NoDup_List_filter {A} (p : A -> bool) l : NoDup l -> NoDup (List.filter p l).
Proof.
  induction 1 as [|x l Hx Hnd IH]; simpl; [constructor|].
  destruct (p x); [|done]. constructor; [|done].
  intros Hin. apply Hx. by apply list_elem_of_In, filter_In in Hin as [Hin%list_elem_of_In _].
Qed.

Lemma Zsum_filter_le {A} (p : A -> bool) (f : A -> Z) l :
  (forall x, 0 <= f x) -> Zsum (f <$> List.filter p l) <= Zsum (f <$> l).
Proof.
  intros Hf. induction l as [|x l IH]; [done|]. rewrite fmap_cons. simpl.
  specialize (Hf x). destruct (p x); [rewrite fmap_cons; simpl|]; lia.
Qed.

Lemma Zsum_at_least {A} (f : A -> Z) c l :
  Forall (fun x => c <= f x) l -> c * Z.of_nat (List.length l) <= Zsum (f <$> l).
Proof.
  induction 1 as [|x l Hx _ IH]; [simpl; lia|].
  rewrite fmap_cons. cbn [List.length]. rewrite Nat2Z.inj_succ, Z.mul_succ_r.
  change (Zsum (f x :: (f <$> l))) with (f x + Zsum (f <$> l)). lia.
Qed.

Lemma Zsum_count {A} (p : A -> bool) l :
  Zsum ((fun x => if p x then 1 else 0) <$> l) = Z.of_nat (List.length (List.filter p l)).
Proof.
  induction l as [|x l IH]; [done|]. rewrite fmap_cons.
  change (Zsum (?a :: ?r)) with (a + Zsum r). rewrite IH. cbn [List.filter].
  destruct (p x); cbn [List.length]; lia.
Qed.

Lemma filter_length_le {A} (p : A -> bool) l :
  (List.length (List.filter p l) <= List.length l)%nat.
Proof. induction l as [|x l IH]; simpl; [done|]. destruct (p x); simpl; lia. Qed.

(** The groups share out the transactions that have a merchant. *)
Lemma groups_share_out txns :
  Zsum ((fun m => Z.of_nat (List.length (group_of m txns)))
          <$> first_seen (omap merchant_key txns))
  = Z.of_nat (List.length (List.filter grouped txns)).
Proof.
  rewrite <- group_keys.
  rewrite (list_fmap_ext _
    (fun k => Zsum ((fun t => if String.eqb (group_key t) k then 1 else 0)
                      <$> List.filter grouped txns)) _).
  2:{ intros i m _. simpl. rewrite Zsum_count, <- pick_group. done. }
  rewrite (Zsum_by_key group_key (fun _ => 1)).
  - induction (List.filter grouped txns) as [|t l IH]; [done|].
    rewrite fmap_cons. change (Zsum (?a :: ?r)) with (a + Zsum r).
    cbn [List.length]. lia.
  - apply first_seen_NoDup.
  - apply Forall_forall. intros t Ht. apply first_seen_elem_of.
    apply list_elem_of_fmap. by exists t.
Qed.
End RecurringFacts.

Module AnalyticsExtras.
Import Dec Money Datetime Analytics AnalyticsSpec AnalyticsCents DecFacts DecSigns DecTotals.
Import MoneyFacts CentsFacts AnalyticsFacts DecParse RecurringFacts Examples Cases.

















End AnalyticsExtras.

(** * The normalizer: more of what the code does *)

Module DateFacts.
Import Dec Datetime Strptime Normalizer NormalizerSpec DateText NormalizerTheorems.

Lemma match_classes_sound alt : forall s m rest,
  match_classes alt s = Some (m, rest) -> s = m ++ rest /\ Forall2 in_class alt m.
Proof.
  induction alt as [|cls alt IH]; intros s m rest; simpl.
  - intros [= <- <-]. by split.
  - destruct s as [|c s]; [done|]. destruct (cls c) eqn:Hc; [|done].
    destruct (match_classes alt s) as [[m' r']|] eqn:Hm; [|done]. intros [= <- <-].
    destruct (IH _ _ _ Hm) as [-> HF]. split; [done|]. by constructor.
Qed.

(** What a match has captured spells the string, and every capture has
    the shape of its directive. *)
Lemma regex_match_sound fmt : forall s caps rest,
  regex_match fmt s = Some (caps, rest) ->
  s = List.concat caps.*2 ++ rest /\ Forall2 captured fmt caps.
Proof.
  induction fmt as [|d fmt IH]; intros s caps rest.
  - simpl. intros [= <- <-]. split; [done|constructor].
  - simpl.
    assert (Hsub : forall alt, alt ∈ alternatives d -> alt ∈ alternatives d) by done.
    revert Hsub. generalize (alternatives d) at 1 3. intros alts.
    induction alts as [|alt alts IHa]; intros Hsub; [done|].
    destruct (match_classes alt s) as [[m r]|] eqn:Hm.
    + destruct (regex_match fmt r) as [[caps' r']|] eqn:Hr.
      * intros [= <- <-]. destruct (match_classes_sound _ _ _ _ Hm) as [-> HF].
        destruct (IH _ _ _ Hr) as [-> HC]. split.
        { rewrite fmap_cons. simpl. by rewrite <- app_assoc. }
        constructor; [|done]. split; [done|]. exists alt. split; [apply Hsub; left|done].
      * apply IHa. intros a Ha. apply Hsub. by right.
    + apply IHa. intros a Ha. apply Hsub. by right.
Qed.

Lemma strptime_Ok s fmt t :
  strptime s fmt = Ok t ->
  exists caps,
    regex_match fmt (list_ascii_of_string s) = Some (caps, []) /\
    t = midnight (field DirY 1900 caps) (field DirM 1 caps) (field DirD 1 caps) /\
    valid_date (year t) (month t) (day t) = true.
Proof.
  unfold strptime. destruct (regex_match fmt _) as [[caps [|c rest]]|]; [|done..].
  destruct (valid_date _ _ _) eqn:Hv; [|done]. intros [= <-]. by exists caps.
Qed.

Lemma parsed_by s t :
  _parse_date (VStr s) = Ok t ->
  exists fmt, fmt ∈ formats /\ strptime s fmt = Ok t.
Proof.
  rewrite parse_date_parsed. unfold parsed_date, first_match, parses_as, formats.
  destruct (strptime s fmt_iso) as [t1|] eqn:H1.
  { intros [= <-]. exists fmt_iso. split; [left|done]. }
  destruct (strptime s fmt_us) as [t2|] eqn:H2.
  { intros [= <-]. exists fmt_us. split; [right; left|done]. }
  destruct (strptime s fmt_intl) as [t3|] eqn:H3; [|done].
  intros [= <-]. exists fmt_intl. split; [right; right; left|done].
Qed.

Lemma capture_length d cap :
  captured d cap ->
  match d with
  | DirY => List.length cap.2 = 4%nat
  | DirM | DirD => (1 <= List.length cap.2 <= 2)%nat
  | Lit _ => List.length cap.2 = 1%nat
  end.
Proof.
  intros [_ (alt & Hin & HF)]. apply Forall2_length in HF. rewrite <- HF.
  destruct d; simpl in Hin;
    repeat (apply elem_of_cons in Hin as [->|Hin]; [simpl; lia|]);
    by apply elem_of_nil in Hin.
Qed.

Lemma length_string s : List.length (list_ascii_of_string s) = String.length s.
Proof. induction s as [|c s IH]; simpl; [done|]. by rewrite IH. Qed.

Lemma continue_with_app fmt l1 l2 :
  continue_with fmt (l1 ++ l2) =
  match continue_with fmt l1 with
  | Some x => Some x
  | None => continue_with fmt l2
  end.
Proof.
  induction l1 as [|[c r] l1 IH]; [done|]. simpl.
  destruct (regex_match fmt r) as [[c' r']|]; [done|]. apply IH.
Qed.

Lemma continue_with_cons fmt d m l :
  continue_with fmt
    ((fun cr : list (directive * list ascii) * list ascii => ((d, m) :: cr.1, cr.2)) <$> l) =
  match continue_with fmt l with
  | Some (caps, r) => Some ((d, m) :: caps, r)
  | None => None
  end.
Proof.
  induction l as [|[c r] l IH]; [done|]. rewrite fmap_cons. simpl.
  destruct (regex_match fmt r) as [[c' r']|]; [done|]. apply IH.
Qed.

(** Backtracking over a format in two parts. *)
Lemma regex_match_app f1 f2 : forall s,
  regex_match (f1 ++ f2) s = continue_with f2 (all_matches f1 s).
Proof.
  induction f1 as [|d f1 IH]; intros s.
  - simpl. by destruct (regex_match f2 s) as [[c r]|].
  - simpl. induction (alternatives d) as [|alt alts IHa]; [done|].
    simpl. rewrite continue_with_app.
    destruct (match_classes alt s) as [[m r]|]; [|exact IHa].
    rewrite continue_with_cons, <- IH.
    destruct (regex_match (f1 ++ f2) r) as [[c r']|]; [done|exact IHa].
Qed.

Lemma digit_digit_char k : 0 <= k <= 9 -> digit (digit_char k) = true.
Proof.
  intros Hk.
  assert (k = 0 \/ k = 1 \/ k = 2 \/ k = 3 \/ k = 4 \/ k = 5 \/ k = 6 \/ k = 7 \/ k = 8
          \/ k = 9) as Hc by lia.
  repeat (destruct Hc as [->|Hc]; [reflexivity|]). by subst.
Qed.

Lemma pad4_digits y : 0 <= y <= 9999 -> Forall (fun c => digit c = true) (pad4 y).
Proof.
  intros Hy. unfold pad4.
  assert (0 <= y / 1000 < 10).
  { split; [apply Z.div_pos; lia|]. apply Z.div_lt_upper_bound; lia. }
  repeat constructor; apply digit_digit_char; [lia|..];
    (assert (Hm : forall x, 0 <= x mod 10 < 10) by (intros x; apply Z.mod_pos_bound; lia));
    match goal with |- _ <= ?x mod 10 <= _ => specialize (Hm x); lia end.
Qed.

Lemma match_year ys rest :
  List.length ys = 4%nat -> Forall (fun c => digit c = true) ys ->
  match_classes [digit; digit; digit; digit] (ys ++ rest) = Some (ys, rest).
Proof.
  intros Hl Hd. destruct ys as [|c1 [|c2 [|c3 [|c4 [|]]]]]; try done.
  apply Forall_cons in Hd as [H1 Hd]. apply Forall_cons in Hd as [H2 Hd].
  apply Forall_cons in Hd as [H3 Hd]. apply Forall_cons in Hd as [H4 _].
  simpl. by rewrite H1, H2, H3, H4.
Qed.

Lemma regex_match_year_first fmt ys rest :
  List.length ys = 4%nat -> Forall (fun c => digit c = true) ys ->
  regex_match (DirY :: fmt) (ys ++ rest) =
  match regex_match fmt rest with
  | Some (caps, r) => Some ((DirY, ys) :: caps, r)
  | None => None
  end.
Proof.
  intros Hl Hd.
  change (regex_match (DirY :: fmt) (ys ++ rest)) with
    (match match_classes [digit; digit; digit; digit] (ys ++ rest) with
     | Some (m, r0) =>
         match regex_match fmt r0 with
         | Some (caps, r) => Some ((DirY, m) :: caps, r)
         | None => None
         end
     | None => None
     end).
  by rewrite match_year.
Qed.

Lemma regex_match_year_last ys :
  List.length ys = 4%nat -> Forall (fun c => digit c = true) ys ->
  regex_match [DirY] ys = Some ([(DirY, ys)], []).
Proof.
  intros Hl Hd. rewrite <- (app_nil_r ys) at 1.
  by rewrite regex_match_year_first.
Qed.

Lemma forallb_seq_Z (p : Z -> bool) n z :
  forallb (fun k => p (Z.of_nat k)) (seq 0 (Z.to_nat n)) = true ->
  0 <= z < n -> p z = true.
Proof.
  intros H Hz. rewrite forallb_forall in H.
  rewrite <- (Z2Nat.id z) by lia. apply H, in_seq. lia.
Qed.

Lemma int_of_pad4 y : 0 <= y <= 9999 -> int_of_capture (pad4 y) = y.
Proof.
  intros Hy. apply Z.eqb_eq.
  apply (forallb_seq_Z (fun z => int_of_capture (pad4 z) =? z) 10000); [|lia].
  vm_compute. reflexivity.
Qed.

Lemma int_of_pad2 n : 0 <= n <= 99 -> int_of_capture (pad2 n) = n.
Proof.
  intros Hn. apply Z.eqb_eq.
  apply (forallb_seq_Z (fun z => int_of_capture (pad2 z) =? z) 100); [|lia].
  vm_compute. reflexivity.
Qed.

Lemma iso_rest_table :
  forallb (fun m => forallb (iso_rest_reads m) up_to_31) up_to_12 = true.
Proof. vm_compute. reflexivity. Qed.

Lemma in_up_to_12 m : 1 <= m <= 12 <-> m ∈ up_to_12.
Proof. change up_to_12 with (seqZ 1 12). rewrite elem_of_seqZ. lia. Qed.

Lemma in_up_to_31 d : 1 <= d <= 31 <-> d ∈ up_to_31.
Proof. change up_to_31 with (seqZ 1 31). rewrite elem_of_seqZ. lia. Qed.

Lemma in_from_13 d : 13 <= d <= 31 <-> d ∈ from_13_to_31.
Proof. change from_13_to_31 with (seqZ 13 19). rewrite elem_of_seqZ. lia. Qed.

Ltac each_of H :=
  repeat (apply elem_of_cons in H as [->|H]); [..|by apply elem_of_nil in H].

(** [MM/DD/] read month first. *)
Lemma month_first_front a b ys :
  a ∈ up_to_12 -> b ∈ up_to_31 ->
  all_matches (front DirM DirD) (front_chars a b ys)
  = [(front_captures DirM DirD a b, ys)].
Proof.
  intros Ha Hb. unfold up_to_12 in Ha. unfold up_to_31, up_to_12, from_13_to_31 in Hb.
  simpl in Hb. each_of Ha; each_of Hb; vm_compute; reflexivity.
Qed.

(** [DD/MM/] with a day above twelve: no month-first reading, and one
    day-first. *)
Lemma day_first_front a b ys :
  a ∈ from_13_to_31 -> b ∈ up_to_12 ->
  all_matches (front DirM DirD) (front_chars a b ys) = [] /\
  all_matches (front DirD DirM) (front_chars a b ys)
  = [(front_captures DirD DirM a b, ys)].
Proof.
  intros Ha Hb. unfold from_13_to_31 in Ha. unfold up_to_12 in Hb.
  each_of Ha; each_of Hb; split; vm_compute; reflexivity.
Qed.

Lemma chars_of_string l : list_ascii_of_string (string_of_list_ascii l) = l.
Proof. apply list_ascii_of_string_of_list_ascii. Qed.

Lemma valid_date_bounds y m d :
  valid_date y m d = true -> 1 <= y <= 9999 /\ 1 <= m <= 12 /\ 1 <= d <= 31.
Proof.
  unfold valid_date. rewrite !andb_true_iff, !Z.leb_le.
  intros (((((H1 & H2) & H3) & H4) & H5) & H6).
  assert (days_in_month y m <= 31).
  { unfold days_in_month. repeat destruct (_ =? _); try destruct (is_leap y); simpl; lia. }
  lia.
Qed.

Lemma pad4_length y : List.length (pad4 y) = 4%nat.
Proof. reflexivity. Qed.

Lemma iso_rest_ok m d :
  1 <= m <= 12 -> 1 <= d <= 31 ->
  exists caps,
    regex_match iso_rest ("-"%char :: pad2 m ++ "-"%char :: pad2 d) = Some (caps, []) /\
    field DirM 1 caps = m /\ field DirD 1 caps = d.
Proof.
  intros Hm Hd. pose proof iso_rest_table as H.
  rewrite forallb_forall in H. specialize (H m).
  rewrite forallb_forall in H.
  assert (Hr : iso_rest_reads m d = true).
  { apply H; apply list_elem_of_In; [by apply in_up_to_12|by apply in_up_to_31]. }
  unfold iso_rest_reads in Hr.
  destruct (regex_match iso_rest _) as [[caps [|c r]]|]; [|done..].
  apply andb_true_iff in Hr as [H1 H2]. exists caps.
  split; [done|]. split; by apply Z.eqb_eq.
Qed.

Lemma strptime_iso y m d :
  valid_date y m d = true -> strptime (iso_string y m d) fmt_iso = Ok (midnight y m d).
Proof.
  intros Hv. destruct (valid_date_bounds _ _ _ Hv) as (Hy & Hm & Hd).
  destruct (iso_rest_ok m d Hm Hd) as (caps & Hr & HM & HD).
  unfold strptime, iso_string. rewrite chars_of_string.
  change fmt_iso with (DirY :: iso_rest).
  rewrite regex_match_year_first; [|apply pad4_length|apply pad4_digits; lia].
  rewrite Hr.
  change (field DirY 1900 ((DirY, pad4 y) :: caps)) with (int_of_capture (pad4 y)).
  change (field DirM 1 ((DirY, pad4 y) :: caps)) with (field DirM 1 caps).
  change (field DirD 1 ((DirY, pad4 y) :: caps)) with (field DirD 1 caps).
  rewrite int_of_pad4, HM, HD, Hv by lia. done.
Qed.

Lemma iso_rejects_slash c1 c2 rest :
  regex_match fmt_iso (c1 :: c2 :: "/"%char :: rest) = None.
Proof.
  unfold fmt_iso.
  change (regex_match (DirY :: ?f) ?s) with
    (match match_classes [digit; digit; digit; digit] s with
     | Some (m, r0) =>
         match regex_match f r0 with
         | Some (caps, r) => Some ((DirY, m) :: caps, r)
         | None => None
         end
     | None => None
     end).
  simpl. destruct (digit c1); [|done]. destruct (digit c2); done.
Qed.

Lemma parses_as_iso_slash a b y : parses_as fmt_iso (slash_string a b y) = None.
Proof.
  unfold parses_as, strptime, slash_string. rewrite chars_of_string.
  unfold pad2 at 1. cbn [app]. by rewrite iso_rejects_slash.
Qed.

Lemma strptime_month_first a b y :
  1 <= a <= 12 -> valid_date y a b = true ->
  strptime (slash_string a b y) fmt_us = Ok (midnight y a b).
Proof.
  intros Ha Hv. destruct (valid_date_bounds _ _ _ Hv) as (Hy & _ & Hb).
  unfold strptime, slash_string. rewrite chars_of_string.
  change fmt_us with (front DirM DirD ++ [DirY]).
  change (pad2 a ++ "/"%char :: pad2 b ++ "/"%char :: pad4 y) with (front_chars a b (pad4 y)).
  rewrite regex_match_app, month_first_front by (by apply in_up_to_12 || by apply in_up_to_31).
  cbn [continue_with].
  rewrite regex_match_year_last; [|apply pad4_length|apply pad4_digits; lia].
  change (field DirY 1900 _) with (int_of_capture (pad4 y)).
  change (field DirM 1 _) with (int_of_capture (pad2 a)).
  change (field DirD 1 _) with (int_of_capture (pad2 b)).
  rewrite int_of_pad4, !int_of_pad2, Hv by lia. done.
Qed.

Lemma strptime_day_first a b y :
  12 < a -> valid_date y b a = true ->
  parses_as fmt_us (slash_string a b y) = None /\
  strptime (slash_string a b y) fmt_intl = Ok (midnight y b a).
Proof.
  intros Ha Hv. destruct (valid_date_bounds _ _ _ Hv) as (Hy & Hb & Ha').
  destruct (day_first_front a b (pad4 y)) as [Hus Hintl];
    [apply in_from_13; lia|by apply in_up_to_12|].
  unfold parses_as, strptime, slash_string. rewrite chars_of_string.
  change (pad2 a ++ "/"%char :: pad2 b ++ "/"%char :: pad4 y) with (front_chars a b (pad4 y)).
  split.
  - change fmt_us with (front DirM DirD ++ [DirY]). by rewrite regex_match_app, Hus.
  - change fmt_intl with (front DirD DirM ++ [DirY]). rewrite regex_match_app, Hintl.
    cbn [continue_with].
    rewrite regex_match_year_last; [|apply pad4_length|apply pad4_digits; lia].
    change (field DirY 1900 _) with (int_of_capture (pad4 y)).
    change (field DirM 1 _) with (int_of_capture (pad2 b)).
    change (field DirD 1 _) with (int_of_capture (pad2 a)).
    rewrite int_of_pad4, !int_of_pad2, Hv by lia. done.
Qed.

Lemma lstrip_head cs :
  lstrip cs = [] \/ exists c r, lstrip cs = c :: r /\ is_space c = false.
Proof.
  induction cs as [|c cs IH]; [by left|]. simpl.
  destruct (is_space c) eqn:Hc; [done|]. right. by exists c, cs.
Qed.

Lemma lstrip_snoc l c :
  is_space c = false -> exists pre, lstrip (l ++ [c]) = pre ++ [c].
Proof.
  intros Hc. induction l as [|x l IH].
  - simpl. rewrite Hc. by exists [].
  - simpl. destruct (is_space x); [done|]. by exists (x :: l).
Qed.

Lemma strip_head s :
  strip s = "" \/
  exists c r, list_ascii_of_string (strip s) = c :: r /\ is_space c = false.
Proof.
  unfold strip. rewrite chars_of_string.
  destruct (lstrip_head (list_ascii_of_string s)) as [->|(c & r & -> & Hc)]; [by left|].
  right. simpl rev at 2.
  destruct (lstrip_snoc (rev r) c Hc) as [pre ->].
  rewrite rev_app_distr. simpl. by exists c, (rev pre).
Qed.

Lemma string_nonempty l : l <> [] -> String.eqb (string_of_list_ascii l) "" = false.
Proof. destruct l; [done|]. intros _. reflexivity. Qed.

Lemma first_word_nonempty s :
  strip s <> "" -> String.eqb (first_word (strip s)) "" = false.
Proof.
  intros Hs. destruct (strip_head s) as [?|(c & r & Hcr & Hc)]; [done|].
  unfold first_word. rewrite Hcr. simpl. rewrite Hc. simpl. by rewrite Hc.
Qed.

Lemma upper_char_idem c : upper_char (upper_char c) = upper_char c.
Proof. destruct c as [[] [] [] [] [] [] [] []]; reflexivity. Qed.

Lemma upper_idem s : upper (upper s) = upper s.
Proof.
  unfold upper. rewrite chars_of_string, <- list_fmap_compose. f_equal.
  apply list_fmap_ext. intros i c _. apply upper_char_idem.
Qed.
End DateFacts.

Module NormalizerExtras.
Import Dec Datetime Strptime Normalizer NormalizerSpec DateText NormalizerTheorems DateFacts.
Import Examples Cases.

















End NormalizerExtras.
